(** * html-midi-player (SpessaSynth port): note-timing extraction and widget
      playback state machine.

    Three parts of the repository are embedded here.

    - [Extractor]: [SpessaSynthPlayer.getNoteTimes] (spessasynth_player.ts),
      the walk over the time-ordered MIDI events that produces, per channel,
      the list of note intervals.
    - [Widget]: the playback logic of [PlayerElement] (player.ts): start,
      stop, the natural-end handler, the seek bar handlers, the
      [currentTime] property and the (re)load sequence.
    - [Visualizers]: the bookkeeping of [addVisualizer],
      [removeVisualizer] and the [visualizer] attribute (player.ts).

    Numbers.  JavaScript numbers are IEEE doubles.  Tick counts and bytes
    are integers and are modelled exactly ([Z], [byte]); times in seconds
    are modelled as exact rationals ([Q]), so rounding, [Infinity] and
    [NaN] are outside the model.  The one place where the source can
    divide by zero with a visible effect is a document whose time division
    is 0; statements that depend on the tick length assume it positive.

    Objects.  [getNoteTimes] keeps each interval in two arrays at once;
    the intervals are stored once, and the array of the open ones holds
    their indices.  The events of the document are referred to by track
    and position, so that what the walk writes to an event is written to
    the document.  On the page, the elements are a store indexed by
    element, and the module variable [playingPlayer] holds an index.

    Tasks.  The page is single-threaded: a handler runs to its end.  An
    [async] function runs up to an [await] of a [fetch] and is resumed by
    a later task, when the answer arrives; other tasks may run in between.
    The range clamping of [<input type=range>] and the listeners of the
    element's events are not modelled. *)

From Stdlib Require Import ZArith QArith Lia List Bool Lqa Sorted.
From Stdlib Require Import Strings.Byte.
From stdpp Require Import base numbers option functions list strings.

Local Open Scope Z_scope.

(** ** Rationals: a strict comparison as a boolean *)

Definition Qltb (x y : Q) : bool := negb (Qle_bool y x).

(** ** The data of spessasynth_lib that the extractor reads *)

(** [IndexedByteArray extends Uint8Array]: a window on an [ArrayBuffer]
    together with a read cursor. *)
Module IndexedByteArray.
Record t := mk {
  buffer : list byte;      (* the bytes of the underlying ArrayBuffer *)
  byteOffset : nat;        (* where the view starts in the buffer *)
  byteLength : nat;        (* number of elements of the view *)
  currentIndex : nat       (* the read cursor *)
}.

(** [a[i]]: [None] stands for [undefined]. *)
Definition get (a : t) (i : nat) : option byte :=
  if decide (i < byteLength a)%nat then buffer a !! (byteOffset a + i)%nat
  else None.

(** [new IndexedByteArray(buffer)]: a view on the whole buffer, cursor 0. *)
Definition of_buffer (b : list byte) : t := mk b 0 (length b) 0.

Definition set_currentIndex (i : nat) (a : t) : t :=
  mk (buffer a) (byteOffset a) (byteLength a) i.
End IndexedByteArray.

Module MidiMessage.
Record t := mk {
  ticks : Z;
  messageStatusByte : Z;
  messageData : IndexedByteArray.t
}.

Definition set_messageData (d : IndexedByteArray.t) (e : t) : t :=
  mk (ticks e) (messageStatusByte e) d.
End MidiMessage.

(** [BasicMIDI]: the fields the extractor uses. *)
Module BasicMIDI.
Record t := mk {
  timeDivision : Z;
  tracks : list (list MidiMessage.t)
}.

Definition set_tracks (ts : list (list MidiMessage.t)) (m : t) : t :=
  mk (timeDivision m) ts.
End BasicMIDI.

(** [class NoteTime].  [midiNote] is [event.messageData[0]], which is
    [undefined] for an event without data; [velocity] is
    [event.messageData[1] / 127], which is [NaN] when the second byte is
    absent ([None] here). *)
Module NoteTime.
Record t := mk {
  midiNote : option Z;
  start : Q;
  length : Q;
  velocity : option Q
}.

Definition set_length (l : Q) (n : t) : t :=
  mk (midiNote n) (start n) l (velocity n).
End NoteTime.

Definition byte_to_Z (b : byte) : Z := Z.of_N (Byte.to_N b).

(** Modelled from the spec: [readBytesAsUintBigEndian] belongs to
    spessasynth_lib and is only declared in this repository.  It reads
    [bytesAmount] bytes at the cursor as one big-endian unsigned number and
    moves the cursor past them (the tempo payload "carries a
    microseconds-per-quarter-note value"); a byte past the end of the view
    reads as [undefined], which [<<] turns into 0. *)
Fixpoint readBytesAsUintBigEndian_from
    (a : IndexedByteArray.t) (index : nat) (bytesAmount : nat) (out : Z) : Z :=
  match bytesAmount with
  | O => out
  | S n =>
      let b := from_option byte_to_Z 0 (IndexedByteArray.get a index) in
      readBytesAsUintBigEndian_from a (S index) n
        (Z.lor out (Z.shiftl b (8 * Z.of_nat n)))
  end.

Definition readBytesAsUintBigEndian (a : IndexedByteArray.t) (bytesAmount : nat)
  : Z * IndexedByteArray.t :=
  (readBytesAsUintBigEndian_from a (IndexedByteArray.currentIndex a) bytesAmount 0,
   IndexedByteArray.set_currentIndex
     (IndexedByteArray.currentIndex a + bytesAmount)%nat a).

(** ** getNoteTimes *)

Module Extractor.
Import IndexedByteArray MidiMessage BasicMIDI.

(** An event object is shared between [this.midi.tracks] and the
    flattened array [events]: the array holds references.  A reference
    is the place of the object in the document, which is the store. *)
Definition EventRef : Type := nat * nat.

Definition getEvent (m : BasicMIDI.t) (r : EventRef) : option MidiMessage.t :=
  tracks m !! r.1 ≫= (.!! r.2).

Definition setEvent (r : EventRef) (e : MidiMessage.t) (m : BasicMIDI.t)
  : BasicMIDI.t :=
  set_tracks (alter (λ tr, <[r.2 := e]> tr) r.1 (tracks m)) m.

(** [trackData.flat()] *)
Definition flat (ts : list (list MidiMessage.t)) : list EventRef :=
  mjoin (imap (λ i tr, imap (λ j _, (i, j)) tr) ts).

Definition ticksOf (m : BasicMIDI.t) (r : EventRef) : Z :=
  from_option ticks 0 (getEvent m r).

(** [events.sort((e1, e2) => e1.ticks - e2.ticks)]: [Array.prototype.sort]
    is stable, so the result is the one of any stable sort; here, of
    insertion from the right. *)
Fixpoint sort_insert (key : EventRef → Z) (x : EventRef) (l : list EventRef)
  : list EventRef :=
  match l with
  | [] => [x]
  | y :: l' => if key x <=? key y then x :: y :: l'
               else y :: sort_insert key x l'
  end.

Definition sort (key : EventRef → Z) (l : list EventRef) : list EventRef :=
  foldr (sort_insert key) [] l.

(** The local variables of [getNoteTimes], and [this.midi].
    A [NoteTime] object is shared between [noteTimes[channel]] and
    [unfinishedNotes[channel]]; it is never removed from
    [noteTimes[channel]], so its index there is its identity and
    [unfinishedNotes[channel]] holds such indices. *)
Record State := mkState {
  midi : BasicMIDI.t;
  noteTimes : list (list NoteTime.t);
  elapsedTime : Q;
  oneTickToSeconds : Q;
  unfinished : Z;
  unfinishedNotes : list (list nat)
}.

Definition set_midi m st :=
  mkState m (noteTimes st) (elapsedTime st) (oneTickToSeconds st)
    (unfinished st) (unfinishedNotes st).
Definition set_noteTimes n st :=
  mkState (midi st) n (elapsedTime st) (oneTickToSeconds st)
    (unfinished st) (unfinishedNotes st).
Definition set_elapsedTime t st :=
  mkState (midi st) (noteTimes st) t (oneTickToSeconds st)
    (unfinished st) (unfinishedNotes st).
Definition set_oneTickToSeconds t st :=
  mkState (midi st) (noteTimes st) (elapsedTime st) t
    (unfinished st) (unfinishedNotes st).
Definition set_unfinished u st :=
  mkState (midi st) (noteTimes st) (elapsedTime st) (oneTickToSeconds st)
    u (unfinishedNotes st).
Definition set_unfinishedNotes u st :=
  mkState (midi st) (noteTimes st) (elapsedTime st) (oneTickToSeconds st)
    (unfinished st) u.

Definition minNoteTime : Q := 0.02.

(** [getTempo(event)]: replaces the event's [messageData] by a fresh
    view on the whole of its buffer, reads three bytes through it, and
    returns the tempo in beats per minute. *)
Definition getTempo (r : EventRef) (event : MidiMessage.t) (m : BasicMIDI.t)
  : Q * BasicMIDI.t :=
  let data := IndexedByteArray.set_currentIndex 0
                (IndexedByteArray.of_buffer (buffer (messageData event))) in
  let '(value, data') := readBytesAsUintBigEndian data 3 in
  ((60000000 / inject_Z value)%Q, setEvent r (set_messageData data' event) m).

(** [time < minNoteTime && channel === 9 ? minNoteTime : time] *)
Definition closedLength (elapsed : Q) (channel : nat) (note : NoteTime.t) : Q :=
  let time := (elapsed - NoteTime.start note)%Q in
  if Qltb time minNoteTime && (channel =? 9)%nat then minNoteTime else time.

Definition closeNote (elapsed : Q) (channel : nat) (note : NoteTime.t)
  : NoteTime.t :=
  NoteTime.set_length (closedLength elapsed channel note) note.

(** [n => n.midiNote === midiNote], on a reference into [notes]. *)
Definition hasMidiNote (notes : list NoteTime.t) (midiNote : option Z)
  (ref : nat) : Prop :=
  NoteTime.midiNote <$> notes !! ref = Some midiNote.

#[export] Instance hasMidiNote_dec notes midiNote ref :
  Decision (hasMidiNote notes midiNote ref).
Proof. unfold hasMidiNote. apply _. Defined.

(** The closure [noteOff]. *)
Definition noteOff (midiNote : option Z) (channel : nat) (st : State) : State :=
  let notes := noteTimes st !!! channel in
  let open := unfinishedNotes st !!! channel in
  let st' :=
    match list_find (hasMidiNote notes midiNote) open with
    | Some (noteIndex, ref) =>
        set_unfinishedNotes
          (<[channel := delete noteIndex open]> (unfinishedNotes st))
          (set_noteTimes
             (<[channel := alter (closeNote (elapsedTime st) channel) ref notes]>
                (noteTimes st))
             st)
    | None => st
    end in
  set_unfinished (unfinished st' - 1) st'.

(** The note-on branch after its [noteOff]: build the object, push it on
    both arrays, count it. *)
Definition noteOn (midiNote : option Z) (velocity : option Z) (channel : nat)
  (st : State) : State :=
  let notes := noteTimes st !!! channel in
  let open := unfinishedNotes st !!! channel in
  let noteTime :=
    NoteTime.mk midiNote (elapsedTime st) (-1)
      ((λ v, inject_Z v / 127)%Q <$> velocity) in
  set_unfinished (unfinished st + 1)
    (set_unfinishedNotes
       (<[channel := open ++ [length notes]]> (unfinishedNotes st))
       (set_noteTimes (<[channel := notes ++ [noteTime]]> (noteTimes st)) st)).

(** The body of the [while] loop up to the increment of [eventIndex]. *)
Definition handleEvent (r : EventRef) (st : State) : State :=
  match getEvent (midi st) r with
  | None => st
  | Some event =>
      let status := Z.shiftr (messageStatusByte event) 4 in
      let channel := Z.to_nat (Z.land (messageStatusByte event) 15) in
      let data0 := byte_to_Z <$> IndexedByteArray.get (messageData event) 0 in
      let data1 := byte_to_Z <$> IndexedByteArray.get (messageData event) 1 in
      if status =? 8 then noteOff data0 channel st
      else if status =? 9 then
        if decide (data1 = Some 0) then noteOff data0 channel st
        else noteOn data0 data1 channel (noteOff data0 channel st)
      else if messageStatusByte event =? 81 then
        let '(tempo, m) := getTempo r event (midi st) in
        set_oneTickToSeconds
          (60 / (tempo * inject_Z (timeDivision m)))%Q
          (set_midi m st)
      else st
  end.

(** [elapsedTime += oneTickToSeconds * (events[eventIndex].ticks - event.ticks)] *)
Definition advance (event next : EventRef) (st : State) : State :=
  set_elapsedTime
    (elapsedTime st + oneTickToSeconds st *
       inject_Z (ticksOf (midi st) next - ticksOf (midi st) event))%Q
    st.

(** One turn of the loop that does not leave it. *)
Definition step (event next : EventRef) (st : State) : State :=
  advance event next (handleEvent event st).

Fixpoint loop (events : list EventRef) (st : State) : State :=
  match events with
  | [] => st
  | event :: rest =>
      match rest with
      | [] => handleEvent event st
      | next :: _ => loop rest (step event next st)
      end
  end.

(** "finish the unfinished notes" *)
Definition finishChannel (elapsed : Q) (channel : nat)
  (notes : list NoteTime.t) (open : list nat) : list NoteTime.t :=
  foldl (λ ns ref, alter (closeNote elapsed channel) ref ns) notes open.

Definition finish (st : State) : State :=
  if 0 <? unfinished st then
    set_noteTimes
      (foldl (λ nts '(channel, channelNotes),
                alter (λ notes,
                         finishChannel (elapsedTime st) channel notes channelNotes)
                  channel nts)
         (noteTimes st) (imap pair (unfinishedNotes st)))
      st
  else st.

Definition init (m : BasicMIDI.t) : State :=
  mkState m (replicate 16 []) 0
    (60 / (120 * inject_Z (timeDivision m)))%Q 0 (replicate 16 []).

Definition events (m : BasicMIDI.t) : list EventRef :=
  sort (ticksOf m) (flat (tracks m)).

(** The state when [getNoteTimes] returns; [noteTimes] of it is the
    value returned and [midi] of it the document as the call leaves it. *)
Definition run (m : BasicMIDI.t) : State :=
  finish (loop (events m) (init m)).

Definition getNoteTimes (m : BasicMIDI.t) : list (list NoteTime.t) :=
  noteTimes (run m).

End Extractor.

(** ** What the claims about the extractor speak of *)

Module ExtractorSpec.
Import IndexedByteArray MidiMessage BasicMIDI Extractor.

(** The pitch of the interval that [ref] refers to. *)
Definition pitchAt (notes : list NoteTime.t) (ref : nat) : option (option Z) :=
  NoteTime.midiNote <$> notes !! ref.

(** The open references of a channel point into its intervals, and no
    two of them to intervals of the same pitch. *)
Definition channel_ok (notes : list NoteTime.t) (open : list nat) : Prop :=
  Forall (λ ref, ref < length notes)%nat open ∧ NoDup (pitchAt notes <$> open).

(** The invariant of the loop on the two arrays. *)
Definition wf (st : State) : Prop :=
  length (noteTimes st) = 16%nat ∧ length (unfinishedNotes st) = 16%nat ∧
  ∀ c, channel_ok (noteTimes st !!! c) (unfinishedNotes st !!! c).

(** [ref] is an open interval of pitch [p] on channel [c]. *)
Definition openAt (st : State) (c : nat) (p : option Z) (ref : nat) : Prop :=
  ref ∈ unfinishedNotes st !!! c ∧ hasMidiNote (noteTimes st !!! c) p ref.

(** The state in which the loop reaches [event], having taken the turns
    of the events of [pre] before it. *)
Fixpoint arrive (pre : list EventRef) (event : EventRef) (st : State) : State :=
  match pre with
  | [] => st
  | x :: pre' =>
      match pre' with
      | [] => step x event st
      | y :: _ => arrive pre' event (step x y st)
      end
  end.


Definition channelOf (event : MidiMessage.t) : nat :=
  Z.to_nat (Z.land (MidiMessage.messageStatusByte event) 15).

Definition noteOf (event : MidiMessage.t) : option Z :=
  byte_to_Z <$> IndexedByteArray.get (MidiMessage.messageData event) 0.

(** An event as the decoder builds it: its data is a view on its own
    buffer, cursor 0. *)
Definition event (t sb : Z) (d : list byte) : MidiMessage.t :=
  MidiMessage.mk t sb (IndexedByteArray.mk d 0 (length d) 0).

(** A set-tempo event of 500000 microseconds per quarter note
    (0x07A120), and one note of a quarter note on channel 0; time
    division 480. *)
Definition doc_scenario : BasicMIDI.t := BasicMIDI.mk 480
  [[event 0 81 [x07; xa1; x20]; event 0 144 [x3c; x64]; event 480 128 [x3c; x00]]].

(** What [getNoteTimes] leaves of an event: a set-tempo event has had its
    [messageData] replaced by a view on its whole buffer, read up to
    index 3. *)
Definition touch (ev : MidiMessage.t) : MidiMessage.t :=
  if messageStatusByte ev =? 81
  then set_messageData
         (IndexedByteArray.mk (buffer (messageData ev)) 0
            (length (buffer (messageData ev))) 3) ev
  else ev.

(** The value that [getTempo] reads from an event, and the tempo it returns. *)
Definition tempoValue (ev : MidiMessage.t) : Z :=
  (readBytesAsUintBigEndian
     (IndexedByteArray.of_buffer (buffer (messageData ev))) 3).1.

Definition tempoOf (ev : MidiMessage.t) : Q :=
  (60000000 / inject_Z (tempoValue ev))%Q.

(** [m'] is the document [m] after the events of [seen] have been handled. *)
Definition touchedBy (seen : list EventRef) (m m' : BasicMIDI.t) : Prop :=
  timeDivision m' = timeDivision m ∧
  length <$> tracks m' = length <$> tracks m ∧
  ∀ r, getEvent m' r = (if decide (r ∈ seen) then touch else id) <$> getEvent m r.

(** An interval is either still provisional or has been closed at some
    elapsed time [t] not before its start. *)
Definition provisionalOrClosed (c : nat) (note : NoteTime.t) : Prop :=
  NoteTime.length note = (-1)%Q ∨
  ∃ t : Q, (NoteTime.start note <= t)%Q ∧
           NoteTime.length note = closedLength t c note.

(** The invariant of the loop on the times: nothing is negative, and no
    interval starts after the time elapsed. *)
Definition timed (st : State) : Prop :=
  (0 <= oneTickToSeconds st)%Q ∧ (0 <= elapsedTime st)%Q ∧
  ∀ c note, note ∈ noteTimes st !!! c →
    (0 <= NoteTime.start note)%Q ∧
    (NoteTime.start note <= elapsedTime st)%Q ∧
    provisionalOrClosed c note.

(** The order in which [events] holds the events. *)
Definition byTicks (m : BasicMIDI.t) (a b : EventRef) : Prop :=
  ticksOf m a ≤ ticksOf m b.

(** Every open reference points to an interval whose length is still the
    provisional -1. *)
Definition openProvisional (st : State) : Prop :=
  ∀ c ref, ref ∈ unfinishedNotes st !!! c →
    ∃ note, (noteTimes st !!! c) !! ref = Some note ∧
            NoteTime.length note = (-1)%Q.

(** A note-on that no note-off follows, then a controller event one
    quarter note later; time division 480. *)
Definition doc_unclosed : BasicMIDI.t := BasicMIDI.mk 480
  [[event 0 144 [x3c; x64]; event 480 176 [x07; x64]]].

(** A note-on and its note-off on the same tick, channel 0. *)
Definition doc_zero : BasicMIDI.t := BasicMIDI.mk 480
  [[event 0 144 [x3c; x64]; event 0 128 [x3c; x00]]].


End ExtractorSpec.

(** ** Further notions about the extractor *)

Module ExtractorProps.
Import IndexedByteArray MidiMessage BasicMIDI Extractor ExtractorSpec.

(** The events for which the loop pushes an interval: status 9 with a
    second data byte that is not 0 (an absent byte included). *)
Definition isNoteOn (event : MidiMessage.t) : bool :=
  (Z.shiftr (messageStatusByte event) 4 =? 9) &&
  negb (bool_decide (byte_to_Z <$> IndexedByteArray.get (messageData event) 1
                     = Some 0)).

(** [event.messageData[1] / 127] *)
Definition velocityOf (event : MidiMessage.t) : option Q :=
  (λ v, inject_Z v / 127)%Q <$>
    (byte_to_Z <$> IndexedByteArray.get (messageData event) 1).

(** What an interval keeps of its note-on event. *)
Definition pitchAndVelocity (note : NoteTime.t) : option Z * option Q :=
  (NoteTime.midiNote note, NoteTime.velocity note).

(** The pitch and velocity of the event at [r] when it is a note-on of
    channel [c]. *)
Definition noteOnOf (m : BasicMIDI.t) (c : nat) (r : EventRef)
  : option (option Z * option Q) :=
  ev ← getEvent m r;
  if isNoteOn ev && bool_decide (channelOf ev = c)
  then Some (noteOf ev, velocityOf ev) else None.

(** The starts of a channel's intervals do not decrease along the list. *)
Definition ascending (notes : list NoteTime.t) : Prop :=
  ∀ i j a b, (i ≤ j)%nat → notes !! i = Some a → notes !! j = Some b →
             (NoteTime.start a <= NoteTime.start b)%Q.

(** [ref] is an interval of channel [c] that is not open any more. *)
Definition closedAt (st : State) (c : nat) (ref : nat) (note : NoteTime.t)
  : Prop :=
  (noteTimes st !!! c) !! ref = Some note ∧ ref ∉ unfinishedNotes st !!! c.


(** Two notes of the same pitch on channel 0, the second struck while the
    first still sounds; time division 480. *)
Definition doc_retrigger : BasicMIDI.t := BasicMIDI.mk 480
  [[event 0 144 [x3c; x64]; event 240 144 [x3c; x50];
    event 480 128 [x3c; x00]]].

End ExtractorProps.

(** ** The widget: [PlayerElement] and what it drives *)

Module Widget.

(** The object that [new MIDI(midiBuf, "unnamed")] returns, as far as the
    widget looks at it: its identity and its [duration]. *)
Record MIDI := mkMIDI {
  midiId : nat;
  duration : Q
}.

#[export] Instance Q_eq_dec : EqDecision Q.
Proof. solve_decision. Defined.
#[export] Instance MIDI_eq_dec : EqDecision MIDI.
Proof. solve_decision. Defined.

(** [new Synthetizer(targetNode, soundFontBuffer)]: a synthesizer is known
    here by the sound bank it was built from. *)
Record Synthetizer := mkSynthetizer {
  soundFontBuffer : option (list byte)
}.

(** Modelled from the spec: [Sequencer] belongs to spessasynth_lib and is
    only declared in this repository.  It is the transport of the audio
    backend: "[play()], [pause()], [currentTime] (get/set, seconds),
    [paused]/[isPlaying] (bool), [loadNewSongList(documents)] to swap
    content without reallocating the backend"; [pause()] "suspends the
    backend transport, preserving position", and setting [currentTime]
    "seeks the backend transport without changing play/pause state".
    With [autoPlay: false] a new sequencer is paused at 0. *)
Module Sequencer.
Record t := mk {
  paused : bool;
  currentTime : Q;
  songList : list (option MIDI);
  synth : option Synthetizer      (* the synthesizer it plays through *)
}.
Definition new (midis : list (option MIDI)) (synth : option Synthetizer) : t :=
  mk true 0 midis synth.
Definition play (s : t) : t := mk false (currentTime s) (songList s) (synth s).
Definition pause (s : t) : t := mk true (currentTime s) (songList s) (synth s).
Definition set_currentTime (newTime : Q) (s : t) : t :=
  mk (paused s) newTime (songList s) (synth s).
Definition loadNewSongList (midis : list (option MIDI)) (s : t) : t :=
  mk (paused s) (currentTime s) midis (synth s).
End Sequencer.

(** [class SpessaSynthPlayer] (spessasynth_player.ts), without
    [getNoteTimes].  [synth] is the synthesizer, known by the sound bank it
    was built from; [seq] and [synth] are [undefined] until set.  A method
    that reads a property of an undefined [seq] throws: [None]. *)
Module SpessaSynthPlayer.
Record t := mk {
  synth : option Synthetizer;
  seq : option Sequencer.t;
  soundfontBuffer : option (list byte);
  midi : option MIDI
}.

Definition new (soundfontBuffer : option (list byte)) : t :=
  mk None None soundfontBuffer None.

Definition set_seq (s : Sequencer.t) (p : t) : t :=
  mk (synth p) (Some s) (soundfontBuffer p) (midi p).

Definition get_currentTime (p : t) : option Q :=
  Sequencer.currentTime <$> seq p.

Definition set_currentTime (newTime : Q) (p : t) : option t :=
  (λ s, set_seq (Sequencer.set_currentTime newTime s) p) <$> seq p.

Definition isPlaying (p : t) : option bool :=
  (λ s, negb (Sequencer.paused s)) <$> seq p.

Definition loadMIDI (m : option MIDI) (p : t) : t :=
  let s := match seq p with
           | None => Sequencer.new [m] (synth p)
           | Some s => Sequencer.loadNewSongList [m] s
           end in
  mk (synth p) (Some s) (soundfontBuffer p) m.

Definition play (p : t) : option t :=
  (λ s, set_seq (Sequencer.play s) p) <$> seq p.

Definition pause (p : t) : option t :=
  (λ s, set_seq (Sequencer.pause s) p) <$> seq p.

(** [initPlayer()], the audio context taken to be available:
    [this.synth = new Synthetizer(context.destination, this.soundfontBuffer)]. *)
Definition initPlayer (p : t) : t :=
  mk (Some (mkSynthetizer (soundfontBuffer p))) (seq p) (soundfontBuffer p)
    (midi p).
End SpessaSynthPlayer.

Definition DEFAULT_SOUNDFONT : string :=
  "https://spessasus.github.io/SpessaSynth/GeneralUserGS.sf3".

(** The events the element dispatches, and the requests it sends. *)
Inductive Event :=
| LoadEvent
| StartEvent
| StopEvent (finished : bool)
| LoopEvent
| NoteEvent (midiNote : Z)
| FetchSrc (url : string)
| FetchSoundFont (url : string).

#[export] Instance Event_eq_dec : EqDecision Event.
Proof. solve_decision. Defined.

(** The fields of [PlayerElement], the attributes it reads, and the parts
    of its shadow DOM it writes.
    Modelled from the spec: [utils.formatTime] is not among the sources;
    a time label is represented by the number of seconds it shows. *)
Record PlayerElement := mkPlayerElement {
  player : option SpessaSynthPlayer.t;
  soundfontBin : option (list byte);
  ns : option MIDI;
  seeking : bool;
  domInitialized : bool;
  initTimeout : option nat;
  needInitNs : bool;
  _playing : bool;
  attr_src : option string;
  attr_soundFont : option string;
  attr_loop : option string;
  seekBar_value : Q;
  seekBar_max : Q;
  seekBar_disabled : bool;
  playButton_disabled : bool;
  currentTimeLabel : Q;
  totalTimeLabel : Q;
  classList : list string;
  title : option string
}.

Definition set_player v (e : PlayerElement) : PlayerElement :=
  mkPlayerElement v (soundfontBin e) (ns e) (seeking e) (domInitialized e)
    (initTimeout e) (needInitNs e) (_playing e) (attr_src e) (attr_soundFont e)
    (attr_loop e) (seekBar_value e) (seekBar_max e) (seekBar_disabled e)
    (playButton_disabled e) (currentTimeLabel e) (totalTimeLabel e)
    (classList e) (title e).
Definition set_soundfontBin v (e : PlayerElement) : PlayerElement :=
  mkPlayerElement (player e) v (ns e) (seeking e) (domInitialized e)
    (initTimeout e) (needInitNs e) (_playing e) (attr_src e) (attr_soundFont e)
    (attr_loop e) (seekBar_value e) (seekBar_max e) (seekBar_disabled e)
    (playButton_disabled e) (currentTimeLabel e) (totalTimeLabel e)
    (classList e) (title e).
Definition set_ns v (e : PlayerElement) : PlayerElement :=
  mkPlayerElement (player e) (soundfontBin e) v (seeking e) (domInitialized e)
    (initTimeout e) (needInitNs e) (_playing e) (attr_src e) (attr_soundFont e)
    (attr_loop e) (seekBar_value e) (seekBar_max e) (seekBar_disabled e)
    (playButton_disabled e) (currentTimeLabel e) (totalTimeLabel e)
    (classList e) (title e).
Definition set_seeking v (e : PlayerElement) : PlayerElement :=
  mkPlayerElement (player e) (soundfontBin e) (ns e) v (domInitialized e)
    (initTimeout e) (needInitNs e) (_playing e) (attr_src e) (attr_soundFont e)
    (attr_loop e) (seekBar_value e) (seekBar_max e) (seekBar_disabled e)
    (playButton_disabled e) (currentTimeLabel e) (totalTimeLabel e)
    (classList e) (title e).
Definition set_domInitialized v (e : PlayerElement) : PlayerElement :=
  mkPlayerElement (player e) (soundfontBin e) (ns e) (seeking e) v
    (initTimeout e) (needInitNs e) (_playing e) (attr_src e) (attr_soundFont e)
    (attr_loop e) (seekBar_value e) (seekBar_max e) (seekBar_disabled e)
    (playButton_disabled e) (currentTimeLabel e) (totalTimeLabel e)
    (classList e) (title e).
Definition set_initTimeout v (e : PlayerElement) : PlayerElement :=
  mkPlayerElement (player e) (soundfontBin e) (ns e) (seeking e)
    (domInitialized e) v (needInitNs e) (_playing e) (attr_src e)
    (attr_soundFont e) (attr_loop e) (seekBar_value e) (seekBar_max e)
    (seekBar_disabled e) (playButton_disabled e) (currentTimeLabel e)
    (totalTimeLabel e) (classList e) (title e).
Definition set_needInitNs v (e : PlayerElement) : PlayerElement :=
  mkPlayerElement (player e) (soundfontBin e) (ns e) (seeking e)
    (domInitialized e) (initTimeout e) v (_playing e) (attr_src e)
    (attr_soundFont e) (attr_loop e) (seekBar_value e) (seekBar_max e)
    (seekBar_disabled e) (playButton_disabled e) (currentTimeLabel e)
    (totalTimeLabel e) (classList e) (title e).
Definition set__playing v (e : PlayerElement) : PlayerElement :=
  mkPlayerElement (player e) (soundfontBin e) (ns e) (seeking e)
    (domInitialized e) (initTimeout e) (needInitNs e) v (attr_src e)
    (attr_soundFont e) (attr_loop e) (seekBar_value e) (seekBar_max e)
    (seekBar_disabled e) (playButton_disabled e) (currentTimeLabel e)
    (totalTimeLabel e) (classList e) (title e).
Definition set_attr_src v (e : PlayerElement) : PlayerElement :=
  mkPlayerElement (player e) (soundfontBin e) (ns e) (seeking e)
    (domInitialized e) (initTimeout e) (needInitNs e) (_playing e) v
    (attr_soundFont e) (attr_loop e) (seekBar_value e) (seekBar_max e)
    (seekBar_disabled e) (playButton_disabled e) (currentTimeLabel e)
    (totalTimeLabel e) (classList e) (title e).
Definition set_attr_soundFont v (e : PlayerElement) : PlayerElement :=
  mkPlayerElement (player e) (soundfontBin e) (ns e) (seeking e)
    (domInitialized e) (initTimeout e) (needInitNs e) (_playing e)
    (attr_src e) v (attr_loop e) (seekBar_value e) (seekBar_max e)
    (seekBar_disabled e) (playButton_disabled e) (currentTimeLabel e)
    (totalTimeLabel e) (classList e) (title e).
Definition set_attr_loop v (e : PlayerElement) : PlayerElement :=
  mkPlayerElement (player e) (soundfontBin e) (ns e) (seeking e)
    (domInitialized e) (initTimeout e) (needInitNs e) (_playing e)
    (attr_src e) (attr_soundFont e) v (seekBar_value e) (seekBar_max e)
    (seekBar_disabled e) (playButton_disabled e) (currentTimeLabel e)
    (totalTimeLabel e) (classList e) (title e).
Definition set_seekBar_value v (e : PlayerElement) : PlayerElement :=
  mkPlayerElement (player e) (soundfontBin e) (ns e) (seeking e)
    (domInitialized e) (initTimeout e) (needInitNs e) (_playing e)
    (attr_src e) (attr_soundFont e) (attr_loop e) v (seekBar_max e)
    (seekBar_disabled e) (playButton_disabled e) (currentTimeLabel e)
    (totalTimeLabel e) (classList e) (title e).
Definition set_seekBar_max v (e : PlayerElement) : PlayerElement :=
  mkPlayerElement (player e) (soundfontBin e) (ns e) (seeking e)
    (domInitialized e) (initTimeout e) (needInitNs e) (_playing e)
    (attr_src e) (attr_soundFont e) (attr_loop e) (seekBar_value e) v
    (seekBar_disabled e) (playButton_disabled e) (currentTimeLabel e)
    (totalTimeLabel e) (classList e) (title e).
Definition set_seekBar_disabled v (e : PlayerElement) : PlayerElement :=
  mkPlayerElement (player e) (soundfontBin e) (ns e) (seeking e)
    (domInitialized e) (initTimeout e) (needInitNs e) (_playing e)
    (attr_src e) (attr_soundFont e) (attr_loop e) (seekBar_value e)
    (seekBar_max e) v (playButton_disabled e) (currentTimeLabel e)
    (totalTimeLabel e) (classList e) (title e).
Definition set_playButton_disabled v (e : PlayerElement) : PlayerElement :=
  mkPlayerElement (player e) (soundfontBin e) (ns e) (seeking e)
    (domInitialized e) (initTimeout e) (needInitNs e) (_playing e)
    (attr_src e) (attr_soundFont e) (attr_loop e) (seekBar_value e)
    (seekBar_max e) (seekBar_disabled e) v (currentTimeLabel e)
    (totalTimeLabel e) (classList e) (title e).
Definition set_currentTimeLabel v (e : PlayerElement) : PlayerElement :=
  mkPlayerElement (player e) (soundfontBin e) (ns e) (seeking e)
    (domInitialized e) (initTimeout e) (needInitNs e) (_playing e)
    (attr_src e) (attr_soundFont e) (attr_loop e) (seekBar_value e)
    (seekBar_max e) (seekBar_disabled e) (playButton_disabled e) v
    (totalTimeLabel e) (classList e) (title e).
Definition set_totalTimeLabel v (e : PlayerElement) : PlayerElement :=
  mkPlayerElement (player e) (soundfontBin e) (ns e) (seeking e)
    (domInitialized e) (initTimeout e) (needInitNs e) (_playing e)
    (attr_src e) (attr_soundFont e) (attr_loop e) (seekBar_value e)
    (seekBar_max e) (seekBar_disabled e) (playButton_disabled e)
    (currentTimeLabel e) v (classList e) (title e).
Definition set_classList v (e : PlayerElement) : PlayerElement :=
  mkPlayerElement (player e) (soundfontBin e) (ns e) (seeking e)
    (domInitialized e) (initTimeout e) (needInitNs e) (_playing e)
    (attr_src e) (attr_soundFont e) (attr_loop e) (seekBar_value e)
    (seekBar_max e) (seekBar_disabled e) (playButton_disabled e)
    (currentTimeLabel e) (totalTimeLabel e) v (title e).
Definition set_title v (e : PlayerElement) : PlayerElement :=
  mkPlayerElement (player e) (soundfontBin e) (ns e) (seeking e)
    (domInitialized e) (initTimeout e) (needInitNs e) (_playing e)
    (attr_src e) (attr_soundFont e) (attr_loop e) (seekBar_value e)
    (seekBar_max e) (seekBar_disabled e) (playButton_disabled e)
    (currentTimeLabel e) (totalTimeLabel e) (classList e) v.

(** [classList.add] and [classList.remove] *)
Definition classList_add (names : list string) (e : PlayerElement)
  : PlayerElement :=
  set_classList
    (foldl (λ cl name, if decide (name ∈ cl) then cl else cl ++ [name])
       (classList e) names) e.
Definition classList_remove (names : list string) (e : PlayerElement)
  : PlayerElement :=
  set_classList (filter (λ name, name ∉ names) (classList e)) e.


(** A call of [initPlayerNow] that waits at an [await] of a [fetch]: the
    element, the local variables that are read afterwards, and the
    request (its place in the log, and its URL). *)
Inductive Pending :=
| AwaitSrc (this : nat) (request : nat) (url : string)
| AwaitSoundFont (this : nat) (ns0 : MIDI) (request : nat) (url : string).

(** ** The page: all the elements, the module variable [playingPlayer],
    what has been dispatched and requested (in order), the timers that
    are pending, the static [SpessaSynthPlayer.context], and the calls of
    [initPlayerNow] that wait for the network. *)
Record World := mkWorld {
  elements : nat → PlayerElement;
  playingPlayer : option nat;
  log : list (nat * Event);
  timers : list nat;
  context : bool;
  nextMidiId : nat;
  pending : list Pending
}.

(** What is outside the page: the network, whose answer to a request may
    depend on when it is made ([None]: [fetch] rejects), and the decoder
    [new MIDI(...)] ([None]: it throws), which gives the duration. *)
Record Env := mkEnv {
  fetch : nat → string → option (list byte);
  decode : list byte → option Q
}.

(** A computation on the page returns, or throws (the state it leaves
    is kept), or has used up the fuel that bounds the mutual recursion of
    [_start] and [handleStop]. *)
Inductive Outcome (A : Type) : Type :=
| Done (a : A) (w : World)
| Thrown (error : string) (w : World)
| OutOfFuel.
Arguments Done {A} a w.
Arguments Thrown {A} error w.
Arguments OutOfFuel {A}.

Definition M (A : Type) : Type := World → Outcome A.

#[export] Instance M_ret : MRet M := λ A a w, Done a w.
#[export] Instance M_bind : MBind M := λ A B k m w,
  match m w with
  | Done a w' => k a w'
  | Thrown error w' => Thrown error w'
  | OutOfFuel => OutOfFuel
  end.

Definition pass : M unit := mret tt.
Definition throw {A} (error : string) : M A := λ w, Thrown error w.
Definition outOfFuel {A} : M A := λ _, OutOfFuel.

(** [try { body } catch (error) { handler(error) }] *)
Definition try_catch {A} (body : M A) (handler : string → M A) : M A := λ w,
  match body w with
  | Thrown error w' => handler error w'
  | r => r
  end.

(** A call of an [async] function whose promise nobody awaits: an
    exception in it rejects the promise and goes no further. *)
Definition detached (body : M unit) : M unit := λ w,
  match body w with
  | Thrown _ w' => Done tt w'
  | r => r
  end.

Definition world : M World := λ w, Done w w.
Definition widget (this : nat) : M PlayerElement := λ w, Done (elements w this) w.
Definition modify (f : World → World) : M unit := λ w, Done tt (f w).

Definition alterElement (this : nat) (f : PlayerElement → PlayerElement)
  (w : World) : World :=
  mkWorld (alter f this (elements w)) (playingPlayer w) (log w) (timers w)
    (context w) (nextMidiId w) (pending w).
Definition putPlayingPlayer (p : option nat) (w : World) : World :=
  mkWorld (elements w) p (log w) (timers w) (context w) (nextMidiId w)
    (pending w).
Definition logEvent (this : nat) (ev : Event) (w : World) : World :=
  mkWorld (elements w) (playingPlayer w) (log w ++ [(this, ev)]) (timers w)
    (context w) (nextMidiId w) (pending w).
Definition putTimers (ts : list nat) (w : World) : World :=
  mkWorld (elements w) (playingPlayer w) (log w) ts (context w) (nextMidiId w)
    (pending w).
Definition putContext (c : bool) (w : World) : World :=
  mkWorld (elements w) (playingPlayer w) (log w) (timers w) c (nextMidiId w)
    (pending w).
Definition putNextMidiId (n : nat) (w : World) : World :=
  mkWorld (elements w) (playingPlayer w) (log w) (timers w) (context w) n
    (pending w).
Definition putPending (ps : list Pending) (w : World) : World :=
  mkWorld (elements w) (playingPlayer w) (log w) (timers w) (context w)
    (nextMidiId w) ps.

(** An assignment to a field of [this], or to a part of its DOM. *)
Definition update (this : nat) (f : PlayerElement → PlayerElement) : M unit :=
  modify (alterElement this f).

Definition set_playingPlayer (p : option nat) : M unit :=
  modify (putPlayingPlayer p).

(** [this.dispatchEvent(new CustomEvent(...))]; the listeners are outside
    the model. *)
Definition dispatchEvent (this : nat) (ev : Event) : M unit :=
  modify (logEvent this ev).

(** [window.setTimeout(callback)]: the callback of [this] is queued. *)
Definition setTimeout (this : nat) : M nat := λ w,
  Done (S (length (timers w))) (putTimers (timers w ++ [this]) w).

Definition TypeError : string := "TypeError".

(** A method of [this.player]; [this.player] undefined, or the method
    reading through an undefined [seq], throws. *)
Definition onPlayer (this : nat)
  (method : SpessaSynthPlayer.t → option SpessaSynthPlayer.t) : M unit :=
  el ← widget this;
  match player el ≫= method with
  | Some p => update this (set_player (Some p))
  | None => throw TypeError
  end.

Definition readPlayer {A} (this : nat) (getter : SpessaSynthPlayer.t → option A)
  : M A :=
  el ← widget this;
  match player el ≫= getter with
  | Some a => mret a
  | None => throw TypeError
  end.

(** [this.player && this.player.isPlaying] *)
Definition playerIsPlaying (this : nat) : M bool :=
  el ← widget this;
  match player el with
  | None => mret false
  | Some _ => readPlayer this SpessaSynthPlayer.isPlaying
  end.

(** The getters [loop], [currentTime] and [duration]. *)
Definition get_loop (el : PlayerElement) : bool :=
  bool_decide (attr_loop el ≠ None).
Definition get_currentTime (el : PlayerElement) : Q := seekBar_value el.
Definition get_duration (el : PlayerElement) : Q := seekBar_max el.

(** [set currentTime(value)] *)
Definition set_currentTime (this : nat) (value : Q) : M unit :=
  update this (set_seekBar_value value) ;;
  el ← widget this;
  update this (set_currentTimeLabel (get_currentTime el)) ;;
  playing ← playerIsPlaying this;
  if playing : bool
  then onPlayer this (SpessaSynthPlayer.set_currentTime value)
  else pass.

(** [handleStop(finished)], calling [this._start] through [_start]. *)
Definition handleStop_body (_start : nat → bool → M unit)
  (this : nat) (finished : bool) : M unit :=
  el ← widget this;
  if finished && get_loop el then
    set_currentTime this 0 ;;
    _start this true
  else
    (if finished
     then el ← widget this; set_currentTime this (get_duration el)
     else pass) ;;
    update this (classList_remove ["playing"]) ;;
    update this (classList_add ["stopped"]) ;;
    el ← widget this;
    if _playing el then
      update this (set__playing false) ;;
      dispatchEvent this (StopEvent finished)
    else pass.

(** [stop()] *)
Definition stop_body (handleStop : nat → bool → M unit) (this : nat) : M unit :=
  playing ← playerIsPlaying this;
  (if playing : bool then onPlayer this SpessaSynthPlayer.pause else pass) ;;
  handleStop this false.

(** [_start(looped)]: the body of the [async] function that it calls at
    once; there is no [await] in it. *)
Definition _start_body (stop : nat → M unit) (handleStop : nat → bool → M unit)
  (this : nat) (looped : bool) : M unit :=
  detached (
    el ← widget this;
    match player el with
    | None => pass
    | Some _ =>
        playing ← readPlayer this SpessaSynthPlayer.isPlaying;
        if negb playing then
          w ← world;
          match playingPlayer w with
          | Some other =>
              if _playing (elements w other)
                 && negb (bool_decide (other = this) && looped)
              then stop other
              else pass
          | None => pass
          end ;;
          set_playingPlayer (Some this) ;;
          update this (set__playing true) ;;
          set_currentTime this 0 ;;
          update this (classList_remove ["stopped"]) ;;
          update this (classList_add ["playing"]) ;;
          try_catch
            (onPlayer this SpessaSynthPlayer.play ;;
             (if negb looped
              then dispatchEvent this StartEvent
              else dispatchEvent this LoopEvent) ;;
             handleStop this true)
            (λ error, handleStop this false ;; throw error)
        else
          playing' ← readPlayer this SpessaSynthPlayer.isPlaying;
          if negb playing'
          then onPlayer this SpessaSynthPlayer.play
          else pass
    end).

(** The recursion of [_start] and [handleStop], bounded by [fuel]. *)
Fixpoint _start (fuel : nat) (this : nat) (looped : bool) : M unit :=
  match fuel with
  | O => outOfFuel
  | S n =>
      _start_body (stop_body (handleStop_body (_start n)))
        (handleStop_body (_start n)) this looped
  end.

Definition handleStop (fuel : nat) : nat → bool → M unit :=
  handleStop_body (_start fuel).

Definition stop (fuel : nat) : nat → M unit :=
  stop_body (handleStop fuel).

Definition start (fuel : nat) (this : nat) : M unit := _start fuel this false.


(** [setLoading()], [setLoaded()], [setError(error)] *)
Definition setLoading (e : PlayerElement) : PlayerElement :=
  set_title None
    (classList_add ["loading"; "frozen"]
       (classList_remove ["error"]
          (set_seekBar_disabled true (set_playButton_disabled true e)))).

Definition setLoaded (e : PlayerElement) : PlayerElement :=
  set_seekBar_disabled false
    (set_playButton_disabled false
       (classList_remove ["loading"; "frozen"] e)).

Definition setError (error : string) (e : PlayerElement) : PlayerElement :=
  set_title (Some error)
    (classList_add ["error"; "frozen"]
       (classList_remove ["loading"; "stopped"; "playing"]
          (set_seekBar_disabled true (set_playButton_disabled true e)))).

(** [await (await fetch(url)).arrayBuffer()], first half: the request is
    sent (and logged) and the call of [initPlayerNow] is suspended; what
    it does when the answer is there is [resume] below. *)
Definition await_fetch (this : nat) (request : string → Event) (url : string)
  (continuation : nat → string → Pending) : M unit :=
  w ← world;
  dispatchEvent this (request url) ;;
  modify (λ w', putPending (pending w' ++ [continuation (length (log w)) url]) w').

(** Second half: the answer of the network to that request. *)
Definition fetched (env : Env) (request : nat) (url : string) : M (list byte) :=
  match fetch env request url with
  | Some buf => mret buf
  | None => throw "TypeError: Failed to fetch"
  end.

(** [new MIDI(midiBuf, "unnamed")] *)
Definition newMIDI (env : Env) (midiBuf : list byte) : M MIDI := λ w,
  match decode env midiBuf with
  | Some d => Done (mkMIDI (nextMidiId w) d) (putNextMidiId (S (nextMidiId w)) w)
  | None => Thrown "Error: invalid MIDI" w
  end.

(** [await this.player.initPlayer()]: the audio context is created once
    for the page; creating it is taken to succeed, and no other task of
    the page to run before the call is resumed. *)
Definition player_initPlayer (this : nat) : M unit :=
  modify (putContext true) ;;
  onPlayer this (λ p, Some (SpessaSynthPlayer.initPlayer p)).

(** The [try { ... } catch (error) { this.setError(String(error)); throw
    error; }] of [initPlayerNow], around each stretch of it. *)
Definition catching (this : nat) (body : M unit) : M unit :=
  try_catch body (λ error, update this (setError error) ;; throw error).

(** [initPlayerNow], from [this.player = new SpessaSynthPlayer(...)] to
    its end; [ns0] is its local variable [ns]. *)
Definition initPlayerNow_player (this : nat) (ns0 : MIDI) : M unit :=
  el ← widget this;
  update this (set_player (Some (SpessaSynthPlayer.new (soundfontBin el)))) ;;
  player_initPlayer this ;;
  el ← widget this;
  onPlayer this (λ p, Some (SpessaSynthPlayer.loadMIDI (ns el) p)) ;;
  el ← widget this;
  if decide (ns el = Some ns0) then
    update this setLoaded ;;
    dispatchEvent this LoadEvent
  else pass.

(** [initPlayerNow], from [ns = this.ns] to the [fetch] of the sound
    font, or to its end when the buffer is there. *)
Definition initPlayerNow_ns (this : nat) : M unit :=
  el ← widget this;
  match ns el with
  | None =>
      update this (set_seekBar_max 0) ;;
      update this (set_totalTimeLabel 0)
  | Some ns0 =>
      update this (set_seekBar_max (duration ns0)) ;;
      update this (set_totalTimeLabel (duration ns0)) ;;
      el ← widget this;
      match attr_soundFont el with
      | None => pass
      | Some soundFont =>
          let soundFont :=
            if decide (soundFont = "") then DEFAULT_SOUNDFONT
            else soundFont in
          if soundfontBin el is None then
            await_fetch this FetchSoundFont soundFont (λ request url,
              AwaitSoundFont this ns0 request url)
          else initPlayerNow_player this ns0
      end
  end.

(** [initPlayerNow], the end of its [if (initNs)] block and what
    follows. *)
Definition initPlayerNow_content (this : nat) : M unit :=
  set_currentTime this 0 ;;
  el ← widget this;
  (if ns el is None
   then update this (setError "No content loaded")
   else pass) ;;
  initPlayerNow_ns this.

(** [initPlayerNow(initNs)], up to its first [await] of a [fetch].  It is
    [async] and no caller awaits it. *)
Definition initPlayerNow (this : nat) (initNs : bool) : M unit :=
  detached (
    update this (set_initTimeout None) ;;
    update this (set_needInitNs false) ;;
    el ← widget this;
    if negb (domInitialized el) then pass else
    catching this
      (if initNs then
         match attr_src el with
         | Some url =>
             if decide (url = "") then initPlayerNow_content this
             else await_fetch this FetchSrc url (λ request url,
                    AwaitSrc this request url)
         | None => initPlayerNow_content this
         end
       else initPlayerNow_ns this)).

(** A suspended call of [initPlayerNow] goes on with the answer to its
    request, up to its next [await] of a [fetch] or to its end. *)
Definition resume (env : Env) (p : Pending) : M unit :=
  match p with
  | AwaitSrc this request url =>
      detached (catching this (
        midiBuf ← fetched env request url;
        update this (set_ns None) ;;
        m ← newMIDI env midiBuf;
        update this (set_ns (Some m)) ;;
        initPlayerNow_content this))
  | AwaitSoundFont this ns0 request url =>
      detached (catching this (
        buf ← fetched env request url;
        update this (set_soundfontBin (Some buf)) ;;
        initPlayerNow_player this ns0))
  end.

(** The network answers the [k]-th of the requests that are waited for;
    the answers come in any order. *)
Definition fetchSettles (env : Env) (k : nat) : M unit :=
  w ← world;
  match pending w !! k with
  | Some p => modify (putPending (delete k (pending w))) ;; resume env p
  | None => pass
  end.

(** [initPlayer(initNs)]; its timer calls
    [this.initPlayerNow(this.needInitNs)] when it fires. *)
Definition initPlayer (fuel : nat) (this : nat) (initNs : bool) : M unit :=
  update this (λ e, set_needInitNs (needInitNs e || initNs) e) ;;
  el ← widget this;
  if initTimeout el is None then
    stop fuel this ;;
    update this setLoading ;;
    handle ← setTimeout this;
    update this (set_initTimeout (Some handle))
  else pass.

(** The oldest timer of the page fires, when it is one of [this] (the
    timers fire in the order in which they were set; [initPlayerNow]
    clears the field [initTimeout] and not the timer). *)
Definition timerFires (this : nat) : M unit := λ w,
  match timers w with
  | t :: rest =>
      if decide (t = this) then
        (el ← widget this; initPlayerNow this (needInitNs el))
          (putTimers rest w)
      else Done tt w
  | [] => Done tt w
  end.

(** The observed attributes that start a reload, and [loop]. *)
Inductive Attribute := src | soundFont | loop.

Definition getAttribute (name : Attribute) (e : PlayerElement) : option string :=
  match name with
  | src => attr_src e
  | soundFont => attr_soundFont e
  | loop => attr_loop e
  end.

Definition putAttribute (name : Attribute) (value : option string)
  (e : PlayerElement) : PlayerElement :=
  match name with
  | src => set_attr_src value e
  | soundFont => set_attr_soundFont value e
  | loop => set_attr_loop value e
  end.

(** [attributeChangedCallback(name, _oldValue, newValue)], for the
    attributes modelled; [loop] is not observed. *)
Definition attributeChangedCallback (fuel : nat) (this : nat) (name : Attribute)
  : M unit :=
  match name with
  | src | soundFont => initPlayer fuel this true
  | loop => pass
  end.

(** [setOrRemoveAttribute(name, value)]: [setAttribute] always reports a
    change, [removeAttribute] only when the attribute was there. *)
Definition setOrRemoveAttribute (fuel : nat) (this : nat) (name : Attribute)
  (value : option string) : M unit :=
  el ← widget this;
  match value with
  | None =>
      if getAttribute name el is None then pass
      else update this (putAttribute name None) ;;
           attributeChangedCallback fuel this name
  | Some _ =>
      update this (putAttribute name value) ;;
      attributeChangedCallback fuel this name
  end.

(** [set src(value)], [set soundFont(value)], [set loop(value)] *)
Definition set_src (fuel : nat) (this : nat) (value : option string) : M unit :=
  update this (set_ns None) ;;
  setOrRemoveAttribute fuel this src value ;;
  initPlayer fuel this true.

Definition set_soundFont (fuel : nat) (this : nat) (value : option string)
  : M unit :=
  setOrRemoveAttribute fuel this soundFont value.

Definition set_loop (fuel : nat) (this : nat) (value : bool) : M unit :=
  setOrRemoveAttribute fuel this loop (if value then Some "" else None).

(** [reload()] *)
Definition reload (this : nat) : M unit :=
  initPlayerNow this true.

(** [connectedCallback()]: the listeners it registers are the handlers
    below. *)
Definition connectedCallback (this : nat) : M unit :=
  el ← widget this;
  if domInitialized el then pass else
    update this (set_domInitialized true) ;;
    initPlayerNow this true.

(** The [click] listener of the play button. *)
Definition playButton_click (fuel : nat) (this : nat) : M unit :=
  playing ← readPlayer this SpessaSynthPlayer.isPlaying;
  if playing : bool then stop fuel this else start fuel this.

(** The [input] listener of the seek bar. *)
Definition seekBar_input (this : nat) : M unit :=
  update this (set_seeking true) ;;
  playing ← playerIsPlaying this;
  if playing : bool then onPlayer this SpessaSynthPlayer.pause else pass.

(** The [change] listener of the seek bar. *)
Definition seekBar_change (this : nat) : M unit :=
  el ← widget this;
  let time := get_currentTime el in
  update this (set_currentTimeLabel time) ;;
  el ← widget this;
  (if player el is Some _ then
     playing ← readPlayer this SpessaSynthPlayer.isPlaying;
     if playing : bool then
       onPlayer this (SpessaSynthPlayer.set_currentTime time) ;;
       playing' ← readPlayer this SpessaSynthPlayer.isPlaying;
       if negb playing' then onPlayer this SpessaSynthPlayer.play else pass
     else pass
   else pass) ;;
  update this (set_seeking false).

(** [noteCallback(note)] *)
Definition noteCallback (this : nat) (midiNote : Z) : M unit :=
  el ← widget this;
  if negb (_playing el) then pass else
    dispatchEvent this (NoteEvent midiNote) ;;
    el ← widget this;
    if seeking el then pass else
      t ← readPlayer this SpessaSynthPlayer.get_currentTime;
      update this (set_seekBar_value t) ;;
      t' ← readPlayer this SpessaSynthPlayer.get_currentTime;
      update this (set_currentTimeLabel t').

(** What happens on the page, one task at a time: calls of the
    element's methods and property setters by the host page, the user's
    actions on the controls, and the callbacks of the timer and of the
    backend. *)
Inductive Task :=
| Connect
| SetSrc (value : option string)
| SetSoundFont (value : option string)
| SetLoop (value : bool)
| Reload
| TimerFires
| CallStart
| CallStop
| ClickPlay
| Drag (value : Q)           (* the user moves the seek bar: [input] *)
| Release                    (* the user lets go of it: [change] *)
| SetCurrentTime (value : Q)
| NoteCallback (midiNote : Z)
| NaturalEnd                 (* [handleStop(true)] *)
| FetchSettles (k : nat).    (* the answer to a pending request arrives *)

Definition perform (env : Env) (fuel : nat) (this : nat) (t : Task) : M unit :=
  match t with
  | Connect => connectedCallback this
  | SetSrc v => set_src fuel this v
  | SetSoundFont v => set_soundFont fuel this v
  | SetLoop v => set_loop fuel this v
  | Reload => reload this
  | TimerFires => timerFires this
  | CallStart => start fuel this
  | CallStop => stop fuel this
  | ClickPlay => playButton_click fuel this
  | Drag v => update this (set_seekBar_value v) ;; seekBar_input this
  | Release => seekBar_change this
  | SetCurrentTime v => set_currentTime this v
  | NoteCallback n => noteCallback this n
  | NaturalEnd => handleStop fuel this true
  | FetchSettles k => fetchSettles env k
  end.

(** A task that throws leaves the page as it was at the throw (the
    exception is reported and the event loop goes on); [None] when the
    fuel did not suffice. *)
Fixpoint performAll (env : Env) (fuel : nat) (tasks : list (nat * Task))
  (w : World) : option World :=
  match tasks with
  | [] => Some w
  | (this, t) :: rest =>
      match perform env fuel this t w with
      | Done _ w' | Thrown _ w' => performAll env fuel rest w'
      | OutOfFuel => None
      end
  end.

(** A new element, before it is connected: the state its constructor and
    field initialisers leave. *)
Definition newElement : PlayerElement :=
  mkPlayerElement None None None false false None false false None None None
    0 0 false false 0 0 [] None.

Definition newPage : World :=
  mkWorld (λ _, newElement) None [] [] false 0 [].

End Widget.

(** ** The widget: further members of [PlayerElement] *)

Module WidgetAccessors.
Import Widget.

(** [get playing()], [get noteSequence()] *)
Definition get_playing (el : PlayerElement) : bool := _playing el.
Definition get_noteSequence (el : PlayerElement) : option MIDI := ns el.

(** [set noteSequence(value)]; [this.removeAttribute('src')] reports a
    change only when the attribute was there. *)
Definition set_noteSequence (fuel : nat) (this : nat) (value : option MIDI)
  : M unit :=
  el ← widget this;
  if decide (ns el = value) then pass else
    update this (set_ns value) ;;
    setOrRemoveAttribute fuel this src None ;;
    initPlayer fuel this true.
End WidgetAccessors.

(** ** What the claims about the widget speak of *)

Module WidgetSpec.
Import Widget.

(** The sequencer of the element's backend, when it has one: [this.player]
    is set and its [seq] exists (a document is loaded). *)
Definition backend (el : PlayerElement) : option Sequencer.t :=
  player el ≫= SpessaSynthPlayer.seq.

(** The events that [this] has dispatched, in order. *)
Definition dispatchedBy (this : nat) (lg : list (nat * Event)) : list Event :=
  omap (λ entry, if decide (entry.1 = this) then Some entry.2 else None) lg.

(** A small page for examples: elements 0 and 1 have [src] and
    [sound-font] set, element 1 has [loop], element 0 has it where said;
    the network answers every request and the decoder gives a duration of
    100 s. *)
Definition env0 : Env := mkEnv (λ _ _, Some [x00]) (λ _, Some 100%Q).

Definition withAttributes (lp : bool) (e : PlayerElement) : PlayerElement :=
  set_attr_loop (if lp then Some "" else None)
    (set_attr_soundFont (Some "") (set_attr_src (Some "song.mid") e)).

Definition page0 (lp : bool) : World :=
  alterElement 0 (withAttributes lp) (alterElement 1 (withAttributes true) newPage).

(** The element is connected, and the network answers its two requests
    (the document, then the sound font) before anything else happens. *)
Definition loaded (this : nat) : list (nat * Task) :=
  [(this, Connect); (this, FetchSettles 0); (this, FetchSettles 0)].

(** What the examples look at of an element: whether its sequencer is
    paused and where it stands, the seek bar's value, and the flags
    [_playing] and [seeking]. *)
Definition view (this : nat) (w : World) : option bool * option Q * Q * bool * bool :=
  let el := elements w this in
  (Sequencer.paused <$> backend el, Sequencer.currentTime <$> backend el,
   seekBar_value el, _playing el, seeking el).

(** Element 0, with [loop], after it was connected and started. *)
Definition page_playing : World :=
  default newPage
    (performAll env0 2 (loaded 0 ++ [(0%nat, CallStart)]) (page0 true)).

(** The same page when the sequencer of element 0 has come to the end of
    the document and stopped there. *)
Definition seq_ended : Sequencer.t :=
  Sequencer.mk true 100 [Some (mkMIDI 0 100)] (Some (mkSynthetizer (Some [x00]))).

Definition page_ended : World :=
  alterElement 0
    (λ el, set_player
             (SpessaSynthPlayer.set_seq seq_ended <$> player el) el)
    page_playing.


Definition seq_loaded (id : nat) : Sequencer.t :=
  Sequencer.mk true 0 [Some (mkMIDI id 100)] (Some (mkSynthetizer (Some [x00]))).

Definition seq_playing : Sequencer.t :=
  Sequencer.mk false 0 [Some (mkMIDI 0 100)] (Some (mkSynthetizer (Some [x00]))).


(** The audio bank in use: the sound-font buffer of the synthesizer of
    the element's player. *)
Definition bank (el : PlayerElement) : option (list byte) :=
  p ← player el; synth ← SpessaSynthPlayer.synth p; soundFontBuffer synth.

(** The sound fonts that [this] has requested, in order. *)
Definition soundFontFetches (this : nat) (lg : list (nat * Event)) : list string :=
  omap (λ ev, if ev is FetchSoundFont url then Some url else None)
    (dispatchedBy this lg).

(** No call of [initPlayerNow] of [this] waits for a sound font. *)
Definition noSoundFontPending (this : nat) (w : World) : Prop :=
  ∀ ns0 request url, AwaitSoundFont this ns0 request url ∉ pending w.

(** The buffer [b] is cached by [this] and no call of its
    [initPlayerNow] waits for a sound font; the sound fonts it has
    requested are [fetches], and the bank in use is [bank0], or [b]. *)
Definition cached (this : nat) (b : list byte) (fetches : list string)
  (bank0 : option (list byte)) (w : World) : Prop :=
  soundfontBin (elements w this) = Some b ∧
  noSoundFontPending this w ∧
  soundFontFetches this (log w) = fetches ∧
  (bank (elements w this) = bank0 ∨ bank (elements w this) = Some b).

(** [m] keeps [P]: from a page where [P] holds it leaves a page where
    [P] holds, whether it returns or throws. *)
Definition keeps {A} (P : World → Prop) (m : M A) : Prop :=
  ∀ w, P w →
    match m w with
    | Done _ w' | Thrown _ w' => P w'
    | OutOfFuel => True
    end.

(** [m] comes to an end, returning or throwing: the fuel suffices. *)
Definition ends {A} (m : M A) : Prop := ∀ w, m w ≠ OutOfFuel.

(** A network that answers every request with the bytes of its URL. *)
Definition env_url : Env :=
  mkEnv (λ _ url, Some (String.list_byte_of_string url)) (λ _, Some 100%Q).

(** What the page does with element 0, a new element: it sets [src] and
    [soundFont] (to [a.sf2]) and connects the element, and the timer of
    [initPlayer] fires; the document arrives, and [a.sf2] is requested.
    While that request is waited for, the page sets [soundFont] to
    [b.sf2], the timer of [initPlayer] fires, and the document of this
    second load arrives. *)
Definition second_load_starts : list (nat * Task) :=
  [(0%nat, SetSrc (Some "song.mid")); (0%nat, SetSoundFont (Some "a.sf2"));
   (0%nat, Connect); (0%nat, TimerFires);
   (0%nat, FetchSettles 0);
   (0%nat, SetSoundFont (Some "b.sf2")); (0%nat, TimerFires);
   (0%nat, FetchSettles 1)].

(** After [tasks] on a new page: the sound fonts that element 0 has
    requested, the buffer it has cached, and the bank in use. *)
Definition soundFontAfter (tasks : list (nat * Task))
  : option (list string * option (list byte) * option (list byte)) :=
  (λ w, (soundFontFetches 0 (log w), soundfontBin (elements w 0%nat),
         bank (elements w 0%nat)))
    <$> performAll env_url 2 tasks newPage.
End WidgetSpec.

(** ** Further notions about the widget *)

Module WidgetScenes.
Import Widget WidgetSpec.

(** Element 0, without [loop], connected and loaded. *)
Definition page_loaded : World :=
  default newPage (performAll env0 2 (loaded 0) (page0 false)).



(** Element 0 with [src] alone, connected: its request for the document
    is waited for. *)
Definition page_src_requested : World :=
  default newPage
    (performAll env0 2 [(0%nat, Connect)]
       (alterElement 0 (set_attr_src (Some "song.mid")) newPage)).

(** A network that answers no request. *)
Definition env_offline : Env := mkEnv (λ _ _, None) (λ _, Some 100%Q).


(** Only the element that [playingPlayer] names may be playing. *)
Definition exclusive (w : World) : Prop :=
  ∀ e, _playing (elements w e) = true → playingPlayer w = Some e.
End WidgetScenes.

(** ** The widget: its visualizers *)

(** [addVisualizer], [removeVisualizer] and [setVisualizerSelector] use
    two things of the element only: its list of event listeners and the
    map [visualizerListeners].  A callback is a function object: the
    three closures that a call of [addVisualizer] creates are new
    objects, known here by the number of the [listeners] object that
    holds them and by their property name; the page may have listeners of
    its own on the element.
    The event listener list follows the DOM: [addEventListener] appends
    unless the same type and callback are there, [removeEventListener]
    removes them if they are.  A [Map] keeps its keys in the order of
    their first insertion. *)
Module Visualizers.
Inductive EventName := onStart | onStop | onNote.

#[export] Instance EventName_eq_dec : EqDecision EventName.
Proof. solve_decision. Defined.

(** [const VISUALIZER_EVENTS = ['start', 'stop', 'note'] as const;] *)
Definition VISUALIZER_EVENTS : list EventName := [onStart; onStop; onNote].

Inductive Callback :=
| OfVisualizer (listeners : nat) (name : EventName)
| Foreign (id : nat).

#[export] Instance Callback_eq_dec : EqDecision Callback.
Proof. solve_decision. Defined.

Record t := mk {
  eventListeners : list (EventName * Callback);
  visualizerListeners : list (nat * nat);    (* visualizer ↦ its [listeners] *)
  objects : nat                              (* [listeners] objects created so far *)
}.

Definition set_eventListeners (l : list (EventName * Callback)) (st : t) : t :=
  mk l (visualizerListeners st) (objects st).

(** [this.addEventListener(name, callback)] *)
Definition addEventListener (name : EventName) (callback : Callback) (st : t) : t :=
  if decide ((name, callback) ∈ eventListeners st) then st
  else set_eventListeners (eventListeners st ++ [(name, callback)]) st.

(** [this.removeEventListener(name, callback)] *)
Definition removeEventListener (name : EventName) (callback : Callback) (st : t)
  : t :=
  match list_find (λ l, l = (name, callback)) (eventListeners st) with
  | Some (i, _) => set_eventListeners (delete i (eventListeners st)) st
  | None => st
  end.

(** [Map.prototype.get], [set] and [delete] *)
Definition map_get (key : nat) (m : list (nat * nat)) : option nat :=
  (λ r, r.2.2) <$> list_find (λ kv, kv.1 = key) m.

Definition map_set (key value : nat) (m : list (nat * nat)) : list (nat * nat) :=
  match list_find (λ kv, kv.1 = key) m with
  | Some (i, _) => <[i := (key, value)]> m
  | None => m ++ [(key, value)]
  end.

Definition map_delete (key : nat) (m : list (nat * nat)) : list (nat * nat) :=
  match list_find (λ kv, kv.1 = key) m with
  | Some (i, _) => delete i m
  | None => m
  end.

(** [addVisualizer(visualizer)] *)
Definition addVisualizer (visualizer : nat) (st : t) : t :=
  let listeners := objects st in
  let st' :=
    foldl (λ st name, addEventListener name (OfVisualizer listeners name) st)
      st VISUALIZER_EVENTS in
  mk (eventListeners st')
    (map_set visualizer listeners (visualizerListeners st'))
    (S listeners).

(** [removeVisualizer(visualizer)]; [None]: the [TypeError] of
    [listeners[name]] when the map has no entry for the visualizer. *)
Definition removeVisualizer (visualizer : nat) (st : t) : option t :=
  match map_get visualizer (visualizerListeners st) with
  | None => None
  | Some listeners =>
      let st' :=
        foldl (λ st name, removeEventListener name (OfVisualizer listeners name) st)
          st VISUALIZER_EVENTS in
      Some (mk (eventListeners st')
              (map_delete visualizer (visualizerListeners st'))
              (objects st'))
  end.

(** [setVisualizerSelector(selector)], for a selector that
    [document.querySelectorAll] accepts: the elements it matches are only
    looked at (the call of [addVisualizer] is commented out in the
    source). *)
Definition setVisualizerSelector (st : t) : t :=
  let st' :=
    foldl (λ st listeners,
             foldl (λ st name,
                      removeEventListener name (OfVisualizer listeners name) st)
               st VISUALIZER_EVENTS)
      st (visualizerListeners st).*2 in
  mk (eventListeners st') [] (objects st').

(** The callbacks that an event of type [name] calls, in order. *)
Definition dispatch (name : EventName) (st : t) : list Callback :=
  (λ l, l.2) <$> filter (λ l, l.1 = name) (eventListeners st).

(** A new element. *)
Definition new : t := mk [] [] 0.
End Visualizers.

(** ** Notions about the visualizers *)

Module VisualizersSpec.
Import Visualizers.

(** Every [listeners] object that is a value of the map or holds a
    callback of the list has been created, no visualizer has two
    entries, and no listener is twice in the list. *)
Definition wf (st : t) : Prop :=
  (∀ name l name', (name, OfVisualizer l name') ∈ eventListeners st →
                   (l < objects st)%nat) ∧
  (∀ v l, (v, l) ∈ visualizerListeners st → (l < objects st)%nat) ∧
  NoDup (visualizerListeners st).*1 ∧
  NoDup (eventListeners st).

Definition bound (visualizer : nat) (st : t) : Prop :=
  visualizer ∈ (visualizerListeners st).*1.

(** The three listeners that [addVisualizer] installs for the object
    [listeners]. *)
Definition listenersOf (listeners : nat) : list (EventName * Callback) :=
  (λ name, (name, OfVisualizer listeners name)) <$> VISUALIZER_EVENTS.

(** A listener that belongs to a [listeners] object of the map. *)
Definition ofBound (st : t) (l : EventName * Callback) : Prop :=
  ∃ listeners, listeners ∈ (visualizerListeners st).*2 ∧ l ∈ listenersOf listeners.

(** The listeners of all the [listeners] objects of the map. *)
Definition boundListeners (st : t) : list (EventName * Callback) :=
  (visualizerListeners st).*2 ≫= listenersOf.

(** A state with a listener of the page and one bound visualizer. *)
Definition st_example : t := addVisualizer 5 (mk [(onStop, Foreign 0)] [] 0).
End VisualizersSpec.

(** * Facts *)

Lemma Qltb_true x y : Qltb x y = true ↔ (x < y)%Q.
Proof.
  unfold Qltb. rewrite negb_true_iff. split.
  - intros H. apply Qnot_le_lt. intros Hle.
    apply Qle_bool_iff in Hle. congruence.
  - intros H. destruct (Qle_bool y x) eqn:E; [|done].
    apply Qle_bool_iff in E. exfalso. exact (Qlt_not_le _ _ H E).
Qed.


(** ** The extractor *)

Module ExtractorFacts.
Import IndexedByteArray MidiMessage BasicMIDI Extractor ExtractorSpec.

Lemma pitchAt_alter_close elapsed c r notes ref :
  pitchAt (alter (closeNote elapsed c) r notes) ref = pitchAt notes ref.
Proof.
  unfold pitchAt. destruct (decide (r = ref)) as [->|Hne].
  - rewrite list_lookup_alter_eq. by destruct (notes !! ref).
  - by rewrite list_lookup_alter_ne.
Qed.

Lemma channel_ok_close elapsed c r i notes open :
  channel_ok notes open →
  channel_ok (alter (closeNote elapsed c) r notes) (delete i open).
Proof.
  intros [Hv Hnd]. split.
  - rewrite length_alter. eapply Forall_forall. intros x Hx.
    apply list_elem_of_delete_inv in Hx.
    by eapply Forall_forall in Hv.
  - erewrite list_fmap_ext; [|intros ???; apply pitchAt_alter_close].
    eapply sublist_NoDup; [exact Hnd|].
    apply fmap_sublist, sublist_delete.
Qed.

(** After [noteOff] no open reference of the channel has the pitch. *)
Lemma find_delete_none notes open p i r :
  NoDup (pitchAt notes <$> open) →
  list_find (hasMidiNote notes p) open = Some (i, r) →
  ∀ x, x ∈ delete i open → pitchAt notes x ≠ Some p.
Proof.
  intros Hnd Hf x Hx Hp.
  apply list_find_Some in Hf as (Hi & Hr & _).
  apply list_elem_of_lookup in Hx as [j Hj].
  rewrite list_lookup_delete in Hj.
  rewrite NoDup_alt in Hnd.
  unfold hasMidiNote in Hr. fold (pitchAt notes r) in Hr.
  case_decide.
  - assert (j = i); [|lia].
    apply (Hnd j i (Some p)); rewrite list_lookup_fmap.
    + rewrite Hj; simpl; by rewrite Hp.
    + rewrite Hi; simpl; by rewrite Hr.
  - assert (S j = i); [|lia].
    apply (Hnd (S j) i (Some p)); rewrite list_lookup_fmap.
    + rewrite Hj; simpl; by rewrite Hp.
    + rewrite Hi; simpl; by rewrite Hr.
Qed.


Lemma channel_ok_push notes open note :
  channel_ok notes open →
  (∀ x, x ∈ open → pitchAt notes x ≠ Some (NoteTime.midiNote note)) →
  channel_ok (notes ++ [note]) (open ++ [length notes]).
Proof.
  intros [Hv Hnd] Hfresh.
  assert (Hold : ∀ x, x ∈ open → pitchAt (notes ++ [note]) x = pitchAt notes x).
  { intros x Hx. unfold pitchAt. rewrite lookup_app_l; [done|].
    by eapply Forall_forall in Hv. }
  split.
  - rewrite length_app. simpl. apply Forall_app. split.
    + eapply Forall_impl; [exact Hv|]. simpl. lia.
    + apply Forall_singleton. lia.
  - rewrite fmap_app. apply NoDup_app. split; [|split].
    + erewrite list_fmap_ext; [exact Hnd|]. intros j x Hx. apply Hold.
      by eapply list_elem_of_lookup_2.
    + intros y Hy Hy'. simpl in Hy'. apply list_elem_of_singleton in Hy'.
      apply list_elem_of_fmap in Hy as (x & -> & Hx).
      rewrite Hold in Hy'; [|done].
      apply (Hfresh x Hx). rewrite Hy'. unfold pitchAt.
      by rewrite list_lookup_middle.
    + simpl. apply NoDup_singleton.
Qed.

Lemma channel_lt_16 sb : (Z.to_nat (Z.land sb 15) < 16)%nat.
Proof.
  change 15 with (Z.ones 4). rewrite Z.land_ones by lia.
  pose proof (Z.mod_pos_bound sb (2 ^ 4)). lia.
Qed.

Definition resolved (st : State) (p : option Z) (c : nat) : option (nat * nat) :=
  list_find (hasMidiNote (noteTimes st !!! c) p) (unfinishedNotes st !!! c).

Lemma noteOff_fields p c st :
  midi (noteOff p c st) = midi st ∧
  elapsedTime (noteOff p c st) = elapsedTime st ∧
  oneTickToSeconds (noteOff p c st) = oneTickToSeconds st ∧
  unfinished (noteOff p c st) = unfinished st - 1.
Proof.
  unfold noteOff.
  destruct (list_find _ _) as [[i ref]|]; done.
Qed.

Lemma noteOff_noteTimes p c st :
  noteTimes (noteOff p c st) =
    match resolved st p c with
    | Some (_, ref) =>
        <[c := alter (closeNote (elapsedTime st) c) ref (noteTimes st !!! c)]>
          (noteTimes st)
    | None => noteTimes st
    end.
Proof.
  unfold noteOff, resolved.
  destruct (list_find _ _) as [[i ref]|]; done.
Qed.

Lemma noteOff_unfinishedNotes p c st :
  unfinishedNotes (noteOff p c st) =
    match resolved st p c with
    | Some (i, _) => <[c := delete i (unfinishedNotes st !!! c)]> (unfinishedNotes st)
    | None => unfinishedNotes st
    end.
Proof.
  unfold noteOff, resolved.
  destruct (list_find _ _) as [[i ref]|]; done.
Qed.

Lemma lookup_total_insert_16 {A} `{!Inhabited A} (l : list A) c c' x :
  (c < length l)%nat →
  <[c := x]> l !!! c' = if decide (c = c') then x else l !!! c'.
Proof.
  intros Hc. case_decide as E.
  - subst. by apply list_lookup_total_insert_eq.
  - by apply list_lookup_total_insert_ne.
Qed.

Lemma wf_noteOff p c st : wf st → wf (noteOff p c st).
Proof.
  intros (Hn & Hu & Hc).
  unfold wf. rewrite noteOff_noteTimes, noteOff_unfinishedNotes.
  destruct (resolved st p c) as [[i ref]|] eqn:Hres; [|done].
  rewrite !length_insert. split; [done|]. split; [done|].
  intros c'. destruct (decide (c < 16)%nat) as [Hlt|Hge].
  - rewrite !lookup_total_insert_16; [|lia..].
    case_decide; [|done]. by apply channel_ok_close.
  - rewrite !list_insert_ge; [done|lia..].
Qed.

Lemma noteOff_fresh p c st x :
  wf st → (c < 16)%nat →
  x ∈ unfinishedNotes (noteOff p c st) !!! c →
  pitchAt (noteTimes (noteOff p c st) !!! c) x ≠ Some p.
Proof.
  intros (Hn & Hu & Hc) Hlt.
  rewrite noteOff_noteTimes, noteOff_unfinishedNotes.
  destruct (resolved st p c) as [[i ref]|] eqn:Hres.
  - rewrite !lookup_total_insert_16; [|lia..].
    rewrite !decide_True; [|done..].
    rewrite pitchAt_alter_close. intros Hx.
    eapply find_delete_none; [apply Hc|exact Hres|exact Hx].
  - intros Hx Hp. apply list_find_None in Hres.
    rewrite Forall_forall in Hres. by apply (Hres x Hx).
Qed.

Lemma wf_noteOn p v c st :
  wf st → (c < 16)%nat →
  (∀ x, x ∈ unfinishedNotes st !!! c → pitchAt (noteTimes st !!! c) x ≠ Some p) →
  wf (noteOn p v c st).
Proof.
  intros (Hn & Hu & Hc) Hlt Hfresh. unfold wf, noteOn. simpl.
  rewrite !length_insert. split; [done|]. split; [done|].
  intros c'. rewrite !lookup_total_insert_16; [|lia..].
  case_decide; [|done]. by apply channel_ok_push.
Qed.


Lemma wf_handleEvent r st : wf st → wf (handleEvent r st).
Proof.
  intros Hwf. unfold handleEvent.
  destruct (getEvent (midi st) r) as [event|]; [|done].
  pose proof (channel_lt_16 (messageStatusByte event)) as Hlt.
  repeat case_match; try done.
  - by apply wf_noteOff.
  - by apply wf_noteOff.
  - apply wf_noteOn; [by apply wf_noteOff|done|].
    intros x. by apply noteOff_fresh.
Qed.

Lemma wf_init m : wf (init m).
Proof.
  split; [done|]. split; [done|]. intros c.
  do 16 (destruct c as [|c]; [split; constructor|]). split; constructor.
Qed.

Lemma wf_step x y st : wf st → wf (step x y st).
Proof. intros H. apply (wf_handleEvent x) in H. exact H. Qed.

Lemma wf_arrive pre e st : wf st → wf (arrive pre e st).
Proof.
  revert st. induction pre as [|x pre IH]; intros st Hwf; [done|].
  simpl. destruct pre as [|y pre'].
  - by apply wf_step.
  - apply IH. by apply wf_step.
Qed.

Lemma loop_arrive pre e post st :
  loop (pre ++ e :: post) st = loop (e :: post) (arrive pre e st).
Proof.
  revert st. induction pre as [|x pre IH]; intros st; [done|].
  destruct pre as [|y pre'].
  - done.
  - change (loop ((x :: y :: pre') ++ e :: post) st)
      with (loop ((y :: pre') ++ e :: post) (step x y st)).
    by rewrite IH.
Qed.

Lemma openAt_unique st c p ref ref' :
  wf st → openAt st c p ref → openAt st c p ref' → ref = ref'.
Proof.
  intros (_ & _ & Hc) [Hin Hp] [Hin' Hp'].
  destruct (Hc c) as [_ Hnd].
  apply list_elem_of_lookup in Hin as [i Hi].
  apply list_elem_of_lookup in Hin' as [j Hj].
  assert (i = j) as ->; [|congruence].
  rewrite NoDup_alt in Hnd. apply (Hnd i j (Some p)).
  - rewrite list_lookup_fmap, Hi. simpl. f_equal. exact Hp.
  - rewrite list_lookup_fmap, Hj. simpl. f_equal. exact Hp'.
Qed.



Lemma getEvent_setEvent_eq m r ev ev' :
  getEvent m r = Some ev → getEvent (setEvent r ev' m) r = Some ev'.
Proof.
  unfold getEvent, setEvent. destruct r as [i j]. simpl.
  rewrite list_lookup_alter_eq.
  destruct (tracks m !! i) as [tr|]; [|done]. simpl.
  intros H. apply list_lookup_insert_eq. by eapply lookup_lt_Some.
Qed.

Lemma getEvent_setEvent_ne m r r' ev' :
  r ≠ r' → getEvent (setEvent r ev' m) r' = getEvent m r'.
Proof.
  unfold getEvent, setEvent. destruct r as [i j], r' as [i' j']. simpl.
  intros Hne. destruct (decide (i = i')) as [->|Hi].
  - rewrite list_lookup_alter_eq.
    destruct (tracks m !! i') as [tr|]; [|done]. simpl.
    apply list_lookup_insert_ne. congruence.
  - by rewrite list_lookup_alter_ne.
Qed.

Lemma setEvent_same m r ev : getEvent m r = Some ev → setEvent r ev m = m.
Proof.
  unfold getEvent, setEvent. destruct r as [i j], m as [td ts]. simpl.
  intros H. unfold set_tracks. simpl. f_equal.
  apply list_eq. intros i'. destruct (decide (i = i')) as [->|Hi].
  - rewrite list_lookup_alter_eq.
    destruct (ts !! i') as [tr|]; [|done]. simpl in *.
    by rewrite list_insert_id.
  - by rewrite list_lookup_alter_ne.
Qed.

Lemma getTempo_eq r ev m :
  getTempo r ev m = (tempoOf ev, setEvent r (touch ev) m) ∨
  messageStatusByte ev ≠ 81.
Proof.
  destruct (decide (messageStatusByte ev = 81)) as [E|]; [left|by right].
  unfold getTempo, tempoOf, tempoValue, touch. rewrite E. reflexivity.
Qed.

Lemma midi_handleEvent r st :
  midi (handleEvent r st) =
    match getEvent (midi st) r with
    | Some ev => setEvent r (touch ev) (midi st)
    | None => midi st
    end.
Proof.
  unfold handleEvent. destruct (getEvent (midi st) r) as [ev|] eqn:He; [|done].
  assert (Hmidi : ∀ p c s, midi (noteOff p c s) = midi s)
    by (intros; apply noteOff_fields).
  unfold touch.
  destruct (_ =? 8) eqn:E8.
  { rewrite Hmidi. assert (messageStatusByte ev ≠ 81).
    { intros E. rewrite E in E8. done. }
    rewrite (proj2 (Z.eqb_neq _ _)) by done. by rewrite setEvent_same. }
  destruct (_ =? 9) eqn:E9.
  { assert (messageStatusByte ev ≠ 81).
    { intros E. rewrite E in E9. done. }
    rewrite (proj2 (Z.eqb_neq _ _)) by done. rewrite setEvent_same by done.
    case_decide; [apply Hmidi|]. unfold noteOn. simpl. apply Hmidi. }
  destruct (messageStatusByte ev =? 81) eqn:E; [|by rewrite setEvent_same].
  apply Z.eqb_eq in E.
  destruct (getTempo_eq r ev (midi st)) as [->|]; [|done].
  simpl. unfold touch. by rewrite E.
Qed.

Lemma handleEvent_tempo r st ev :
  getEvent (midi st) r = Some ev → messageStatusByte ev = 81 →
  handleEvent r st =
    set_oneTickToSeconds
      (60 / (tempoOf ev * inject_Z (timeDivision (midi st))))%Q
      (set_midi (setEvent r (touch ev) (midi st)) st).
Proof.
  intros He E. unfold handleEvent. rewrite He, E.
  change (Z.shiftr 81 4 =? 8) with false.
  change (Z.shiftr 81 4 =? 9) with false.
  change (81 =? 81) with true. cbv iota.
  destruct (getTempo_eq r ev (midi st)) as [->|]; done.
Qed.

Lemma elem_of_flat ts i j :
  (i, j) ∈ flat ts ↔ is_Some (ts !! i ≫= (.!! j)).
Proof.
  unfold flat. rewrite list_elem_of_join. split.
  - intros (l & Hl & (i' & tr & -> & Htr)%elem_of_lookup_imap).
    apply elem_of_lookup_imap in Hl as (j' & ev & [= -> ->] & Hev).
    rewrite Htr. simpl. by rewrite Hev.
  - intros [ev Hev]. destruct (ts !! i) as [tr|] eqn:Htr; [|done].
    simpl in Hev. exists (imap (λ j _, (i, j)) tr). split.
    + apply elem_of_lookup_imap. by exists j, ev.
    + apply elem_of_lookup_imap. by exists i, tr.
Qed.

Lemma sort_insert_perm key x l : sort_insert key x l ≡ₚ x :: l.
Proof.
  induction l as [|y l IH]; [done|]. simpl.
  destruct (key x <=? key y); [done|]. rewrite IH. apply Permutation_swap.
Qed.

Lemma sort_perm key l : sort key l ≡ₚ l.
Proof.
  induction l as [|x l IH]; [done|]. simpl.
  by rewrite sort_insert_perm, IH.
Qed.

Lemma elem_of_events m r : r ∈ events m ↔ is_Some (getEvent m r).
Proof.
  unfold events. rewrite sort_perm. destruct r. apply elem_of_flat.
Qed.

Lemma touch_touch ev : touch (touch ev) = touch ev.
Proof. unfold touch. destruct (messageStatusByte ev =? 81) eqn:E; simpl; by rewrite E. Qed.

Lemma touchedBy_nil m : touchedBy [] m m.
Proof.
  split; [done|]. split; [done|]. intros r.
  rewrite decide_False by apply not_elem_of_nil. by destruct (getEvent m r).
Qed.

Lemma setEvent_shape r ev m :
  length <$> tracks (setEvent r ev m) = length <$> tracks m.
Proof.
  unfold setEvent. simpl. apply list_eq. intros i.
  rewrite !list_lookup_fmap. destruct (decide (r.1 = i)) as [<-|Hne].
  - rewrite list_lookup_alter_eq. destruct (tracks m !! r.1); [|done].
    simpl. by rewrite length_insert.
  - by rewrite list_lookup_alter_ne.
Qed.

Lemma touchedBy_handleEvent seen m st r :
  touchedBy seen m (midi st) →
  touchedBy (r :: seen) m (midi (handleEvent r st)).
Proof.
  intros (Htd & Hshape & Hget). rewrite midi_handleEvent.
  destruct (getEvent (midi st) r) as [ev|] eqn:He.
  - split; [done|]. split; [by rewrite setEvent_shape|]. intros r'.
    destruct (decide (r = r')) as [<-|Hne].
    + rewrite (getEvent_setEvent_eq _ _ ev) by done.
      rewrite decide_True by apply list_elem_of_here.
      rewrite Hget in He. destruct (getEvent m r) as [ev0|]; [|done].
      simpl in *. injection He as <-. case_decide; [|done].
      by rewrite touch_touch.
    + rewrite getEvent_setEvent_ne by done. rewrite Hget.
      destruct (decide (r' ∈ seen)).
      * rewrite decide_True; [done|]. by apply list_elem_of_further.
      * rewrite decide_False; [done|]. apply not_elem_of_cons. by split.
  - split; [done|]. split; [done|]. intros r'. rewrite Hget.
    destruct (decide (r = r')) as [<-|Hne].
    + rewrite Hget in He. destruct (getEvent m r); [|done].
      by repeat case_decide.
    + destruct (decide (r' ∈ seen)).
      * rewrite decide_True; [done|]. by apply list_elem_of_further.
      * rewrite decide_False; [done|]. apply not_elem_of_cons. by split.
Qed.

Lemma touchedBy_ext seen seen' m m' :
  (∀ r, r ∈ seen ↔ r ∈ seen') → touchedBy seen m m' → touchedBy seen' m m'.
Proof.
  intros Heq (Htd & Hshape & Hget). split; [done|]. split; [done|].
  intros r. rewrite Hget. destruct (decide (r ∈ seen)) as [Hin|Hin].
  - rewrite decide_True; [done|]. by apply Heq.
  - rewrite decide_False; [done|]. by rewrite <- Heq.
Qed.

Lemma touchedBy_arrive seen m pre e st :
  touchedBy seen m (midi st) →
  touchedBy (pre ++ seen) m (midi (arrive pre e st)).
Proof.
  revert seen st. induction pre as [|x pre IH]; intros seen st H; [done|].
  simpl arrive. destruct pre as [|y pre'].
  - apply (touchedBy_handleEvent _ _ _ x) in H. exact H.
  - apply (touchedBy_handleEvent _ _ _ x) in H. apply (IH _ (step x y st)) in H.
    eapply touchedBy_ext; [|exact H]. intros r.
    rewrite !elem_of_app, !elem_of_cons, ?elem_of_app, ?elem_of_cons.
    tauto.
Qed.

Lemma touchedBy_loop seen m evs st :
  touchedBy seen m (midi st) →
  touchedBy (evs ++ seen) m (midi (loop evs st)).
Proof.
  revert seen st. induction evs as [|x evs IH]; intros seen st H; [done|].
  simpl loop. destruct evs as [|y evs'].
  - by apply touchedBy_handleEvent.
  - apply (touchedBy_handleEvent _ _ _ x) in H. apply (IH _ (step x y st)) in H.
    eapply touchedBy_ext; [|exact H]. intros r.
    rewrite !elem_of_app, !elem_of_cons, ?elem_of_app, ?elem_of_cons.
    tauto.
Qed.

Lemma touch_ticks ev : ticks (touch ev) = ticks ev.
Proof. unfold touch. by destruct (_ =? 81). Qed.

Lemma touch_status ev : messageStatusByte (touch ev) = messageStatusByte ev.
Proof. unfold touch. by destruct (_ =? 81). Qed.

Lemma touch_tempoOf ev : tempoOf (touch ev) = tempoOf ev.
Proof. unfold touch. by destruct (_ =? 81). Qed.

Lemma touchedBy_ticksOf seen m m' r :
  touchedBy seen m m' → ticksOf m' r = ticksOf m r.
Proof.
  intros (_ & _ & Hget). unfold ticksOf. rewrite Hget.
  destruct (getEvent m r); [|done]. simpl. case_decide; [|done].
  apply touch_ticks.
Qed.

Lemma midi_finish st : midi (finish st) = midi st.
Proof. unfold finish. by destruct (0 <? unfinished st). Qed.

Lemma touchedBy_run m : touchedBy (events m) m (midi (run m)).
Proof.
  unfold run. rewrite midi_finish.
  eapply touchedBy_ext; [|apply touchedBy_loop, touchedBy_nil].
  intros r. by rewrite app_nil_r.
Qed.

Lemma tracks_run m :
  tracks (midi (run m)) = (λ tr : list MidiMessage.t, touch <$> tr) <$> tracks m.
Proof.
  destruct (touchedBy_run m) as (_ & Hshape & Hget).
  apply list_eq. intros i. rewrite list_lookup_fmap.
  pose proof (f_equal (.!! i) Hshape) as Hi. rewrite !list_lookup_fmap in Hi.
  destruct (tracks (midi (run m)) !! i) as [tr'|] eqn:Htr',
           (tracks m !! i) as [tr|] eqn:Htr; try done.
  simpl in *. f_equal. apply list_eq. intros j. rewrite list_lookup_fmap.
  specialize (Hget (i, j)). unfold getEvent in Hget. simpl in Hget.
  rewrite Htr', Htr in Hget. simpl in Hget. rewrite Hget.
  destruct (tr !! j) as [ev|] eqn:Hev; [|done].
  rewrite decide_True; [done|]. apply elem_of_events.
  unfold getEvent. simpl. rewrite Htr. simpl. by rewrite Hev.
Qed.

Lemma sort_insert_sorted key x l :
  Sorted (λ a b, key a ≤ key b) l →
  Sorted (λ a b, key a ≤ key b) (sort_insert key x l).
Proof.
  induction 1 as [|y l Hs IH Hhd]; simpl.
  - by repeat constructor.
  - destruct (key x <=? key y) eqn:E.
    + apply Z.leb_le in E. repeat constructor; done.
    + apply Z.leb_gt in E. constructor; [done|].
      destruct l as [|z l]; simpl.
      * constructor. lia.
      * inversion Hhd; subst. destruct (key x <=? key z); constructor; lia.
Qed.

Lemma sort_sorted key l : Sorted (λ a b, key a ≤ key b) (sort key l).
Proof.
  induction l as [|x l IH]; simpl; [constructor|].
  by apply sort_insert_sorted.
Qed.

Lemma events_sorted m : Sorted (byTicks m) (events m).
Proof. apply sort_sorted. Qed.

Lemma byte_to_Z_nonneg b : 0 ≤ byte_to_Z b.
Proof. unfold byte_to_Z. lia. Qed.

Lemma readBytes_from_nonneg a i n out :
  0 ≤ out → 0 ≤ readBytesAsUintBigEndian_from a i n out.
Proof.
  revert i out. induction n as [|n IH]; intros i out Hout; simpl; [done|].
  apply IH. apply Z.lor_nonneg. split; [done|].
  apply Z.shiftl_nonneg. destruct (IndexedByteArray.get a i); simpl;
    [apply byte_to_Z_nonneg|done].
Qed.

Lemma tempoValue_nonneg ev : 0 ≤ tempoValue ev.
Proof. by apply readBytes_from_nonneg. Qed.

Lemma Qdiv_nonneg (a b : Q) : (0 <= a → 0 <= b → 0 <= a / b)%Q.
Proof.
  intros Ha Hb. unfold Qdiv. apply Qmult_le_0_compat; [done|].
  by apply Qinv_le_0_compat.
Qed.

Lemma inject_Z_nonneg z : 0 ≤ z → (0 <= inject_Z z)%Q.
Proof. intros H. change 0%Q with (inject_Z 0). by rewrite <- Zle_Qle. Qed.

Lemma tempo_factor_nonneg ev td :
  0 < td → (0 <= 60 / (tempoOf ev * inject_Z td))%Q.
Proof.
  intros Htd. apply Qdiv_nonneg; [done|].
  apply Qmult_le_0_compat.
  - apply Qdiv_nonneg; [done|]. apply inject_Z_nonneg, tempoValue_nonneg.
  - apply inject_Z_nonneg. lia.
Qed.

Lemma provisionalOrClosed_close elapsed c note :
  (NoteTime.start note <= elapsed)%Q →
  provisionalOrClosed c (closeNote elapsed c note).
Proof. intros H. right. by exists elapsed. Qed.

Lemma timed_noteOff p c st : timed st → timed (noteOff p c st).
Proof.
  intros (Htick & Hel & Hnotes).
  destruct (noteOff_fields p c st) as (_ & Hel' & Htick' & _).
  unfold timed. rewrite Hel', Htick'. split; [done|]. split; [done|].
  intros c' note. rewrite noteOff_noteTimes.
  destruct (resolved st p c) as [[i ref]|]; [|apply Hnotes].
  destruct (decide (c < length (noteTimes st))%nat) as [Hlt|Hge];
    [|rewrite list_insert_ge by lia; apply Hnotes].
  rewrite lookup_total_insert_16 by done. case_decide as Hc; [|apply Hnotes].
  subst c'. intros [j Hj]%list_elem_of_lookup.
  rewrite list_lookup_alter in Hj. case_decide as Hj'.
  - subst j. destruct ((noteTimes st !!! c) !! ref) as [note0|] eqn:Hn; [|done].
    simpl in Hj. injection Hj as <-.
    destruct (Hnotes c note0) as (Hs & Hse & _);
      [by eapply list_elem_of_lookup_2|].
    split; [done|]. split; [done|]. by apply provisionalOrClosed_close.
  - apply Hnotes. by eapply list_elem_of_lookup_2.
Qed.

Lemma timed_noteOn p v c st : timed st → timed (noteOn p v c st).
Proof.
  intros (Htick & Hel & Hnotes). unfold timed, noteOn. simpl.
  split; [done|]. split; [done|]. intros c' note.
  destruct (decide (c < length (noteTimes st))%nat) as [Hlt|Hge];
    [|rewrite list_insert_ge by lia; apply Hnotes].
  rewrite lookup_total_insert_16 by done. case_decide as Hc; [|apply Hnotes].
  subst c'. intros [Hin|Hin]%elem_of_app; [by apply Hnotes|].
  apply list_elem_of_singleton in Hin as ->. simpl.
  split; [done|]. split; [apply Qle_refl|]. by left.
Qed.

Lemma timed_handleEvent r st :
  0 < timeDivision (midi st) → timed st → timed (handleEvent r st).
Proof.
  intros Htd Ht. unfold handleEvent.
  destruct (getEvent (midi st) r) as [ev|] eqn:He; [|done].
  destruct (_ =? 8); [by apply timed_noteOff|].
  destruct (_ =? 9).
  { case_decide; [by apply timed_noteOff|].
    by apply timed_noteOn, timed_noteOff. }
  destruct (messageStatusByte ev =? 81) eqn:E; [|done].
  apply Z.eqb_eq in E.
  destruct (getTempo_eq r ev (midi st)) as [->|]; [|done].
  destruct Ht as (Htick & Hel & Hnotes). split; [|done].
  simpl. by apply tempo_factor_nonneg.
Qed.

Lemma timed_advance x y st :
  ticksOf (midi st) x ≤ ticksOf (midi st) y → timed st → timed (advance x y st).
Proof.
  intros Hle (Htick & Hel & Hnotes).
  assert (0 <= oneTickToSeconds st *
                 inject_Z (ticksOf (midi st) y - ticksOf (midi st) x))%Q as Hd.
  { apply Qmult_le_0_compat; [done|]. apply inject_Z_nonneg. lia. }
  unfold timed, advance. simpl. split; [done|]. split; [lra|].
  intros c note Hin. destruct (Hnotes c note Hin) as (? & ? & ?).
  split; [done|]. split; [lra|done].
Qed.

Lemma timed_init m : 0 < timeDivision m → timed (init m).
Proof.
  intros Htd. split; [|split; [done|]].
  - simpl. apply Qdiv_nonneg; [done|].
    apply Qmult_le_0_compat; [done|]. apply inject_Z_nonneg. lia.
  - intros c note. simpl.
    do 16 (destruct c as [|c]; [by intros ?%elem_of_nil|]).
    by intros ?%elem_of_nil.
Qed.

Lemma timed_step m seen x y st :
  0 < timeDivision m → touchedBy seen m (midi st) → byTicks m x y →
  timed st → timed (step x y st).
Proof.
  intros Htd Hm Hxy Ht. unfold step.
  pose proof (touchedBy_handleEvent _ _ _ x Hm) as Hm'.
  apply timed_advance.
  - by rewrite !(touchedBy_ticksOf _ _ _ _ Hm').
  - apply timed_handleEvent; [|done]. destruct Hm as [-> _]. done.
Qed.


(** The counter [unfinished] never rises above its initial 0: every
    [noteOff] lowers it, also the one that a note-on does first. *)
Lemma unfinished_handleEvent r st :
  unfinished (handleEvent r st) ≤ unfinished st.
Proof.
  assert (Hoff : ∀ p c s, unfinished (noteOff p c s) = unfinished s - 1)
    by (intros; apply noteOff_fields).
  unfold handleEvent. destruct (getEvent (midi st) r) as [ev|]; [|done].
  destruct (_ =? 8); [rewrite Hoff; lia|].
  destruct (_ =? 9).
  { case_decide; [rewrite Hoff; lia|].
    change (unfinished (noteOn ?p ?v ?c ?s)) with (unfinished s + 1).
    rewrite Hoff. lia. }
  destruct (_ =? 81); [|done]. by destruct (getTempo _ _ _).
Qed.

Lemma unfinished_loop evs : ∀ st, unfinished (loop evs st) ≤ unfinished st.
Proof.
  induction evs as [|x evs IH]; intros st; [done|]. simpl.
  destruct evs as [|y evs']; [apply unfinished_handleEvent|].
  etrans; [apply IH|]. apply (unfinished_handleEvent x st).
Qed.

Lemma finish_dead m : run m = loop (events m) (init m).
Proof.
  unfold run, finish.
  pose proof (unfinished_loop (events m) (init m)) as H. simpl in H.
  by rewrite (proj2 (Z.ltb_ge _ _)).
Qed.



Lemma getNoteTimes_doc_zero :
  getNoteTimes doc_zero !!! 0%nat =
    [NoteTime.mk (Some 60) 0 (0 # 57600) (Some (100 # 127))].
Proof. vm_compute. reflexivity. Qed.



Lemma openProvisional_noteOff p c st :
  wf st → openProvisional st → openProvisional (noteOff p c st).
Proof.
  intros (Hn & Hu & Hc) Hop c' x.
  rewrite noteOff_noteTimes, noteOff_unfinishedNotes.
  destruct (resolved st p c) as [[i ref]|] eqn:Hres; [|apply Hop].
  destruct (decide (c < 16)%nat) as [Hlt|Hge];
    [|rewrite !list_insert_ge by lia; apply Hop].
  rewrite !lookup_total_insert_16 by lia. case_decide as E; [|apply Hop].
  subst c'. intros Hx.
  assert (x ≠ ref) as Hne.
  { intros ->. pose proof Hres as Hres'.
    apply list_find_Some in Hres' as (_ & Hr & _).
    eapply find_delete_none; [apply Hc|exact Hres|exact Hx|exact Hr]. }
  rewrite list_lookup_alter_ne by done.
  apply Hop. by eapply list_elem_of_delete_inv.
Qed.

Lemma openProvisional_noteOn p v c st :
  wf st → openProvisional st → openProvisional (noteOn p v c st).
Proof.
  intros (Hn & Hu & Hc) Hop c' x. unfold noteOn. simpl.
  destruct (decide (c < 16)%nat) as [Hlt|Hge];
    [|rewrite !list_insert_ge by lia; apply Hop].
  rewrite !lookup_total_insert_16 by lia. case_decide as E; [|apply Hop].
  subst c'. intros [Hx|Hx]%elem_of_app.
  - destruct (Hop c x Hx) as (note & Hnote & Hlen). exists note.
    split; [|done]. by apply lookup_app_l_Some.
  - apply list_elem_of_singleton in Hx as ->. eexists.
    rewrite list_lookup_middle by done. done.
Qed.

Lemma openProvisional_handleEvent r st :
  wf st → openProvisional st → openProvisional (handleEvent r st).
Proof.
  intros Hwf Hop. unfold handleEvent.
  destruct (getEvent (midi st) r) as [ev|]; [|done].
  destruct (_ =? 8); [by apply openProvisional_noteOff|].
  destruct (_ =? 9).
  { case_decide; [by apply openProvisional_noteOff|].
    apply openProvisional_noteOn; [by apply wf_noteOff|].
    by apply openProvisional_noteOff. }
  destruct (_ =? 81); [|done]. by destruct (getTempo _ _ _).
Qed.

Lemma openProvisional_loop evs : ∀ st,
  wf st → openProvisional st → openProvisional (loop evs st).
Proof.
  induction evs as [|x evs IH]; intros st Hwf Hop; [done|]. simpl.
  destruct evs as [|y evs']; [by apply openProvisional_handleEvent|].
  apply IH; [by apply wf_step|].
  by apply (openProvisional_handleEvent x) in Hop.
Qed.

Lemma openProvisional_init m : openProvisional (init m).
Proof.
  intros c ref. simpl.
  do 16 (destruct c as [|c]; [by intros ?%elem_of_nil|]).
  by intros ?%elem_of_nil.
Qed.

(** Whatever the document, an interval that is still open when the loop
    ends is returned with the provisional length -1: the closing pass at
    the end never runs. *)
Lemma open_intervals_stay_provisional m c ref :
  ref ∈ unfinishedNotes (run m) !!! c →
  ∃ note, (getNoteTimes m !!! c) !! ref = Some note ∧
          NoteTime.length note = (-1)%Q.
Proof.
  unfold getNoteTimes. rewrite finish_dead.
  apply openProvisional_loop; [apply wf_init|apply openProvisional_init].
Qed.

(** C2, at the failing input: a note-on at tick 0 that no note-off
    follows, and a controller event at tick 480.  The pass ends at 0.5 s
    with the interval still open, and returns it with length -1. *)
Theorem unclosed_interval_keeps_minus_one :
  (elapsedTime (run doc_unclosed) == 1 # 2)%Q ∧
  unfinishedNotes (run doc_unclosed) !!! 0%nat = [0%nat] ∧
  unfinished (loop (events doc_unclosed) (init doc_unclosed)) = 0 ∧
  getNoteTimes doc_unclosed !!! 0%nat =
    [NoteTime.mk (Some 60) 0 (-1) (Some (100 # 127))].
Proof. repeat split; vm_compute; reflexivity. Qed.

Lemma arrive_snoc pre e next st :
  arrive (pre ++ [e]) next st = step e next (arrive pre e st).
Proof.
  revert st. induction pre as [|x pre IH]; intros st; [done|].
  destruct pre as [|y pre']; [done|].
  change (arrive ((x :: y :: pre') ++ [e]) next st)
    with (arrive ((y :: pre') ++ [e]) next (step x y st)).
  by rewrite IH.
Qed.

(** C4. The tick length starts at the one of 120 beats per minute,
    [60 / (120 * timeDivision)].  When the loop handles a set-tempo event
    [e] and goes on to the next event, the time it adds for the ticks from
    [e] to the next event is counted with the tick length of the new
    tempo; the time elapsed before [e] is kept as it was, and so is every
    interval recorded so far. *)
Theorem tempo_change_from_its_tick m pre e next post ev :
  events m = pre ++ e :: next :: post →
  getEvent m e = Some ev →
  messageStatusByte ev = 81 →
  let st := arrive pre e (init m) in
  let st' := arrive (pre ++ [e]) next (init m) in
  let factor := (60 / (tempoOf ev * inject_Z (timeDivision m)))%Q in
  oneTickToSeconds (init m) = (60 / (120 * inject_Z (timeDivision m)))%Q ∧
  loop (events m) (init m) = loop (e :: next :: post) st ∧
  loop (events m) (init m) = loop (next :: post) st' ∧
  oneTickToSeconds st' = factor ∧
  elapsedTime st' =
    (elapsedTime st + factor * inject_Z (ticksOf m next - ticksOf m e))%Q ∧
  noteTimes st' = noteTimes st ∧
  unfinishedNotes st' = unfinishedNotes st.
Proof.
  intros Hev Hget Hsb. cbv zeta. split; [done|].
  split. { rewrite Hev. apply loop_arrive. }
  split.
  { rewrite Hev. change (e :: next :: post) with ([e] ++ next :: post).
    rewrite app_assoc. apply loop_arrive. }
  rewrite arrive_snoc. set (st := arrive pre e (init m)).
  pose proof (touchedBy_arrive [] m pre e (init m) (touchedBy_nil m)) as Hm.
  fold st in Hm. destruct (Hm) as (Htd & _ & Hg).
  assert (∃ ev', getEvent (midi st) e = Some ev' ∧ messageStatusByte ev' = 81
                 ∧ tempoOf ev' = tempoOf ev) as (ev' & Hget' & Hsb' & Htempo).
  { rewrite Hg, Hget. simpl. eexists. split; [done|].
    case_decide; [by rewrite touch_status, touch_tempoOf|done]. }
  pose proof (touchedBy_handleEvent _ _ _ e Hm) as Hm'.
  unfold step, advance. rewrite !(touchedBy_ticksOf _ _ _ _ Hm').
  rewrite (handleEvent_tempo e st ev') by done. simpl.
  by rewrite Htempo, Htd.
Qed.

Lemma tempo_change_from_its_tick_witness :
  let st := arrive [] (0, 0)%nat (init doc_scenario) in
  let st' := arrive [(0, 0)%nat] (0, 1)%nat (init doc_scenario) in
  oneTickToSeconds st' = (60 / ((60000000 / 500000) * 480))%Q ∧
  elapsedTime st' =
    (elapsedTime st + (60 / ((60000000 / 500000) * 480)) * inject_Z (0 - 0))%Q ∧
  noteTimes st' = noteTimes st.
Proof.
  destruct (tempo_change_from_its_tick doc_scenario [] (0, 0)%nat (0, 1)%nat
              [(0, 2)%nat] (event 0 81 [x07; xa1; x20]))
    as (_ & _ & _ & Htick & Hel & Hnotes & _).
  - reflexivity.
  - reflexivity.
  - reflexivity.
  - split; [exact Htick|]. split; [exact Hel|exact Hnotes].
Defined.

(** C9 (amended). When [getNoteTimes] returns, the document has the tracks
    and events it had, in the same places, with the same time division;
    every event has the ticks, the status byte and the buffer bytes it
    had; an event whose status byte is not 0x51 is unchanged; a set-tempo
    event (status byte 0x51) has had its [messageData] replaced by a view
    on the whole of its buffer whose read cursor is at 3. *)
Theorem document_after_getNoteTimes m :
  timeDivision (midi (run m)) = timeDivision m ∧
  tracks (midi (run m)) =
    (λ tr : list MidiMessage.t, touch <$> tr) <$> tracks m ∧
  ∀ ev,
    ticks (touch ev) = ticks ev ∧
    messageStatusByte (touch ev) = messageStatusByte ev ∧
    buffer (messageData (touch ev)) = buffer (messageData ev) ∧
    (messageStatusByte ev ≠ 81 → touch ev = ev) ∧
    (messageStatusByte ev = 81 →
     messageData (touch ev) =
       IndexedByteArray.mk (buffer (messageData ev)) 0
         (length (buffer (messageData ev))) 3).
Proof.
  split; [apply (touchedBy_run m)|]. split; [apply tracks_run|].
  intros ev. split; [apply touch_ticks|]. split; [apply touch_status|].
  unfold touch. destruct (messageStatusByte ev =? 81) eqn:E.
  - apply Z.eqb_eq in E. done.
  - apply Z.eqb_neq in E. done.
Qed.

(** C9, counterexample: the set-tempo event of the scenario document has
    its read cursor at 0 before the call and at 3 after it. *)
Lemma getNoteTimes_moves_tempo_cursor :
  currentIndex ∘ messageData <$> getEvent doc_scenario (0, 0)%nat = Some 0%nat ∧
  currentIndex ∘ messageData <$> getEvent (midi (run doc_scenario)) (0, 0)%nat
    = Some 3%nat ∧
  tracks (midi (run doc_scenario)) ≠ tracks doc_scenario.
Proof.
  split; [reflexivity|]. split; [reflexivity|].
  intros H. apply (f_equal (λ ts, currentIndex ∘ messageData <$>
                                    (ts !! 0%nat ≫= (.!! 0%nat)))) in H.
  vm_compute in H. discriminate H.
Qed.
End ExtractorFacts.

(** ** The extractor: further properties *)

Module ExtractorLaws.
Import IndexedByteArray MidiMessage BasicMIDI Extractor ExtractorSpec ExtractorFacts ExtractorProps.

Lemma wf_loop evs : ∀ st, wf st → wf (loop evs st).
Proof.
  induction evs as [|x evs IH]; intros st Hwf; [done|]. simpl.
  destruct evs as [|y evs']; [by apply wf_handleEvent|].
  apply IH. by apply wf_step.
Qed.

Lemma fmap_alter_keep {A B} (f : A → B) (g : A → A) i (l : list A) :
  (∀ x, f (g x) = f x) → f <$> alter g i l = f <$> l.
Proof.
  intros Hfg. apply list_eq. intros j. rewrite !list_lookup_fmap.
  destruct (decide (i = j)) as [->|Hne].
  - rewrite list_lookup_alter_eq. destruct (l !! j); simpl; [|done].
    by rewrite Hfg.
  - by rewrite list_lookup_alter_ne.
Qed.

(** What [noteOff] and [noteOn] do to one channel's list. *)
Lemma noteOff_channel p c st c' :
  noteTimes (noteOff p c st) !!! c' =
    match resolved st p c with
    | Some (_, ref) =>
        if decide (c = c' ∧ c < length (noteTimes st))%nat
        then alter (closeNote (elapsedTime st) c) ref (noteTimes st !!! c)
        else noteTimes st !!! c'
    | None => noteTimes st !!! c'
    end.
Proof.
  rewrite noteOff_noteTimes.
  destruct (resolved st p c) as [[i ref]|]; [|done].
  destruct (decide (c < length (noteTimes st))%nat) as [Hlt|Hge].
  - rewrite lookup_total_insert_16 by done.
    case_decide; [by rewrite decide_True|]. rewrite decide_False; [done|tauto].
  - rewrite list_insert_ge by lia. rewrite decide_False; [done|tauto].
Qed.

Lemma noteOn_channel p v c st c' :
  (c < length (noteTimes st))%nat →
  noteTimes (noteOn p v c st) !!! c' =
    if decide (c = c')
    then (noteTimes st !!! c) ++
         [NoteTime.mk p (elapsedTime st) (-1) ((λ v, inject_Z v / 127)%Q <$> v)]
    else noteTimes st !!! c'.
Proof.
  intros Hlt. unfold noteOn. simpl. by rewrite lookup_total_insert_16.
Qed.

Lemma noteOff_length p c st :
  length (noteTimes (noteOff p c st)) = length (noteTimes st).
Proof.
  rewrite noteOff_noteTimes.
  destruct (resolved st p c) as [[i ref]|]; [|done]. by rewrite length_insert.
Qed.

Lemma noteOff_keeps {B} (f : NoteTime.t → B) p c st c' :
  (∀ t ch n, f (closeNote t ch n) = f n) →
  f <$> noteTimes (noteOff p c st) !!! c' = f <$> noteTimes st !!! c'.
Proof.
  intros Hf. rewrite noteOff_channel.
  destruct (resolved st p c) as [[i ref]|]; [|done].
  case_decide as E; [|done]. destruct E as [-> _].
  apply fmap_alter_keep. intros x. apply Hf.
Qed.

Lemma touched_event seen (m : BasicMIDI.t) st r :
  touchedBy seen m (midi st) →
  match getEvent (midi st) r, getEvent m r with
  | Some ev, Some ev0 =>
      messageStatusByte ev = messageStatusByte ev0 ∧
      (messageStatusByte ev0 ≠ 81 → ev = ev0)
  | None, None => True
  | _, _ => False
  end.
Proof.
  intros (_ & _ & H). rewrite H. destruct (getEvent m r) as [ev0|]; [|done].
  simpl. case_decide; [|done]. split; [apply touch_status|].
  intros Hne. unfold touch. by rewrite (proj2 (Z.eqb_neq _ _) Hne).
Qed.

Lemma status_9_not_tempo sb : (Z.shiftr sb 4 =? 9) = true → sb ≠ 81.
Proof. intros H ->. vm_compute in H. discriminate. Qed.

Lemma status_8_not_9 sb :
  (Z.shiftr sb 4 =? 8) = true → (Z.shiftr sb 4 =? 9) = false.
Proof. intros H%Z.eqb_eq. rewrite H. done. Qed.

Lemma pitchAndVelocity_close t ch n :
  pitchAndVelocity (closeNote t ch n) = pitchAndVelocity n.
Proof. done. Qed.

(** One turn of the loop appends to the channel's list the interval of
    the event, when it is a note-on of the channel. *)
Lemma keys_handleEvent seen m r st c :
  wf st → touchedBy seen m (midi st) →
  pitchAndVelocity <$> noteTimes (handleEvent r st) !!! c =
    (pitchAndVelocity <$> noteTimes st !!! c) ++
    option_list (noteOnOf m c r).
Proof.
  intros (Hn & _) Hm. pose proof (touched_event _ _ _ r Hm) as Hev.
  unfold handleEvent, noteOnOf.
  destruct (getEvent (midi st) r) as [ev|], (getEvent m r) as [ev0|];
    cbn [mbind option_bind option_list]; try done; [|by rewrite app_nil_r].
  destruct Hev as [Hsb Hsame]. unfold isNoteOn. rewrite <- Hsb.
  destruct (Z.shiftr (messageStatusByte ev) 4 =? 8) eqn:H8.
  { rewrite (status_8_not_9 _ H8). cbn [andb option_list]. rewrite app_nil_r.
    apply noteOff_keeps, pitchAndVelocity_close. }
  destruct (Z.shiftr (messageStatusByte ev) 4 =? 9) eqn:H9.
  - rewrite <- Hsame by (rewrite <- Hsb; by apply status_9_not_tempo).
    case_decide as E0.
    + rewrite bool_decide_true by done. cbn [andb negb option_list].
      rewrite app_nil_r. apply noteOff_keeps, pitchAndVelocity_close.
    + rewrite bool_decide_false by done. cbn [andb negb].
      rewrite noteOn_channel
        by (rewrite noteOff_length, Hn; apply channel_lt_16).
      fold (channelOf ev). case_decide as Ec.
      * rewrite bool_decide_true by done. cbn [option_list]. rewrite fmap_app.
        f_equal. subst c. apply noteOff_keeps, pitchAndVelocity_close.
      * rewrite bool_decide_false by done. cbn [option_list].
        rewrite app_nil_r. apply noteOff_keeps, pitchAndVelocity_close.
  - cbn [andb option_list]. rewrite app_nil_r.
    destruct (messageStatusByte ev =? 81); [|done].
    by destruct (getTempo _ _ _).
Qed.

Lemma keys_loop m c evs : ∀ seen st,
  wf st → touchedBy seen m (midi st) →
  pitchAndVelocity <$> noteTimes (loop evs st) !!! c =
    (pitchAndVelocity <$> noteTimes st !!! c) ++ omap (noteOnOf m c) evs.
Proof.
  induction evs as [|x evs IH]; intros seen st Hwf Hm.
  { simpl. by rewrite app_nil_r. }
  assert (Hx : omap (noteOnOf m c) (x :: evs) =
               option_list (noteOnOf m c x) ++ omap (noteOnOf m c) evs).
  { simpl. by destruct (noteOnOf m c x). }
  rewrite Hx, app_assoc, <- (keys_handleEvent seen m x st c) by done.
  destruct evs as [|y evs']; [simpl; by rewrite app_nil_r|].
  change (loop (x :: y :: evs') st) with (loop (y :: evs') (step x y st)).
  rewrite (IH (x :: seen)); [done|by apply wf_step|].
  by apply (touchedBy_handleEvent _ _ _ x) in Hm.
Qed.

Lemma init_channel m c : noteTimes (init m) !!! c = [].
Proof.
  simpl. do 16 (destruct c as [|c]; [done|]). done.
Qed.

Lemma length_omap_filter {A B} (f : A → option B) (l : list A) :
  length (omap f l) = length (filter (λ x, is_Some (f x)) l).
Proof.
  induction l as [|x l IH]; [done|]. rewrite filter_cons.
  change (omap f (x :: l))
    with (match f x with Some y => y :: omap f l | None => omap f l end).
  destruct (f x) as [y|] eqn:E.
  - rewrite decide_True by done. simpl. by rewrite IH.
  - rewrite decide_False; [done|]. by intros [? ?].
Qed.

Lemma keys_run m c :
  pitchAndVelocity <$> noteTimes (loop (events m) (init m)) !!! c
  = omap (noteOnOf m c) (events m).
Proof.
  rewrite (keys_loop m c (events m) [] (init m));
    [|apply wf_init|apply touchedBy_nil].
  by rewrite init_channel.
Qed.

(** X18. [getNoteTimes] returns sixteen lists, one for each channel.  The
    list of a channel has one interval for each note-on event of that
    channel (status 9 with a velocity byte other than 0), in the order in
    which the tick-sorted events come, with the pitch and the velocity
    (byte / 127) of the event; so its length is the number of such events
    in the document. *)
Theorem intervals_are_the_note_ons m c :
  length (getNoteTimes m) = 16%nat ∧
  pitchAndVelocity <$> getNoteTimes m !!! c = omap (noteOnOf m c) (events m) ∧
  length (getNoteTimes m !!! c) =
    length (filter (λ r, is_Some (noteOnOf m c r)) (flat (tracks m))).
Proof.
  unfold getNoteTimes. rewrite finish_dead.
  pose proof (keys_run m c) as Hkeys.
  split; [|split; [done|]].
  - apply (wf_loop (events m) (init m)), wf_init.
  - rewrite <- (length_fmap pitchAndVelocity), Hkeys, length_omap_filter.
    apply Permutation_length. unfold events. by rewrite sort_perm.
Qed.

Lemma byte_velocity_positive (b : option byte) q :
  byte_to_Z <$> b ≠ Some 0 →
  (λ v, inject_Z v / 127)%Q <$> (byte_to_Z <$> b) = Some q → (0 < q)%Q.
Proof.
  destruct b as [b|]; [|done]. simpl. intros Hne [= <-].
  pose proof (byte_to_Z_nonneg b).
  assert (0 < byte_to_Z b) by (destruct (decide (byte_to_Z b = 0)); [congruence|lia]).
  apply Qlt_shift_div_l; [done|]. rewrite Qmult_0_l.
  rewrite <- (Zlt_Qlt 0). done.
Qed.

(** X19. No interval has velocity 0: a note-on event whose velocity byte
    is 0 is handled as a note-off and opens nothing, so the velocity of an
    interval, when it is a number, is positive. *)
Theorem interval_velocity_is_positive m c note q :
  note ∈ getNoteTimes m !!! c →
  NoteTime.velocity note = Some q →
  (0 < q)%Q.
Proof.
  intros Hin Hq.
  assert (Hk : pitchAndVelocity note ∈ omap (noteOnOf m c) (events m)).
  { rewrite <- keys_run, <- finish_dead. by apply list_elem_of_fmap_2. }
  apply list_elem_of_omap in Hk as (r & _ & Hr).
  unfold noteOnOf in Hr. destruct (getEvent m r) as [ev|]; [|done].
  simpl in Hr. destruct (isNoteOn ev) eqn:Hon; [|done].
  destruct (bool_decide _); [|done]. simpl in Hr.
  injection Hr as _ Hv. unfold velocityOf in Hv. rewrite Hq in Hv.
  unfold isNoteOn in Hon. apply andb_true_iff in Hon as [_ Hon].
  apply negb_true_iff, bool_decide_eq_false in Hon.
  by eapply byte_velocity_positive.
Qed.

Lemma interval_velocity_is_positive_witness : (0 < 100 # 127)%Q.
Proof.
  apply (interval_velocity_is_positive doc_zero 0%nat
           (NoteTime.mk (Some 60) 0 (0 # 57600) (Some (100 # 127)))).
  - rewrite getNoteTimes_doc_zero. apply list_elem_of_here.
  - reflexivity.
Defined.

Lemma ascending_ext (l l' : list NoteTime.t) :
  NoteTime.start <$> l = NoteTime.start <$> l' → ascending l → ascending l'.
Proof.
  intros Heq Hl i j a b Hij Ha Hb.
  assert (Hs : ∀ k x, l' !! k = Some x →
               ∃ y, l !! k = Some y ∧ NoteTime.start x = NoteTime.start y).
  { intros k x Hx. apply (list_lookup_fmap_Some_2 NoteTime.start) in Hx.
    rewrite <- Heq in Hx. apply list_lookup_fmap_Some in Hx as (y & ? & ?).
    by exists y. }
  destruct (Hs i a Ha) as (a' & Ha' & ->).
  destruct (Hs j b Hb) as (b' & Hb' & ->). by eapply Hl.
Qed.

Lemma ascending_push (notes : list NoteTime.t) note :
  ascending notes →
  (∀ a, a ∈ notes → (NoteTime.start a <= NoteTime.start note)%Q) →
  ascending (notes ++ [note]).
Proof.
  intros Hl Hmax i j a b Hij Ha Hb.
  apply lookup_app_Some in Hb as [Hb|[Hlen Hb]].
  - rewrite lookup_app_l in Ha by (apply lookup_lt_Some in Hb; lia).
    by eapply Hl.
  - apply list_lookup_singleton_Some in Hb as [_ <-].
    apply lookup_app_Some in Ha as [Ha|[_ Ha]].
    + apply Hmax. by eapply list_elem_of_lookup_2.
    + apply list_lookup_singleton_Some in Ha as [_ <-]. apply Qle_refl.
Qed.

Lemma ascending_noteOff p c st c' :
  ascending (noteTimes st !!! c') → ascending (noteTimes (noteOff p c st) !!! c').
Proof.
  apply ascending_ext. symmetry. by apply noteOff_keeps.
Qed.

Lemma ascending_handleEvent r st :
  wf st → timed st →
  (∀ c, ascending (noteTimes st !!! c)) →
  ∀ c, ascending (noteTimes (handleEvent r st) !!! c).
Proof.
  intros (Hn & _) Ht Ha c. unfold handleEvent.
  destruct (getEvent (midi st) r) as [ev|]; [|done].
  destruct (_ =? 8); [by apply ascending_noteOff|].
  destruct (_ =? 9).
  { case_decide; [by apply ascending_noteOff|].
    rewrite noteOn_channel by (rewrite noteOff_length, Hn; apply channel_lt_16).
    case_decide; [|by apply ascending_noteOff].
    apply ascending_push; [by apply ascending_noteOff|].
    intros a Hin. cbn [NoteTime.start].
    apply (timed_noteOff (noteOf ev) (channelOf ev)) in Ht as (_ & _ & Ht).
    by destruct (Ht _ _ Hin) as (_ & ? & _). }
  destruct (_ =? 81); [|done]. by destruct (getTempo _ _ _).
Qed.

Lemma ascending_loop m evs : ∀ seen st,
  0 < timeDivision m → Sorted (byTicks m) evs →
  touchedBy seen m (midi st) → wf st → timed st →
  (∀ c, ascending (noteTimes st !!! c)) →
  ∀ c, ascending (noteTimes (loop evs st) !!! c).
Proof.
  induction evs as [|x evs IH]; intros seen st Htd Hs Hm Hwf Ht Ha; [done|].
  simpl. destruct evs as [|y evs']; [by apply ascending_handleEvent|].
  inversion Hs as [|?? Hs' Hhd]; subst. inversion Hhd; subst.
  apply (IH (x :: seen)); [done|done| | | |].
  - by apply (touchedBy_handleEvent _ _ _ x) in Hm.
  - by apply wf_step.
  - by eapply timed_step.
  - by apply (ascending_handleEvent x).
Qed.

(** X20. When the time division is positive, every channel's list is in
    the order of the starts: no interval starts before one that precedes
    it in the list. *)
Theorem starts_do_not_decrease m c :
  0 < timeDivision m → ascending (getNoteTimes m !!! c).
Proof.
  intros Htd. unfold getNoteTimes. rewrite finish_dead.
  apply (ascending_loop m (events m) [] (init m)); try done.
  - apply events_sorted.
  - apply touchedBy_nil.
  - apply wf_init.
  - by apply timed_init.
  - intros c' i j a b _ Hi. by rewrite init_channel in Hi.
Qed.

Lemma starts_do_not_decrease_witness :
  ascending (getNoteTimes doc_retrigger !!! 0%nat).
Proof.
  apply (starts_do_not_decrease doc_retrigger 0%nat). reflexivity.
Defined.

Lemma handleEvent_noteOn r st ev :
  getEvent (midi st) r = Some ev → isNoteOn ev = true →
  handleEvent r st =
    noteOn (noteOf ev)
      (byte_to_Z <$> IndexedByteArray.get (messageData ev) 1) (channelOf ev)
      (noteOff (noteOf ev) (channelOf ev) st).
Proof.
  intros Hget Hon. unfold handleEvent. rewrite Hget.
  unfold isNoteOn in Hon. apply andb_true_iff in Hon as [H9 Hv].
  apply negb_true_iff, bool_decide_eq_false in Hv.
  destruct (Z.shiftr (messageStatusByte ev) 4 =? 8) eqn:H8.
  { apply status_8_not_9 in H8. congruence. }
  rewrite H9. by rewrite decide_False.
Qed.

Lemma getEvent_at_note_on seen m st r ev :
  touchedBy seen m (midi st) →
  getEvent m r = Some ev → isNoteOn ev = true →
  getEvent (midi st) r = Some ev.
Proof.
  intros Hm Hget Hon. pose proof (touched_event _ _ _ r Hm) as H.
  rewrite Hget in H. destruct (getEvent (midi st) r) as [ev'|]; [|done].
  destruct H as [_ H]. rewrite H; [done|].
  apply status_9_not_tempo. unfold isNoteOn in Hon.
  by apply andb_true_iff in Hon as [? _].
Qed.

Lemma noteOn_open p v c st :
  (c < length (unfinishedNotes st))%nat →
  unfinishedNotes (noteOn p v c st) !!! c =
    (unfinishedNotes st !!! c) ++ [length (noteTimes st !!! c)].
Proof.
  intros Hlt. unfold noteOn. simpl.
  by rewrite lookup_total_insert_16, decide_True.
Qed.

(** X21. When the loop comes to a note-on event (status 9, velocity byte
    other than 0) for a pitch that still has an open interval on the
    event's channel, it first closes that interval at the elapsed time
    (with the floor [minNoteTime] on channel 9), then appends the new
    interval with length -1; no other interval of the channel changes,
    and afterwards the new interval is the only open one of that pitch. *)
Theorem note_on_closes_the_sounding_note m pre e post ev ref0 :
  events m = pre ++ e :: post →
  getEvent m e = Some ev →
  isNoteOn ev = true →
  openAt (arrive pre e (init m)) (channelOf ev) (noteOf ev) ref0 →
  let st := arrive pre e (init m) in
  let st' := handleEvent e st in
  let c := channelOf ev in
  loop (events m) (init m) = loop (e :: post) st ∧
  noteTimes st' !!! c =
    alter (closeNote (elapsedTime st) c) ref0 (noteTimes st !!! c) ++
    [NoteTime.mk (noteOf ev) (elapsedTime st) (-1) (velocityOf ev)] ∧
  (ref0 < length (noteTimes st !!! c))%nat ∧
  ∀ ref, openAt st' c (noteOf ev) ref ↔ ref = length (noteTimes st !!! c).
Proof.
  intros Hev Hget Hon Hopen. cbv zeta.
  set (st := arrive pre e (init m)) in *. set (c := channelOf ev) in *.
  assert (Hwf : wf st) by apply wf_arrive, wf_init.
  assert (Hm : touchedBy (pre ++ []) m (midi st))
    by apply touchedBy_arrive, touchedBy_nil.
  split. { rewrite Hev. apply loop_arrive. }
  rewrite (handleEvent_noteOn e st ev)
    by (done || by eapply getEvent_at_note_on).
  fold c. pose proof Hopen as [Hin Hp].
  destruct (list_find_elem_of (hasMidiNote (noteTimes st !!! c) (noteOf ev))
              _ ref0 Hin Hp) as [[i ref] Hfind].
  pose proof Hfind as Hfind'.
  apply list_find_Some in Hfind' as (Hi & Hr & _).
  assert (ref = ref0) as ->.
  { apply (openAt_unique st c (noteOf ev)); [done| |done].
    split; [by eapply list_elem_of_lookup_2|done]. }
  assert (Hlt : (c < 16)%nat) by apply channel_lt_16.
  pose proof Hwf as (Hn & Hu & Hc). destruct (Hc c) as [Hbound Hnd].
  assert (Hnotes : noteTimes (noteOff (noteOf ev) c st) !!! c =
                   alter (closeNote (elapsedTime st) c) ref0 (noteTimes st !!! c)).
  { rewrite noteOff_channel. unfold resolved. rewrite Hfind.
    rewrite decide_True; [done|]. split; [done|lia]. }
  assert (Hopens : unfinishedNotes (noteOff (noteOf ev) c st) !!! c =
                   delete i (unfinishedNotes st !!! c)).
  { rewrite noteOff_unfinishedNotes. unfold resolved. rewrite Hfind.
    by rewrite lookup_total_insert_16, decide_True by (done || lia). }
  assert (Hel : elapsedTime (noteOff (noteOf ev) c st) = elapsedTime st)
    by apply noteOff_fields.
  split; [|split].
  - rewrite noteOn_channel by (rewrite noteOff_length; lia).
    rewrite decide_True by done. by rewrite Hnotes, Hel.
  - by eapply Forall_forall in Hbound.
  - intros ref. unfold openAt.
    rewrite noteOn_open
      by (pose proof (wf_noteOff (noteOf ev) c st Hwf) as (_ & -> & _); lia).
    rewrite noteOn_channel by (rewrite noteOff_length; lia).
    rewrite decide_True by done. rewrite Hnotes, Hopens, Hel, length_alter.
    split.
    + intros [[Hx| ->%list_elem_of_singleton]%elem_of_app Hpitch]; [|done].
      exfalso.
      eapply find_delete_none; [exact Hnd|exact Hfind|exact Hx|].
      assert (ref < length (noteTimes st !!! c))%nat.
      { apply list_elem_of_delete_inv in Hx.
        by eapply Forall_forall in Hbound. }
      unfold hasMidiNote in Hpitch.
      rewrite lookup_app_l in Hpitch by (by rewrite length_alter).
      rewrite <- (pitchAt_alter_close (elapsedTime st) c ref0). exact Hpitch.
    + intros ->. split; [apply elem_of_app; right; apply list_elem_of_here|].
      unfold hasMidiNote.
      by rewrite list_lookup_middle by (by rewrite length_alter).
Qed.

Lemma note_on_closes_the_sounding_note_witness :
  let st := arrive [(0, 0)]%nat (0, 1)%nat (init doc_retrigger) in
  noteTimes (handleEvent (0, 1)%nat st) !!! 0%nat =
    alter (closeNote (elapsedTime st) 0) 0%nat (noteTimes st !!! 0%nat) ++
    [NoteTime.mk (Some 60) (elapsedTime st) (-1) (Some (80 / 127)%Q)] ∧
  ∀ ref, openAt (handleEvent (0, 1)%nat st) 0%nat (Some 60) ref ↔ ref = 1%nat.
Proof.
  destruct (note_on_closes_the_sounding_note doc_retrigger
              [(0, 0)]%nat (0, 1)%nat [(0, 2)]%nat
              (event 240 144 [x3c; x50]) 0%nat)
    as (_ & Hnotes & _ & Hopen).
  - reflexivity.
  - reflexivity.
  - reflexivity.
  - split; [apply (list_elem_of_lookup_2 _ 0%nat); reflexivity|reflexivity].
  - split; [exact Hnotes|exact Hopen].
Defined.

Lemma closed_noteOff p c st c' ref note :
  closedAt st c' ref note → closedAt (noteOff p c st) c' ref note.
Proof.
  intros [Hnote Hclosed]. unfold closedAt.
  rewrite noteOff_channel, noteOff_unfinishedNotes. unfold resolved.
  destruct (list_find _ _) as [[i ref']|] eqn:Hfind; [|done].
  apply list_find_Some in Hfind as (Hi & _ & _).
  split.
  - case_decide as E; [|done]. destruct E as [<- _].
    rewrite list_lookup_alter_ne; [done|]. intros ->.
    apply Hclosed. by eapply list_elem_of_lookup_2.
  - destruct (decide (c < length (unfinishedNotes st))%nat) as [Hlt|Hge];
      [|by rewrite list_insert_ge by lia].
    rewrite lookup_total_insert_16 by done. case_decide; [|done]. subst c'.
    intros Hx. by apply list_elem_of_delete_inv in Hx.
Qed.

Lemma closed_noteOn p v c st c' ref note :
  wf st → (c < 16)%nat →
  closedAt st c' ref note → closedAt (noteOn p v c st) c' ref note.
Proof.
  intros (Hn & Hu & _) Hlt [Hnote Hclosed]. unfold closedAt.
  rewrite noteOn_channel by lia.
  destruct (decide (c = c')) as [<-|Hne].
  - rewrite noteOn_open by lia. split; [by apply lookup_app_l_Some|].
    intros [Hx| ->%list_elem_of_singleton]%elem_of_app; [done|].
    apply lookup_lt_Some in Hnote. lia.
  - split; [done|]. unfold noteOn. simpl.
    by rewrite lookup_total_insert_16, decide_False by lia.
Qed.

Lemma closed_handleEvent r st c ref note :
  wf st → closedAt st c ref note → closedAt (handleEvent r st) c ref note.
Proof.
  intros Hwf Hcl. unfold handleEvent.
  destruct (getEvent (midi st) r) as [ev|]; [|done].
  destruct (_ =? 8); [by apply closed_noteOff|].
  destruct (_ =? 9).
  { case_decide; [by apply closed_noteOff|].
    apply closed_noteOn;
      [by apply wf_noteOff|apply channel_lt_16|by apply closed_noteOff]. }
  destruct (_ =? 81); [|done]. by destruct (getTempo _ _ _).
Qed.

Lemma closed_loop evs c ref note : ∀ st,
  wf st → closedAt st c ref note → closedAt (loop evs st) c ref note.
Proof.
  induction evs as [|x evs IH]; intros st Hwf Hcl; [done|]. simpl.
  destruct evs as [|y evs']; [by apply closed_handleEvent|].
  apply IH; [by apply wf_step|].
  by apply (closed_handleEvent x) in Hcl.
Qed.

(** X22. An interval that is closed is final: when the loop comes to an
    event and an interval of a channel is no longer open, the list that
    [getNoteTimes] returns has that very interval (same start, same length)
    at the same index. *)
Theorem closed_interval_is_final m pre e post c ref note :
  events m = pre ++ e :: post →
  closedAt (arrive pre e (init m)) c ref note →
  (getNoteTimes m !!! c) !! ref = Some note.
Proof.
  intros Hev Hcl. unfold getNoteTimes. rewrite finish_dead, Hev, loop_arrive.
  eapply closed_loop; [|exact Hcl]. apply wf_arrive, wf_init.
Qed.

Lemma closed_interval_is_final_witness :
  ∃ note, (getNoteTimes doc_retrigger !!! 0%nat) !! 0%nat = Some note ∧
          (NoteTime.length note == 1 # 4)%Q.
Proof.
  eexists. split.
  - apply (closed_interval_is_final doc_retrigger
             [(0, 0); (0, 1)]%nat (0, 2)%nat []); [reflexivity|].
    split; [vm_compute; reflexivity|].
    vm_compute. intros H. inversion H as [|??? H']. inversion H'.
  - reflexivity.
Defined.







(** X24. The closing pass at the end of [getNoteTimes] never runs: the
    counter [unfinished] is lowered by every note-off, also by those that
    close nothing and by the one that every note-on does first, so it is
    never positive when the loop ends.  The value returned is the lists as
    the loop leaves them, and every interval that is still open then is
    returned with length -1. *)
Theorem closing_pass_never_runs m :
  unfinished (loop (events m) (init m)) ≤ 0 ∧
  getNoteTimes m = noteTimes (loop (events m) (init m)) ∧
  ∀ c ref, ref ∈ unfinishedNotes (loop (events m) (init m)) !!! c →
    ∃ note, (getNoteTimes m !!! c) !! ref = Some note ∧
            NoteTime.length note = (-1)%Q.
Proof.
  split; [apply (unfinished_loop (events m) (init m))|].
  unfold getNoteTimes. rewrite finish_dead. split; [done|].
  apply openProvisional_loop; [apply wf_init|apply openProvisional_init].
Qed.
End ExtractorLaws.

(** ** The widget *)

Module WidgetFacts.
Import Widget WidgetSpec.

(** *** Running the page's computations symbolically *)

Lemma bind_run {A B} (m : M A) (k : A → M B) w :
  (m ≫= k) w =
    match m w with
    | Done a w' => k a w'
    | Thrown error w' => Thrown error w'
    | OutOfFuel => OutOfFuel
    end.
Proof. reflexivity. Qed.

Lemma detached_run body w :
  detached body w =
    match body w with
    | Thrown _ w' => Done tt w'
    | r => r
    end.
Proof. reflexivity. Qed.

Lemma try_catch_run {A} (body : M A) handler w :
  try_catch body handler w =
    match body w with
    | Thrown error w' => handler error w'
    | r => r
    end.
Proof. reflexivity. Qed.

Lemma update_run this f w : update this f w = Done tt (alterElement this f w).
Proof. reflexivity. Qed.
Lemma modify_run f w : modify f w = Done tt (f w).
Proof. reflexivity. Qed.
Lemma widget_run this w : widget this w = Done (elements w this) w.
Proof. reflexivity. Qed.
Lemma world_run w : world w = Done w w.
Proof. reflexivity. Qed.
Lemma pass_run w : pass w = Done tt w.
Proof. reflexivity. Qed.
Lemma mret_run {A} (a : A) w : mret (M := M) a w = Done a w.
Proof. reflexivity. Qed.
Lemma throw_run {A} error w : throw (A := A) error w = Thrown error w.
Proof. reflexivity. Qed.
Lemma dispatchEvent_run this ev w :
  dispatchEvent this ev w = Done tt (logEvent this ev w).
Proof. reflexivity. Qed.
Lemma set_playingPlayer_run p w :
  set_playingPlayer p w = Done tt (putPlayingPlayer p w).
Proof. reflexivity. Qed.
Lemma outOfFuel_run {A} w : outOfFuel (A := A) w = OutOfFuel.
Proof. reflexivity. Qed.
Lemma setTimeout_run this w :
  setTimeout this w = Done (S (length (timers w))) (putTimers (timers w ++ [this]) w).
Proof. reflexivity. Qed.

(** The methods, unfolded where they are applied to a page. *)
Lemma readPlayer_run {A} this (getter : SpessaSynthPlayer.t → option A) w :
  readPlayer this getter w =
    match player (elements w this) ≫= getter with
    | Some a => Done a w
    | None => Thrown TypeError w
    end.
Proof. unfold readPlayer. rewrite bind_run, widget_run. by destruct (_ ≫= _). Qed.

Lemma onPlayer_run this method w :
  onPlayer this method w =
    match player (elements w this) ≫= method with
    | Some p => Done tt (alterElement this (set_player (Some p)) w)
    | None => Thrown TypeError w
    end.
Proof. unfold onPlayer. rewrite bind_run, widget_run. by destruct (_ ≫= _). Qed.

Lemma playerIsPlaying_run this w :
  playerIsPlaying this w =
    match player (elements w this) with
    | None => Done false w
    | Some p =>
        match SpessaSynthPlayer.seq p with
        | Some s => Done (negb (Sequencer.paused s)) w
        | None => Thrown TypeError w
        end
    end.
Proof.
  unfold playerIsPlaying. rewrite bind_run, widget_run. cbv beta iota.
  destruct (player (elements w this)) as [p|] eqn:Hp; [|done].
  rewrite readPlayer_run, Hp. unfold SpessaSynthPlayer.isPlaying. simpl.
  by destruct (SpessaSynthPlayer.seq p).
Qed.

Lemma set_currentTime_run this value w :
  set_currentTime this value w =
    let w1 := alterElement this (set_currentTimeLabel value)
                (alterElement this (set_seekBar_value value) w) in
    match player (elements w this) with
    | None => Done tt w1
    | Some p =>
        match SpessaSynthPlayer.seq p with
        | None => Thrown TypeError w1
        | Some s =>
            if Sequencer.paused s then Done tt w1
            else Done tt
                   (alterElement this
                      (set_player
                         (Some (SpessaSynthPlayer.set_seq
                                  (Sequencer.set_currentTime value s) p))) w1)
        end
    end.
Proof.
  unfold set_currentTime.
  rewrite bind_run, update_run. cbv beta iota.
  rewrite bind_run, widget_run. cbv beta iota.
  rewrite bind_run, update_run. cbv beta iota.
  rewrite bind_run, playerIsPlaying_run.
  cbn [elements alterElement]. rewrite !fn_lookup_alter.
  cbn [player set_currentTimeLabel set_seekBar_value get_currentTime seekBar_value].
  destruct (player (elements w this)) as [p|] eqn:Hp; [|done].
  destruct (SpessaSynthPlayer.seq p) as [s|] eqn:Hs; [|done].
  destruct (Sequencer.paused s) eqn:Hpaused; [done|].
  cbv beta iota. cbn [negb].
  rewrite onPlayer_run. cbn [elements alterElement]. rewrite !fn_lookup_alter.
  cbn [player set_currentTimeLabel set_seekBar_value]. rewrite Hp.
  unfold SpessaSynthPlayer.set_currentTime. simpl. by rewrite Hs.
Qed.


Ltac fields :=
  cbn [elements playingPlayer log timers context nextMidiId pending
       alterElement logEvent putPlayingPlayer putTimers putContext
       putNextMidiId putPending
       player soundfontBin ns seeking domInitialized initTimeout needInitNs
       _playing attr_src attr_soundFont attr_loop seekBar_value seekBar_max
       seekBar_disabled playButton_disabled currentTimeLabel totalTimeLabel
       classList title
       set_player set_soundfontBin set_ns set_seeking set_domInitialized
       set_initTimeout set_needInitNs set__playing set_attr_src
       set_attr_soundFont set_attr_loop set_seekBar_value set_seekBar_max
       set_seekBar_disabled set_playButton_disabled set_currentTimeLabel
       set_totalTimeLabel set_classList set_title classList_add
       classList_remove get_loop get_currentTime get_duration
       setLoading setLoaded setError backend
       SpessaSynthPlayer.seq SpessaSynthPlayer.synth
       SpessaSynthPlayer.soundfontBuffer SpessaSynthPlayer.midi
       SpessaSynthPlayer.set_seq
       Sequencer.paused Sequencer.currentTime Sequencer.songList
       Sequencer.synth Sequencer.play Sequencer.pause
       Sequencer.set_currentTime
       negb andb orb mbind option_bind fmap option_fmap option_map].

Ltac lookups :=
  repeat first
    [ rewrite fn_lookup_alter
    | rewrite fn_lookup_alter_ne by congruence ].

Ltac use_hyps :=
  repeat match goal with
         | H : ?x = _ |- context [?x] => rewrite H
         end.

Ltac expand2 f :=
  match goal with
  | |- context [f ?a ?w] =>
      let t := (eval cbv beta delta [f] in (f a w)) in change (f a w) with t
  end.
Ltac expand3 f :=
  match goal with
  | |- context [f ?a ?b ?w] =>
      let t := (eval cbv beta delta [f] in (f a b w)) in
      change (f a b w) with t
  end.
Ltac expand4 f :=
  match goal with
  | |- context [f ?a ?b ?c ?w] =>
      let t := (eval cbv beta delta [f] in (f a b c w)) in
      change (f a b c w) with t
  end.
Ltac expand5 f :=
  match goal with
  | |- context [f ?a ?b ?c ?d ?w] =>
      let t := (eval cbv beta delta [f] in (f a b c d w)) in
      change (f a b c d w) with t
  end.

Lemma _start_S n this looped w :
  _start (S n) this looped w =
    _start_body (stop_body (handleStop_body (_start n)))
      (handleStop_body (_start n)) this looped w.
Proof. reflexivity. Qed.

Ltac run1 :=
  first
    [ rewrite bind_run | rewrite detached_run | rewrite try_catch_run
    | rewrite update_run | rewrite widget_run | rewrite world_run
    | rewrite pass_run | rewrite mret_run | rewrite throw_run
    | rewrite dispatchEvent_run | rewrite set_playingPlayer_run
    | rewrite outOfFuel_run | rewrite modify_run
    | rewrite readPlayer_run | rewrite onPlayer_run
    | rewrite playerIsPlaying_run | rewrite set_currentTime_run
    | rewrite bool_decide_eq_false_2 by congruence
    | rewrite bool_decide_eq_true_2 by congruence
    | progress unfold SpessaSynthPlayer.isPlaying, SpessaSynthPlayer.play,
        SpessaSynthPlayer.pause, SpessaSynthPlayer.set_currentTime,
        SpessaSynthPlayer.get_currentTime, get_loop
    | expand2 seekBar_input | expand2 seekBar_change | expand3 noteCallback
    | expand3 stop_body | expand4 handleStop_body | expand5 _start_body
    | rewrite _start_S
    | progress (cbv beta iota zeta)
    | progress fields
    | progress lookups
    | progress use_hyps ].

Ltac run := repeat run1.


(** [_start] does nothing when the backend of [this] is playing. *)
Lemma _start_playing n this looped w s :
  backend (elements w this) = Some s → Sequencer.paused s = false →
  _start (S n) this looped w = Done tt w.
Proof.
  unfold backend. intros Hb Hs.
  destruct (player (elements w this)) as [p|] eqn:Hp; [|done].
  simpl in Hb. run. done.
Qed.


Ltac finish_run :=
  eexists; split; [reflexivity|]; fields; lookups; fields; use_hyps.











(** While [seeking] is set, [noteCallback] dispatches the [note] event and
    leaves the seek bar and the time label as they are. *)
Lemma noteCallback_while_seeking w this midiNote :
  seeking (elements w this) = true →
  ∃ w', noteCallback this midiNote w = Done tt w' ∧
        seekBar_value (elements w' this) = seekBar_value (elements w this) ∧
        currentTimeLabel (elements w' this) = currentTimeLabel (elements w this).
Proof.
  intros Hseek. run. destruct (_playing (elements w this)) eqn:Hpl; run.
  - finish_run. done.
  - finish_run. done.
Qed.

(** A drag of the seek bar of an element whose sequencer is playing,
    then its release: the [input] listener pauses the sequencer, and the
    [change] listener, which seeks and resumes only when the sequencer is
    playing, then does neither.  The sequencer stays paused where it
    was. *)
Lemma drag_and_release_leave_sequencer_paused env fuel w this s value :
  backend (elements w this) = Some s →
  Sequencer.paused s = false →
  ∃ w1 w',
    perform env fuel this (Drag value) w = Done tt w1 ∧
    perform env fuel this Release w1 = Done tt w' ∧
    seekBar_value (elements w' this) = value ∧
    seeking (elements w' this) = false ∧
    backend (elements w' this) = Some (Sequencer.pause s).
Proof.
  unfold backend, perform. intros Hb Hpaused.
  destruct (player (elements w this)) as [p|] eqn:Hp; [|done].
  simpl in Hb. eexists. eexists. split; [run; reflexivity|].
  run. split; [reflexivity|]. fields. lookups. fields. done.
Qed.

(** C5, at the failing input: element 0 of the example page is connected
    and started (its sequencer plays from 0), the user drags the seek bar
    to 10 and releases it.  The seek bar shows 10, [seeking] is cleared,
    and the sequencer is paused at 0: the position was not committed and
    playback did not resume. *)
Theorem release_after_drag_neither_seeks_nor_resumes :
  view 0 <$> performAll env0 2 (loaded 0 ++ [(0%nat, CallStart)]) (page0 true)
    = Some (Some false, Some 0%Q, 0%Q, true, false) ∧
  view 0 <$> performAll env0 2
               (loaded 0 ++
                [(0%nat, CallStart); (0%nat, Drag 10); (0%nat, Release)])
               (page0 true)
    = Some (Some true, Some 0%Q, 10%Q, true, false).
Proof. split; vm_compute; reflexivity. Qed.

(** A load that finds the buffer cached requests no sound font: it
    gives the cached buffer to the player it creates. *)
Lemma initPlayerNow_ns_cached w this b :
  soundfontBin (elements w this) = Some b →
  ∃ w', initPlayerNow_ns this w = Done tt w' ∧
        pending w' = pending w ∧
        soundfontBin (elements w' this) = Some b ∧
        soundFontFetches this (log w') = soundFontFetches this (log w) ∧
        (player (elements w' this) = player (elements w this) ∨
         bank (elements w' this) = Some b).
Proof.
  intros Hbin. unfold initPlayerNow_ns. run.
  destruct (ns (elements w this)) as [ns0|] eqn:Hns; run.
  - destruct (attr_soundFont (elements w this)) as [sf|] eqn:Hsf; run.
    + unfold initPlayerNow_player, player_initPlayer. run. simpl. run.
      simpl. run. rewrite decide_True by done. run.
      finish_run. unfold soundFontFetches, dispatchedBy.
      rewrite !omap_app. simpl. rewrite decide_True by done. simpl.
      rewrite app_nil_r. repeat split. by right.
    + finish_run. repeat split. by left.
  - finish_run. repeat split. by left.
Qed.

(** C10, at the failing input.  The second load of element 0 starts
    while the first one waits for [a.sf2]: it finds no buffer cached and
    requests a sound font too, [b.sf2].  When [a.sf2] arrives
    the element caches it and its player uses it; when [b.sf2] arrives
    the element replaces the cached buffer, and the player it creates
    uses [b.sf2].  The element has fetched the sound font twice. *)
Theorem overlapping_loads_fetch_sound_font_twice :
  soundFontAfter second_load_starts = Some (["a.sf2"; "b.sf2"], None, None) ∧
  soundFontAfter (second_load_starts ++ [(0%nat, FetchSettles 0)]) =
    Some (["a.sf2"; "b.sf2"],
          Some (String.list_byte_of_string "a.sf2"),
          Some (String.list_byte_of_string "a.sf2")) ∧
  soundFontAfter
    (second_load_starts ++ [(0%nat, FetchSettles 0); (0%nat, FetchSettles 0)]) =
    Some (["a.sf2"; "b.sf2"],
          Some (String.list_byte_of_string "b.sf2"),
          Some (String.list_byte_of_string "b.sf2")).
Proof. repeat split; vm_compute; reflexivity. Qed.

(** *** The cached sound font *)

Section keeps.
Context {P : World → Prop}.

Lemma keeps_bind {A B} (m : M A) (k : A → M B) :
  keeps P m → (∀ a, keeps P (k a)) → keeps P (m ≫= k).
Proof.
  intros Hm Hk w Hw. rewrite bind_run. specialize (Hm w Hw).
  destruct (m w) as [a w'| |]; [|done..]. by apply Hk.
Qed.

Lemma keeps_try_catch {A} (body : M A) handler :
  keeps P body → (∀ error, keeps P (handler error)) →
  keeps P (try_catch body handler).
Proof.
  intros Hm Hk w Hw. rewrite try_catch_run. specialize (Hm w Hw).
  destruct (body w) as [a w'|error w'|]; [done| |done]. by apply Hk.
Qed.

Lemma keeps_detached body : keeps P body → keeps P (detached body).
Proof.
  intros Hm w Hw. rewrite detached_run. specialize (Hm w Hw).
  by destruct (body w).
Qed.

Lemma keeps_pass : keeps P pass.
Proof. by intros w Hw. Qed.
Lemma keeps_mret {A} (a : A) : keeps P (mret a).
Proof. by intros w Hw. Qed.
Lemma keeps_throw {A} error : keeps P (throw (A := A) error).
Proof. by intros w Hw. Qed.
Lemma keeps_outOfFuel {A} : keeps P (outOfFuel (A := A)).
Proof. by intros w Hw. Qed.
Lemma keeps_widget this : keeps P (widget this).
Proof. by intros w Hw. Qed.
Lemma keeps_world : keeps P world.
Proof. by intros w Hw. Qed.
Lemma keeps_readPlayer {A} this (getter : SpessaSynthPlayer.t → option A) :
  keeps P (readPlayer this getter).
Proof. intros w Hw. rewrite readPlayer_run. by destruct (_ ≫= _). Qed.
Lemma keeps_playerIsPlaying this : keeps P (playerIsPlaying this).
Proof.
  intros w Hw. rewrite playerIsPlaying_run.
  destruct (player (elements w this)) as [p|]; [|done].
  by destruct (SpessaSynthPlayer.seq p).
Qed.
Lemma keeps_modify f : (∀ w, P w → P (f w)) → keeps P (modify f).
Proof. intros Hf w Hw. by apply Hf. Qed.
End keeps.

(** What a page may do to [this] without touching what [cached] speaks
    of. *)
Section cached.
Variables (this : nat) (b : list byte) (fetches : list string)
  (bank0 : option (list byte)).

Let C := cached this b fetches bank0.

Lemma cached_alterElement this' f w :
  this' ≠ this ∨
    (soundfontBin (f (elements w this)) = soundfontBin (elements w this) ∧
     bank (f (elements w this)) = bank (elements w this)) →
  C w → C (alterElement this' f w).
Proof.
  intros Hf (Hbin & Hpend & Hlog & Hbank).
  unfold C, cached, noSoundFontPending. cbn [elements alterElement log pending].
  destruct (decide (this' = this)) as [->|Hne].
  - rewrite fn_lookup_alter. destruct Hf as [?|[-> ->]]; done.
  - by rewrite fn_lookup_alter_ne.
Qed.

Lemma cached_logEvent this' ev w :
  this' ≠ this ∨ (∀ url, ev ≠ FetchSoundFont url) →
  C w → C (logEvent this' ev w).
Proof.
  intros Hev (Hbin & Hpend & Hlog & Hbank).
  unfold C, cached, noSoundFontPending. cbn [elements logEvent log pending].
  repeat split; [done..| |done].
  unfold soundFontFetches, dispatchedBy in *. rewrite omap_app, omap_app, Hlog.
  simpl. case_decide as Heq; simpl; [|by rewrite app_nil_r].
  destruct Hev as [Hne|Hev]; [done|].
  destruct ev; simpl; rewrite ?app_nil_r; try done. by destruct (Hev url).
Qed.

Lemma keeps_update this' f :
  this' ≠ this ∨ (∀ e, soundfontBin (f e) = soundfontBin e ∧ bank (f e) = bank e) →
  keeps C (update this' f).
Proof.
  intros Hf w Hw. rewrite update_run. apply cached_alterElement; [|done].
  destruct Hf as [?|Hf]; [by left|right; apply Hf].
Qed.

Lemma keeps_onPlayer this' method :
  this' ≠ this ∨
    (∀ p p', method p = Some p' →
             SpessaSynthPlayer.synth p' = SpessaSynthPlayer.synth p) →
  keeps C (onPlayer this' method).
Proof.
  intros Hm w Hw. rewrite onPlayer_run.
  destruct (player (elements w this') ≫= method) as [p'|] eqn:Hp; [|done].
  apply cached_alterElement; [|done].
  destruct Hm as [?|Hm]; [by left|].
  destruct (decide (this' = this)) as [->|?]; [right|by left].
  split; [done|]. unfold bank. simpl.
  destruct (player (elements w this)) as [p|]; [|done]. simpl in Hp.
  by rewrite (Hm p p' Hp).
Qed.

Lemma keeps_dispatchEvent this' ev :
  this' ≠ this ∨ (∀ url, ev ≠ FetchSoundFont url) →
  keeps C (dispatchEvent this' ev).
Proof. intros Hev w Hw. rewrite dispatchEvent_run. by apply cached_logEvent. Qed.

Lemma keeps_set_playingPlayer p : keeps C (set_playingPlayer p).
Proof. by intros w Hw. Qed.

Lemma keeps_setTimeout this' : keeps C (setTimeout this').
Proof. by intros w Hw. Qed.

Lemma keeps_newMIDI env midiBuf : keeps C (newMIDI env midiBuf).
Proof. intros w Hw. unfold newMIDI. by destruct (decode env midiBuf). Qed.

Lemma keeps_fetched env request url : keeps C (fetched env request url).
Proof. intros w Hw. unfold fetched. by destruct (fetch env request url). Qed.

Lemma synth_set_seq s p :
  SpessaSynthPlayer.synth (SpessaSynthPlayer.set_seq s p) =
    SpessaSynthPlayer.synth p.
Proof. reflexivity. Qed.

Lemma synth_seq_method (f : Sequencer.t → Sequencer.t) p p' :
  (λ s, SpessaSynthPlayer.set_seq (f s) p) <$> SpessaSynthPlayer.seq p = Some p' →
  SpessaSynthPlayer.synth p' = SpessaSynthPlayer.synth p.
Proof. destruct (SpessaSynthPlayer.seq p); simpl; [|done]. by intros [= <-]. Qed.

Ltac quiet :=
  first
    [ by left
    | right; intros ?; split; reflexivity
    | right; intros ?; discriminate
    | right; intros ??; apply synth_seq_method
    | right; by intros ?? [= <-] ].

Lemma keeps_set_currentTime this' value : keeps C (set_currentTime this' value).
Proof.
  unfold set_currentTime.
  apply keeps_bind; [apply keeps_update; quiet|intros _].
  apply keeps_bind; [apply keeps_widget|intros el].
  apply keeps_bind; [apply keeps_update; quiet|intros _].
  apply keeps_bind; [apply keeps_playerIsPlaying|intros [|]].
  - apply keeps_onPlayer; quiet.
  - apply keeps_pass.
Qed.

Ltac keeps_step :=
  lazymatch goal with
  | |- keeps _ (_ ≫= _) => apply keeps_bind; [|intros ?]
  | |- keeps _ (detached _) => apply keeps_detached
  | |- keeps _ (try_catch _ _) => apply keeps_try_catch; [|intros ?]
  | |- keeps _ (catching _ _) => apply keeps_try_catch; [|intros ?]
  | |- keeps _ pass => apply keeps_pass
  | |- keeps _ (mret _) => apply keeps_mret
  | |- keeps _ (throw _) => apply keeps_throw
  | |- keeps _ outOfFuel => apply keeps_outOfFuel
  | |- keeps _ (widget _) => apply keeps_widget
  | |- keeps _ world => apply keeps_world
  | |- keeps _ (readPlayer _ _) => apply keeps_readPlayer
  | |- keeps _ (playerIsPlaying _) => apply keeps_playerIsPlaying
  | |- keeps _ (update _ _) => apply keeps_update; quiet
  | |- keeps _ (onPlayer _ _) => apply keeps_onPlayer; quiet
  | |- keeps _ (dispatchEvent _ _) => apply keeps_dispatchEvent; quiet
  | |- keeps _ (set_playingPlayer _) => apply keeps_set_playingPlayer
  | |- keeps _ (setTimeout _) => apply keeps_setTimeout
  | |- keeps _ (newMIDI _ _) => apply keeps_newMIDI
  | |- keeps _ (fetched _ _ _) => apply keeps_fetched
  | |- keeps _ (set_currentTime _ _) => apply keeps_set_currentTime
  | |- keeps _ (modify (putContext _)) => apply keeps_modify; by intros ??
  | |- keeps _ (if ?c then _ else _) => destruct c
  | |- keeps _ (match ?x with _ => _ end) => destruct x
  end.


Lemma keeps_handleStop_body _start this' finished :
  (∀ t looped, keeps C (_start t looped)) →
  keeps C (handleStop_body _start this' finished).
Proof.
  intros Hstart. unfold handleStop_body.
  repeat first [ keeps_step | apply Hstart ].
Qed.

Lemma keeps_stop_body handleStop this' :
  (∀ t finished, keeps C (handleStop t finished)) →
  keeps C (stop_body handleStop this').
Proof.
  intros Hstop. unfold stop_body. repeat first [ keeps_step | apply Hstop ].
Qed.

Lemma keeps__start_body stop handleStop this' looped :
  (∀ t, keeps C (stop t)) →
  (∀ t finished, keeps C (handleStop t finished)) →
  keeps C (_start_body stop handleStop this' looped).
Proof.
  intros Hstop HhandleStop. unfold _start_body.
  repeat first [ keeps_step | apply Hstop | apply HhandleStop ].
Qed.

Lemma keeps__start fuel this' looped : keeps C (_start fuel this' looped).
Proof.
  revert this' looped. induction fuel as [|n IH]; intros this' looped.
  - apply keeps_outOfFuel.
  - cbn [_start]. apply keeps__start_body.
    + intros t. apply keeps_stop_body. intros t' f.
      by apply keeps_handleStop_body.
    + intros t f. by apply keeps_handleStop_body.
Qed.

Lemma keeps_handleStop fuel this' finished :
  keeps C (handleStop fuel this' finished).
Proof. apply keeps_handleStop_body. intros. apply keeps__start. Qed.

Lemma keeps_stop fuel this' : keeps C (stop fuel this').
Proof. apply keeps_stop_body. intros. apply keeps_handleStop. Qed.

Lemma keeps_await_fetch this' request url continuation :
  this' ≠ this ∨ (∀ u u', request u ≠ FetchSoundFont u') →
  (∀ r u ns0 r' u', continuation r u ≠ AwaitSoundFont this ns0 r' u') →
  keeps C (await_fetch this' request url continuation).
Proof.
  intros Hreq Hcont. unfold await_fetch.
  apply keeps_bind; [apply keeps_world|intros w0].
  apply keeps_bind.
  - apply keeps_dispatchEvent. destruct Hreq as [?|Hreq]; [by left|right].
    intros u'. apply Hreq.
  - intros _. apply keeps_modify. intros w (Hbin & Hpend & Hlog & Hbank).
    split; [done|]. split; [|done].
    intros ns0 r' u'. cbn [pending putPending].
    rewrite elem_of_app, list_elem_of_singleton.
    intros [Hin|Heq]; [by eapply Hpend|]. by eapply Hcont.
Qed.

Lemma keeps_initPlayerNow_player this' ns0 :
  keeps C (initPlayerNow_player this' ns0).
Proof.
  unfold initPlayerNow_player, player_initPlayer.
  destruct (decide (this' = this)) as [->|Hne]; [|repeat keeps_step].
  intros w (Hbin & Hpend & Hlog & Hbank). run. simpl. run. simpl. run.
  destruct (decide (ns (elements w this) = Some ns0)); run.
  - split; [by fields; lookups; fields|]. split; [done|]. split.
    + fields. unfold soundFontFetches, dispatchedBy in *.
      rewrite !omap_app, Hlog. simpl. rewrite decide_True by done. simpl.
      by rewrite app_nil_r.
    + right. by fields; lookups; fields.
  - split; [by fields; lookups; fields|]. split; [done|]. split; [done|].
    right. by fields; lookups; fields.
Qed.

Lemma keeps_initPlayerNow_ns this' : keeps C (initPlayerNow_ns this').
Proof.
  unfold initPlayerNow_ns.
  apply keeps_bind; [apply keeps_widget|intros el0].
  destruct (ns el0) as [ns0|]; [|repeat keeps_step].
  apply keeps_bind; [keeps_step|intros _].
  apply keeps_bind; [keeps_step|intros _].
  destruct (decide (this' = this)) as [->|Hne].
  - intros w Hw. rewrite bind_run, widget_run. cbv beta iota.
    destruct (attr_soundFont (elements w this)) as [sf|]; [|done].
    destruct Hw as (Hbin & Hw). rewrite Hbin. cbv beta iota zeta.
    by apply keeps_initPlayerNow_player.
  - apply keeps_bind; [apply keeps_widget|intros el].
    destruct (attr_soundFont el) as [sf|]; [|apply keeps_pass].
    cbv zeta. destruct (soundfontBin el).
    + apply keeps_initPlayerNow_player.
    + apply keeps_await_fetch; [by left|]. by intros ????? [=].
Qed.

Lemma keeps_initPlayerNow_content this' : keeps C (initPlayerNow_content this').
Proof.
  unfold initPlayerNow_content.
  repeat first [ keeps_step | apply keeps_initPlayerNow_ns ].
Qed.

Lemma keeps_initPlayerNow this' initNs : keeps C (initPlayerNow this' initNs).
Proof.
  unfold initPlayerNow.
  repeat first
    [ keeps_step | apply keeps_initPlayerNow_ns | apply keeps_initPlayerNow_content
    | apply keeps_await_fetch; [by right|by intros ?????] ].
Qed.

Lemma keeps_resume env p :
  (∀ ns0 request url, p ≠ AwaitSoundFont this ns0 request url) →
  keeps C (resume env p).
Proof.
  intros Hp. destruct p as [this' request url|this' ns0 request url];
    cbn [resume].
  - repeat first [ keeps_step | apply keeps_initPlayerNow_content ].
  - assert (this' ≠ this) by (intros ->; by eapply Hp).
    repeat first [ keeps_step | apply keeps_initPlayerNow_player ].
Qed.

Lemma keeps_fetchSettles env k : keeps C (fetchSettles env k).
Proof.
  unfold fetchSettles. intros w Hw. rewrite bind_run, world_run.
  cbv beta iota. destruct (pending w !! k) as [p|] eqn:Hk; [|done].
  assert (C (putPending (delete k (pending w)) w)) as Hw'.
  { destruct Hw as (Hbin & Hpend & Hlog & Hbank). split; [done|].
    split; [|done]. intros ns0 r u Hin. cbn [pending putPending] in Hin.
    eapply Hpend, list_elem_of_delete_inv, Hin. }
  rewrite bind_run, modify_run. cbv beta iota.
  apply keeps_resume; [|done].
  intros ns0 r u ->. destruct Hw as (_ & Hpend & _).
  eapply Hpend, list_elem_of_lookup_2, Hk.
Qed.

Lemma keeps_initPlayer fuel this' initNs : keeps C (initPlayer fuel this' initNs).
Proof. unfold initPlayer. repeat first [ keeps_step | apply keeps_stop ]. Qed.

Lemma keeps_timerFires this' : keeps C (timerFires this').
Proof.
  intros w Hw. unfold timerFires. destruct (timers w) as [|t rest]; [done|].
  case_decide; [|done].
  apply (keeps_bind (widget this')); [apply keeps_widget| |done].
  intros el. apply keeps_initPlayerNow.
Qed.

Lemma keeps_setOrRemoveAttribute fuel this' name value :
  keeps C (setOrRemoveAttribute fuel this' name value).
Proof.
  unfold setOrRemoveAttribute, attributeChangedCallback.
  destruct name;
    repeat first [ keeps_step | apply keeps_initPlayer ].
Qed.

Lemma keeps_perform env fuel this' t : keeps C (perform env fuel this' t).
Proof.
  destruct t; cbn [perform];
    unfold connectedCallback, set_src, set_soundFont, set_loop, reload,
      start, playButton_click, seekBar_input, seekBar_change, noteCallback;
    repeat first
      [ keeps_step | apply keeps_initPlayerNow | apply keeps_initPlayer
      | apply keeps_setOrRemoveAttribute | apply keeps_timerFires
      | apply keeps__start | apply keeps_stop | apply keeps_handleStop
      | apply keeps_fetchSettles ].
Qed.

(** Once [this] has cached a buffer and none of its loads waits for a
    sound font, nothing that happens on the page makes it request a
    sound font again or replace the buffer, and the bank of its player
    is the one it was or the cached buffer. *)
Lemma cached_performAll env fuel tasks w w' :
  C w → performAll env fuel tasks w = Some w' → C w'.
Proof.
  revert w. induction tasks as [|[this' t] tasks IH]; intros w Hw Hrun.
  - by injection Hrun as <-.
  - cbn [performAll] in Hrun. pose proof (keeps_perform env fuel this' t w Hw) as H.
    destruct (perform env fuel this' t w) as [? w1|? w1|]; [by eapply IH..|done].
Qed.

End cached.

(** *** Fuel: two levels of [_start] are enough *)

Lemma ends_bind {A B} (m : M A) (k : A → M B) :
  ends m → (∀ a, ends (k a)) → ends (m ≫= k).
Proof.
  intros Hm Hk w. rewrite bind_run. specialize (Hm w).
  destruct (m w) as [a w'| |]; [apply Hk|done..].
Qed.

Lemma ends_try_catch {A} (body : M A) handler :
  ends body → (∀ error, ends (handler error)) → ends (try_catch body handler).
Proof.
  intros Hm Hk w. rewrite try_catch_run. specialize (Hm w).
  destruct (body w) as [a w'|error w'|]; [done|apply Hk|done].
Qed.

Lemma ends_detached body : ends body → ends (detached body).
Proof.
  intros Hm w. rewrite detached_run. specialize (Hm w). by destruct (body w).
Qed.

Lemma ends_readPlayer {A} this (getter : SpessaSynthPlayer.t → option A) :
  ends (readPlayer this getter).
Proof. intros w. rewrite readPlayer_run. by destruct (_ ≫= _). Qed.

Lemma ends_onPlayer this method : ends (onPlayer this method).
Proof. intros w. rewrite onPlayer_run. by destruct (_ ≫= _). Qed.

Lemma ends_playerIsPlaying this : ends (playerIsPlaying this).
Proof.
  intros w. rewrite playerIsPlaying_run.
  destruct (player (elements w this)) as [p|]; [|done].
  by destruct (SpessaSynthPlayer.seq p).
Qed.

Lemma ends_set_currentTime this value : ends (set_currentTime this value).
Proof.
  intros w. rewrite set_currentTime_run. cbv zeta.
  destruct (player (elements w this)) as [p|]; [|done].
  destruct (SpessaSynthPlayer.seq p) as [s|]; [|done].
  by destruct (Sequencer.paused s).
Qed.

Lemma ends_fetched env request url : ends (fetched env request url).
Proof. intros w. unfold fetched. by destruct (fetch env request url). Qed.

Lemma ends_newMIDI env midiBuf : ends (newMIDI env midiBuf).
Proof. intros w. unfold newMIDI. by destruct (decode env midiBuf). Qed.

Ltac ends_step :=
  lazymatch goal with
  | |- ends (fetched _ _ _) => apply ends_fetched
  | |- ends (newMIDI _ _) => apply ends_newMIDI
  | |- ends (_ ≫= _) => apply ends_bind; [|intros ?]
  | |- ends (detached _) => apply ends_detached
  | |- ends (try_catch _ _) => apply ends_try_catch; [|intros ?]
  | |- ends (catching _ _) => apply ends_try_catch; [|intros ?]
  | |- ends (readPlayer _ _) => apply ends_readPlayer
  | |- ends (onPlayer _ _) => apply ends_onPlayer
  | |- ends (playerIsPlaying _) => apply ends_playerIsPlaying
  | |- ends (set_currentTime _ _) => apply ends_set_currentTime
  | |- ends pass => by intros ?
  | |- ends (mret _) => by intros ?
  | |- ends (throw _) => by intros ?
  | |- ends (widget _) => by intros ?
  | |- ends world => by intros ?
  | |- ends (update _ _) => by intros ?
  | |- ends (modify _) => by intros ?
  | |- ends (dispatchEvent _ _) => by intros ?
  | |- ends (set_playingPlayer _) => by intros ?
  | |- ends (setTimeout _) => by intros ?
  | |- ends (if ?c then _ else _) => destruct c
  | |- ends (match ?x with _ => _ end) => destruct x
  end.

(** [handleStop(false)] does not call [_start]. *)
Lemma ends_handleStop_false _start this :
  ends (handleStop_body _start this false).
Proof. unfold handleStop_body. cbn [andb]. repeat ends_step. Qed.

Lemma ends_stop_body _start this :
  ends (stop_body (handleStop_body _start) this).
Proof.
  unfold stop_body. repeat first [ ends_step | apply ends_handleStop_false ].
Qed.

(** [handleStop(true)] on an element whose sequencer is playing: the
    call of [_start] that it makes finds it playing and returns. *)
Lemma handleStop_true_playing_ends n this w s :
  backend (elements w this) = Some s → Sequencer.paused s = false →
  handleStop_body (_start (S n)) this true w ≠ OutOfFuel.
Proof.
  unfold backend. intros Hb Hs.
  destruct (player (elements w this)) as [p|] eqn:Hp; [|done].
  simpl in Hb. unfold handleStop_body. run.
  destruct (attr_loop (elements w this)); run; [done|].
  destruct (_playing (elements w this)); run; done.
Qed.

Lemma play_then_handleStop_ends n this looped :
  ends (onPlayer this SpessaSynthPlayer.play ;;
        (if negb looped
         then dispatchEvent this StartEvent
         else dispatchEvent this LoopEvent) ;;
        handleStop_body (_start (S n)) this true).
Proof.
  intros w. rewrite bind_run, onPlayer_run.
  destruct (player (elements w this)) as [p|] eqn:Hp; [|done]. simpl.
  unfold SpessaSynthPlayer.play.
  destruct (SpessaSynthPlayer.seq p) as [s|] eqn:Hs; [|done]. simpl.
  rewrite bind_run.
  destruct looped; cbn [negb]; rewrite dispatchEvent_run; cbv beta iota;
    apply (handleStop_true_playing_ends _ _ _ (Sequencer.play s));
    unfold backend; fields; lookups; done.
Qed.

Ltac ends_start_step n :=
  lazymatch goal with
  | |- ends (onPlayer _ SpessaSynthPlayer.play ≫= _) =>
      apply (play_then_handleStop_ends n)
  | |- ends (stop_body _ _) => apply ends_stop_body
  | |- ends (handleStop_body _ _ false) => apply ends_handleStop_false
  | |- _ => ends_step
  end.

Lemma ends__start n this looped : ends (_start (S (S n)) this looped).
Proof.
  intros w. rewrite _start_S. revert w.
  change (ends (_start_body (stop_body (handleStop_body (_start (S n))))
                  (handleStop_body (_start (S n))) this looped)).
  unfold _start_body. repeat ends_start_step n.
Qed.

Lemma ends_handleStop n this finished :
  ends (handleStop (S (S n)) this finished).
Proof.
  unfold handleStop. destruct finished; [|apply ends_handleStop_false].
  unfold handleStop_body. repeat first [ ends_step | apply ends__start ].
Qed.

Lemma ends_stop fuel this : ends (stop fuel this).
Proof. apply ends_stop_body. Qed.

Lemma ends_initPlayerNow_ns this : ends (initPlayerNow_ns this).
Proof.
  unfold initPlayerNow_ns, initPlayerNow_player, player_initPlayer, await_fetch.
  repeat ends_step.
Qed.

Lemma ends_initPlayerNow_content this : ends (initPlayerNow_content this).
Proof.
  unfold initPlayerNow_content.
  repeat first [ ends_step | apply ends_initPlayerNow_ns ].
Qed.

Lemma ends_initPlayerNow this initNs : ends (initPlayerNow this initNs).
Proof.
  unfold initPlayerNow, await_fetch.
  repeat first
    [ ends_step | apply ends_initPlayerNow_ns | apply ends_initPlayerNow_content ].
Qed.

Lemma ends_initPlayer fuel this initNs : ends (initPlayer fuel this initNs).
Proof. unfold initPlayer. repeat first [ ends_step | apply ends_stop ]. Qed.

Lemma ends_fetchSettles env k : ends (fetchSettles env k).
Proof.
  unfold fetchSettles. apply ends_bind; [by intros ?|intros w].
  destruct (pending w !! k) as [[this request url|this ns0 request url]|];
    [| |by intros ?];
    (apply ends_bind; [by intros ?|intros _]); cbn [resume];
    unfold initPlayerNow_player, player_initPlayer;
    repeat first [ ends_step | apply ends_initPlayerNow_content | by intros ? ].
Qed.

Lemma ends_perform env n this t : ends (perform env (S (S n)) this t).
Proof.
  destruct t; cbn [perform];
    unfold connectedCallback, set_src, set_soundFont, set_loop, reload,
      start, playButton_click, seekBar_input, seekBar_change, noteCallback,
      setOrRemoveAttribute, attributeChangedCallback;
    try match goal with |- ends (timerFires _) =>
          intros w; unfold timerFires; destruct (timers w); [done|];
          case_decide; [|done];
          apply (ends_bind (widget this)); [by intros ?|];
          intros ?; apply ends_initPlayerNow
        end;
    repeat first
      [ ends_step | apply ends_initPlayerNow | apply ends_initPlayer
      | apply ends__start | apply ends_stop | apply ends_handleStop
      | apply ends_fetchSettles ].
Qed.

(** With fuel for two levels of [_start], every run of the page comes to
    an end. *)
Lemma performAll_ends env n tasks w :
  is_Some (performAll env (S (S n)) tasks w).
Proof.
  revert w. induction tasks as [|[this t] tasks IH]; intros w; [done|].
  cbn [performAll]. pose proof (ends_perform env n this t w) as H.
  destruct (perform env (S (S n)) this t w); [apply IH..|done].
Qed.

(** Once [this] has cached a buffer and none of its loads waits for a
    sound font, whatever happens on the page afterwards, [this] requests
    no sound font again and keeps the buffer, and the bank of its player
    is the one it was or the cached buffer. *)
Lemma cached_sound_font_is_kept env n tasks this b w :
  soundfontBin (elements w this) = Some b →
  noSoundFontPending this w →
  ∃ w', performAll env (S (S n)) tasks w = Some w' ∧
        soundfontBin (elements w' this) = Some b ∧
        noSoundFontPending this w' ∧
        soundFontFetches this (log w') = soundFontFetches this (log w) ∧
        (bank (elements w' this) = bank (elements w this) ∨
         bank (elements w' this) = Some b).
Proof.
  intros Hbin Hpend.
  destruct (performAll_ends env n tasks w) as [w' Hrun].
  exists w'. split; [done|].
  apply (cached_performAll this b (soundFontFetches this (log w))
           (bank (elements w this)) env (S (S n)) tasks w w'); [|done].
  split; [done|]. split; [done|]. split; [done|]. by left.
Qed.
End WidgetFacts.

(** ** The widget: further properties *)

Module WidgetLaws.
Import Widget WidgetSpec WidgetFacts WidgetAccessors WidgetScenes.

(** *** Starting and stopping *)



Lemma stop_run w fuel this s :
  backend (elements w this) = Some s →
  ∃ w', stop fuel this w = Done tt w' ∧
        backend (elements w' this) =
          Some (Sequencer.mk true (Sequencer.currentTime s)
                  (Sequencer.songList s) (Sequencer.synth s)) ∧
        _playing (elements w' this) = false ∧
        log w' = log w ++ (if _playing (elements w this)
                           then [(this, StopEvent false)] else []) ∧
        seekBar_value (elements w' this) = seekBar_value (elements w this) ∧
        playingPlayer w' = playingPlayer w.
Proof.
  unfold backend, stop. intros Hb.
  destruct (player (elements w this)) as [p|] eqn:Hp; [|done].
  simpl in Hb. run.
  destruct (Sequencer.paused s) eqn:Hpaused; run; unfold handleStop; run;
    destruct (_playing (elements w this)) eqn:Hpl; run;
    (eexists; split; [reflexivity|]); fields; lookups; fields;
    rewrite ?Hp, ?app_nil_r; fields; rewrite ?Hb; fields;
    repeat split; try done;
    destruct s; simpl in *; by subst.
Qed.

(** X2. [stop()] on an element with a loaded player leaves the sequencer
    paused where it was and the element not playing; it dispatches
    [stop] with [finished = false] when the element was playing and
    nothing otherwise, and it touches neither the seek bar nor
    [playingPlayer].  A second [stop()] therefore dispatches nothing. *)
Theorem stop_pauses_and_reports_once w fuel this s :
  backend (elements w this) = Some s →
  ∃ w', stop fuel this w = Done tt w' ∧
        backend (elements w' this) =
          Some (Sequencer.mk true (Sequencer.currentTime s)
                  (Sequencer.songList s) (Sequencer.synth s)) ∧
        _playing (elements w' this) = false ∧
        log w' = log w ++ (if _playing (elements w this)
                           then [(this, StopEvent false)] else []) ∧
        seekBar_value (elements w' this) = seekBar_value (elements w this) ∧
        playingPlayer w' = playingPlayer w ∧
        ∃ w'', stop fuel this w' = Done tt w'' ∧ log w'' = log w'.
Proof.
  intros Hb.
  destruct (stop_run w fuel this s Hb) as (w' & Hrun & Hb' & Hpl & Hlog & Hbar & Hpp).
  exists w'. repeat (split; [done|]).
  destruct (stop_run w' fuel this _ Hb') as (w'' & Hrun' & _ & _ & Hlog' & _).
  exists w''. split; [done|]. by rewrite Hlog', Hpl, app_nil_r.
Qed.

Lemma stop_pauses_and_reports_once_witness :
  ∃ w', stop 0 0 page_playing = Done tt w' ∧
        log w' = log page_playing ++ [(0%nat, StopEvent false)] ∧
        _playing (elements w' 0%nat) = false.
Proof.
  destruct (stop_pauses_and_reports_once page_playing 0 0%nat seq_playing)
    as (w' & Hrun & _ & Hpl & Hlog & _).
  - vm_compute. reflexivity.
  - exists w'. split; [exact Hrun|]. split; [exact Hlog|exact Hpl].
Defined.

(** X3. [start()] on a loaded, paused element without [loop], when no
    element is playing: [_start] calls [handleStop(true)] right after
    [play()], so the element dispatches [start] and at once [stop] with
    [finished = true], and is left not playing, its seek bar at the
    duration; the sequencer is playing, sought to that position, and the
    element is [playingPlayer]. *)
Theorem start_without_loop_stops_at_once w n this s :
  backend (elements w this) = Some s →
  Sequencer.paused s = true →
  get_loop (elements w this) = false →
  (∀ other, playingPlayer w = Some other → _playing (elements w other) = false) →
  ∃ w', start (S n) this w = Done tt w' ∧
        log w' = log w ++ [(this, StartEvent); (this, StopEvent true)] ∧
        _playing (elements w' this) = false ∧
        playingPlayer w' = Some this ∧
        seekBar_value (elements w' this) = seekBar_max (elements w this) ∧
        backend (elements w' this) =
          Some (Sequencer.mk false (seekBar_max (elements w this))
                  (Sequencer.songList s) (Sequencer.synth s)).
Proof.
  unfold backend, start, get_loop. intros Hb Hpaused Hloop Hnone.
  destruct (player (elements w this)) as [p|] eqn:Hp; [|done].
  simpl in Hb.
  destruct (attr_loop (elements w this)) as [lp|] eqn:Hlp;
    [by rewrite bool_decide_eq_true_2 in Hloop|].
  run. destruct (playingPlayer w) as [other|] eqn:Hpp.
  - rewrite (Hnone other eq_refl). run. finish_run.
    rewrite <- ?app_assoc. done.
  - run. finish_run. rewrite <- ?app_assoc. done.
Qed.

Lemma start_without_loop_stops_at_once_witness :
  ∃ w', start 1 0 page_loaded = Done tt w' ∧
        log w' = log page_loaded ++ [(0%nat, StartEvent); (0%nat, StopEvent true)] ∧
        _playing (elements w' 0%nat) = false ∧
        seekBar_value (elements w' 0%nat) = 100%Q.
Proof.
  destruct (start_without_loop_stops_at_once page_loaded 0 0%nat (seq_loaded 0))
    as (w' & Hrun & Hlog & Hpl & _ & Hbar & _).
  - vm_compute. reflexivity.
  - reflexivity.
  - vm_compute. reflexivity.
  - intros other H. vm_compute in H. discriminate H.
  - exists w'. split; [exact Hrun|]. split; [exact Hlog|]. split; [exact Hpl|].
    rewrite Hbar. vm_compute. reflexivity.
Defined.

(** X4. [noteCallback] never touches the player or another element.  It
    dispatches [note] exactly when the element is playing; it moves the
    seek bar and the time label only when the element is playing and not
    seeking, and then to the position of the sequencer. *)
Theorem noteCallback_effects w this midiNote :
  match noteCallback this midiNote w with
  | Done _ w' | Thrown _ w' =>
      player (elements w' this) = player (elements w this) ∧
      (∀ other, other ≠ this → elements w' other = elements w other) ∧
      log w' = log w ++ (if _playing (elements w this)
                         then [(this, NoteEvent midiNote)] else []) ∧
      (if _playing (elements w this) && negb (seeking (elements w this))
       then ∀ s, backend (elements w this) = Some s →
                 seekBar_value (elements w' this) = Sequencer.currentTime s ∧
                 currentTimeLabel (elements w' this) = Sequencer.currentTime s
       else seekBar_value (elements w' this) = seekBar_value (elements w this) ∧
            currentTimeLabel (elements w' this) =
              currentTimeLabel (elements w this))
  | OutOfFuel => False
  end.
Proof.
  run. destruct (_playing (elements w this)) eqn:Hpl; run.
  2: { rewrite app_nil_r. repeat split. }
  destruct (seeking (elements w this)) eqn:Hseek; run.
  { repeat split. }
  unfold backend.
  destruct (player (elements w this)) as [p|] eqn:Hp; run.
  2: { repeat split; done. }
  destruct (SpessaSynthPlayer.seq p) as [s|] eqn:Hs; run.
  2: { repeat split; done. }
  split; [done|]. split.
  { intros other Hne. by rewrite !fn_lookup_alter_ne. }
  split; [done|]. by intros s' [= <-].
Qed.

(** X5. [_start] and [handleStop] call each other, and always return:
    the second call of [_start] finds the sequencer playing and does
    nothing.  So [start()], [stop()], the natural-end handler and every
    run of the page come to an end (fuel for two levels of [_start] is
    enough, whatever the page), and one level is not enough: on
    [page_ended] the natural-end handler with [loop] reaches a second
    call of [_start]. *)
Theorem start_and_handleStop_return :
  (∀ n this looped w, _start (S (S n)) this looped w ≠ OutOfFuel) ∧
  (∀ n this finished w, handleStop (S (S n)) this finished w ≠ OutOfFuel) ∧
  (∀ fuel this w, stop fuel this w ≠ OutOfFuel) ∧
  (∀ env n tasks w, is_Some (performAll env (S (S n)) tasks w)) ∧
  handleStop 1 0 true page_ended = OutOfFuel.
Proof.
  split; [intros; apply ends__start|].
  split; [intros; apply ends_handleStop|].
  split; [intros; apply ends_stop|].
  split; [intros; apply performAll_ends|].
  vm_compute. reflexivity.
Qed.

(** X6. Once an element has cached a sound font and none of its loads
    waits for one, whatever happens on the page afterwards (reloads,
    changes of [src] or [sound-font], playback, answers of the network)
    the element requests no sound font again and keeps the buffer, and
    the bank of its player is the one it was or the cached buffer. *)
Theorem sound_font_cached_for_good env n tasks this b w :
  soundfontBin (elements w this) = Some b →
  noSoundFontPending this w →
  ∃ w', performAll env (S (S n)) tasks w = Some w' ∧
        soundfontBin (elements w' this) = Some b ∧
        soundFontFetches this (log w') = soundFontFetches this (log w) ∧
        (bank (elements w' this) = bank (elements w this) ∨
         bank (elements w' this) = Some b).
Proof.
  intros Hbin Hpend.
  destruct (cached_sound_font_is_kept env n tasks this b w Hbin Hpend)
    as (w' & Hrun & Hbin' & _ & Hlog & Hbank).
  by exists w'.
Qed.

Lemma sound_font_cached_for_good_witness :
  ∃ w', performAll env_url 2
          [(0%nat, SetSoundFont (Some "b.sf2")); (0%nat, TimerFires);
           (0%nat, FetchSettles 0)] page_loaded = Some w' ∧
        soundfontBin (elements w' 0%nat) = Some [x00] ∧
        soundFontFetches 0 (log w') = [DEFAULT_SOUNDFONT].
Proof.
  destruct (sound_font_cached_for_good env_url 0
              [(0%nat, SetSoundFont (Some "b.sf2")); (0%nat, TimerFires);
               (0%nat, FetchSettles 0)] 0%nat [x00] page_loaded)
    as (w' & Hrun & Hbin & Hlog & _).
  - vm_compute. reflexivity.
  - intros ns0 request url.
    replace (pending page_loaded) with (@nil Pending) by (vm_compute; reflexivity).
    apply not_elem_of_nil.
  - exists w'. split; [exact Hrun|]. split; [exact Hbin|].
    rewrite Hlog. vm_compute. reflexivity.
Defined.

(** *** Loading *)

Lemma classList_add_mono names e name :
  name ∈ classList e → name ∈ classList (classList_add names e).
Proof.
  unfold classList_add. cbn [classList set_classList].
  generalize (classList e). induction names as [|x names IH]; intros cl Hin;
    [done|].
  simpl. apply IH. case_decide; [done|]. apply elem_of_app. by left.
Qed.

Lemma classList_add_elem_of names e name :
  name ∈ names → name ∈ classList (classList_add names e).
Proof.
  unfold classList_add. cbn [classList set_classList].
  generalize (classList e). induction names as [|x names IH]; intros cl Hin.
  - by apply elem_of_nil in Hin.
  - simpl. apply elem_of_cons in Hin as [->|Hin]; [|by apply IH].
    pose proof (classList_add_mono names
                  (set_classList (if decide (x ∈ cl) then cl else cl ++ [x])
                     newElement) x) as H.
    unfold classList_add in H. cbn [classList set_classList] in H. apply H.
    case_decide; [done|]. apply elem_of_app. right. apply list_elem_of_here.
Qed.

Lemma classList_remove_not_elem_of names e name :
  name ∈ names → name ∉ classList (classList_remove names e).
Proof.
  unfold classList_remove. cbn [classList set_classList].
  intros Hin Hf. apply list_elem_of_filter in Hf as [Hf _]. done.
Qed.

Ltac load1 :=
  first
    [ run1
    | expand3 initPlayerNow | expand2 initPlayerNow_ns
    | expand2 initPlayerNow_content | expand3 initPlayerNow_player
    | expand2 player_initPlayer | expand5 await_fetch | expand3 catching
    | expand4 fetched | expand3 newMIDI | expand3 resume
    | expand3 fetchSettles | expand2 connectedCallback | expand4 initPlayer
    | rewrite setTimeout_run
    | progress cbn [performAll perform getAttribute putAttribute]
    | progress unfold stop, handleStop, timerFires, reload ].

Ltac load := repeat load1.



(** The class list is changed by [classList.add] and [classList.remove]
    alone. *)
Lemma classList_set_player v e : classList (set_player v e) = classList e.
Proof. reflexivity. Qed.
Lemma classList_set_soundfontBin v e : classList (set_soundfontBin v e) = classList e.
Proof. reflexivity. Qed.
Lemma classList_set_ns v e : classList (set_ns v e) = classList e.
Proof. reflexivity. Qed.
Lemma classList_set_seeking v e : classList (set_seeking v e) = classList e.
Proof. reflexivity. Qed.
Lemma classList_set_domInitialized v e : classList (set_domInitialized v e) = classList e.
Proof. reflexivity. Qed.
Lemma classList_set_initTimeout v e : classList (set_initTimeout v e) = classList e.
Proof. reflexivity. Qed.
Lemma classList_set_needInitNs v e : classList (set_needInitNs v e) = classList e.
Proof. reflexivity. Qed.
Lemma classList_set__playing v e : classList (set__playing v e) = classList e.
Proof. reflexivity. Qed.
Lemma classList_set_attr_src v e : classList (set_attr_src v e) = classList e.
Proof. reflexivity. Qed.
Lemma classList_set_attr_soundFont v e : classList (set_attr_soundFont v e) = classList e.
Proof. reflexivity. Qed.
Lemma classList_set_attr_loop v e : classList (set_attr_loop v e) = classList e.
Proof. reflexivity. Qed.
Lemma classList_set_seekBar_value v e : classList (set_seekBar_value v e) = classList e.
Proof. reflexivity. Qed.
Lemma classList_set_seekBar_max v e : classList (set_seekBar_max v e) = classList e.
Proof. reflexivity. Qed.
Lemma classList_set_seekBar_disabled v e : classList (set_seekBar_disabled v e) = classList e.
Proof. reflexivity. Qed.
Lemma classList_set_playButton_disabled v e : classList (set_playButton_disabled v e) = classList e.
Proof. reflexivity. Qed.
Lemma classList_set_currentTimeLabel v e : classList (set_currentTimeLabel v e) = classList e.
Proof. reflexivity. Qed.
Lemma classList_set_totalTimeLabel v e : classList (set_totalTimeLabel v e) = classList e.
Proof. reflexivity. Qed.
Lemma classList_set_title v e : classList (set_title v e) = classList e.
Proof. reflexivity. Qed.

Ltac classes :=
  repeat first
    [ rewrite classList_set_player
    | rewrite classList_set_soundfontBin
    | rewrite classList_set_ns
    | rewrite classList_set_seeking
    | rewrite classList_set_domInitialized
    | rewrite classList_set_initTimeout
    | rewrite classList_set_needInitNs
    | rewrite classList_set__playing
    | rewrite classList_set_attr_src
    | rewrite classList_set_attr_soundFont
    | rewrite classList_set_attr_loop
    | rewrite classList_set_seekBar_value
    | rewrite classList_set_seekBar_max
    | rewrite classList_set_seekBar_disabled
    | rewrite classList_set_playButton_disabled
    | rewrite classList_set_currentTimeLabel
    | rewrite classList_set_totalTimeLabel
    | rewrite classList_set_title ].

Lemma setError_classes error e :
  "error" ∈ classList (setError error e) ∧
  "frozen" ∈ classList (setError error e).
Proof.
  unfold setError. rewrite classList_set_title. split.
  - apply (classList_add_elem_of ["error"; "frozen"]), list_elem_of_here.
  - apply (classList_add_elem_of ["error"; "frozen"]),
      list_elem_of_further, list_elem_of_here.
Qed.

(** X8. Connecting an element that has no [src] (absent or empty) and no
    note sequence: nothing is requested and nothing dispatched; the
    element shows the error [No content loaded] (title, classes [error]
    and [frozen], controls disabled), position 0 and duration 0, and gets
    no player. *)
Theorem connect_without_src_shows_error w this :
  domInitialized (elements w this) = false →
  player (elements w this) = None →
  ns (elements w this) = None →
  attr_src (elements w this) = None ∨ attr_src (elements w this) = Some "" →
  ∃ w', connectedCallback this w = Done tt w' ∧
        log w' = log w ∧ pending w' = pending w ∧
        title (elements w' this) = Some "No content loaded" ∧
        "error" ∈ classList (elements w' this) ∧
        "frozen" ∈ classList (elements w' this) ∧
        playButton_disabled (elements w' this) = true ∧
        seekBar_disabled (elements w' this) = true ∧
        seekBar_value (elements w' this) = 0%Q ∧
        seekBar_max (elements w' this) = 0%Q ∧
        player (elements w' this) = None ∧
        domInitialized (elements w' this) = true.
Proof.
  intros Hdom Hp Hns Hsrc.
  destruct Hsrc as [Hsrc|Hsrc]; load; rewrite ?decide_True by done; load;
    (eexists; split; [reflexivity|]);
    cbn [elements log pending alterElement]; lookups;
    (split; [reflexivity|]); (split; [reflexivity|]);
    (split; [fields; reflexivity|]);
    classes;
    (split; [apply setError_classes|]); (split; [apply setError_classes|]);
    fields; repeat split; exact Hp.
Qed.

Lemma connect_without_src_shows_error_witness :
  ∃ w', connectedCallback 0 newPage = Done tt w' ∧
        log w' = [] ∧
        title (elements w' 0%nat) = Some "No content loaded".
Proof.
  destruct (connect_without_src_shows_error newPage 0%nat)
    as (w' & Hrun & Hlog & _ & Htitle & _).
  - reflexivity.
  - reflexivity.
  - reflexivity.
  - left. reflexivity.
  - exists w'. split; [exact Hrun|]. split; [exact Hlog|exact Htitle].
Defined.

(** X9. When the document of an element without a [sound-font]
    attribute arrives, the element takes it as its note sequence and
    shows its duration, and the load ends there: no sound font is
    requested, no player is built, [load] is not dispatched, and the
    controls, the classes and the title stay as they were. *)
Theorem load_without_sound_font_builds_no_player env w k this request url
    midiBuf d :
  pending w !! k = Some (AwaitSrc this request url) →
  fetch env request url = Some midiBuf →
  decode env midiBuf = Some d →
  attr_soundFont (elements w this) = None →
  player (elements w this) = None →
  ∃ w', fetchSettles env k w = Done tt w' ∧
        ns (elements w' this) = Some (mkMIDI (nextMidiId w) d) ∧
        seekBar_max (elements w' this) = d ∧
        seekBar_value (elements w' this) = 0%Q ∧
        log w' = log w ∧
        pending w' = delete k (pending w) ∧
        player (elements w' this) = None ∧
        soundfontBin (elements w' this) = soundfontBin (elements w this) ∧
        playButton_disabled (elements w' this) =
          playButton_disabled (elements w this) ∧
        classList (elements w' this) = classList (elements w this) ∧
        title (elements w' this) = title (elements w this).
Proof.
  intros Hk Hf Hdec Hsf Hp. load.
  eexists. split; [reflexivity|].
  cbn [elements log pending alterElement putNextMidiId putPending]. lookups.
  classes. fields. repeat split; done.
Qed.

Lemma load_without_sound_font_builds_no_player_witness :
  ∃ w', fetchSettles env0 0 page_src_requested = Done tt w' ∧
        seekBar_max (elements w' 0%nat) = 100%Q ∧
        log w' = log page_src_requested ∧
        player (elements w' 0%nat) = None.
Proof.
  destruct (load_without_sound_font_builds_no_player env0 page_src_requested
              0 0%nat 0 "song.mid" [x00] 100)
    as (w' & Hrun & _ & Hmax & _ & Hlog & _ & Hp & _).
  - vm_compute. reflexivity.
  - reflexivity.
  - reflexivity.
  - vm_compute. reflexivity.
  - vm_compute. reflexivity.
  - exists w'. split; [exact Hrun|]. split; [exact Hmax|].
    split; [exact Hlog|exact Hp].
Defined.

(** X10. When the request for the document fails, or the document does
    not decode, the load ends in the error state: the title is set, the
    classes [error] and [frozen] are, the controls are disabled.  Nothing
    is dispatched or requested, the player and the cached sound font
    stay as they were, and the rejection goes no further (the call
    returns).  After a failed request the note sequence is the one it
    was; after a failed decoding it is [null]. *)
Theorem failed_load_shows_error env w k this request url :
  pending w !! k = Some (AwaitSrc this request url) →
  fetch env request url = None ∨
    (∃ midiBuf, fetch env request url = Some midiBuf ∧ decode env midiBuf = None) →
  ∃ w', fetchSettles env k w = Done tt w' ∧
        is_Some (title (elements w' this)) ∧
        "error" ∈ classList (elements w' this) ∧
        "frozen" ∈ classList (elements w' this) ∧
        playButton_disabled (elements w' this) = true ∧
        seekBar_disabled (elements w' this) = true ∧
        log w' = log w ∧
        pending w' = delete k (pending w) ∧
        player (elements w' this) = player (elements w this) ∧
        soundfontBin (elements w' this) = soundfontBin (elements w this) ∧
        ns (elements w' this) =
          match fetch env request url with
          | Some _ => None
          | None => ns (elements w this)
          end.
Proof.
  intros Hk [Hf|(midiBuf & Hf & Hdec)]; load;
    (eexists; split; [reflexivity|]);
    cbn [elements log pending alterElement putNextMidiId putPending]; lookups;
    classes;
    (split; [by fields|]);
    (split; [apply setError_classes|]); (split; [apply setError_classes|]);
    fields; repeat split; done.
Qed.

Lemma failed_load_shows_error_witness :
  ∃ w', fetchSettles env_offline 0 page_src_requested = Done tt w' ∧
        is_Some (title (elements w' 0%nat)) ∧
        log w' = log page_src_requested.
Proof.
  destruct (failed_load_shows_error env_offline page_src_requested
              0 0%nat 0 "song.mid")
    as (w' & Hrun & Htitle & _ & _ & _ & _ & Hlog & _).
  - vm_compute. reflexivity.
  - left. reflexivity.
  - exists w'. split; [exact Hrun|]. split; [exact Htitle|exact Hlog].
Defined.



(** *** Reconfiguration *)





(** X13. Setting [noteSequence] to the value it has does nothing.
    Setting it to another sequence [m] on a connected element that is
    loaded, stopped and has its sound font cached removes [src] and sets
    one timer; when the timer fires, the element loads [m] without
    requesting anything: it shows the duration of [m], builds a player
    on the cached sound font, whose sequencer holds [m], paused at 0, and
    dispatches [load]. *)
Theorem noteSequence_setter_loads_without_request fuel w this m s b sf :
  domInitialized (elements w this) = true →
  initTimeout (elements w this) = None →
  timers w = [] →
  ns (elements w this) ≠ Some m →
  backend (elements w this) = Some s → Sequencer.paused s = true →
  _playing (elements w this) = false →
  soundfontBin (elements w this) = Some b →
  attr_soundFont (elements w this) = Some sf →
  set_noteSequence fuel this (ns (elements w this)) w = Done tt w ∧
  ∃ w', (set_noteSequence fuel this (Some m) ;; timerFires this) w = Done tt w' ∧
        log w' = log w ++ [(this, LoadEvent)] ∧
        pending w' = pending w ∧ timers w' = [] ∧
        attr_src (elements w' this) = None ∧
        ns (elements w' this) = Some m ∧
        seekBar_max (elements w' this) = duration m ∧
        seekBar_value (elements w' this) = 0%Q ∧
        backend (elements w' this) =
          Some (Sequencer.mk true 0 [Some m] (Some (mkSynthetizer (Some b)))) ∧
        playButton_disabled (elements w' this) = false.
Proof.
  unfold backend. intros Hdom Hto Htimers Hns Hb Hpaused Hpl Hbin Hsf.
  destruct (player (elements w this)) as [p|] eqn:Hp; [|done]. simpl in Hb.
  split.
  { unfold set_noteSequence. load. rewrite decide_True by done. by load. }
  unfold set_noteSequence, setOrRemoveAttribute, attributeChangedCallback.
  load. rewrite decide_False by done.
  destruct (attr_src (elements w this)) as [url|] eqn:Hsrc; load;
    rewrite ?Hb; load; rewrite ?Htimers; simpl; rewrite decide_True by done;
    load; rewrite ?orb_true_r; load; simpl; load; simpl; load;
    rewrite decide_True by done; load;
    (eexists; split; [reflexivity|]);
    cbn [elements log pending timers alterElement putTimers putContext logEvent];
    lookups; fields; repeat split; done.
Qed.

Lemma noteSequence_setter_loads_without_request_witness :
  ∃ w', (set_noteSequence 2 0 (Some (mkMIDI 7 42)) ;; timerFires 0) page_loaded
          = Done tt w' ∧
        log w' = log page_loaded ++ [(0%nat, LoadEvent)] ∧
        seekBar_max (elements w' 0%nat) = 42%Q.
Proof.
  destruct (noteSequence_setter_loads_without_request 2 page_loaded 0%nat
              (mkMIDI 7 42) (seq_loaded 0) [x00] "")
    as (_ & w' & Hrun & Hlog & _ & _ & _ & _ & Hmax & _).
  - vm_compute. reflexivity.
  - vm_compute. reflexivity.
  - vm_compute. reflexivity.
  - vm_compute. discriminate.
  - vm_compute. reflexivity.
  - reflexivity.
  - vm_compute. reflexivity.
  - vm_compute. reflexivity.
  - vm_compute. reflexivity.
  - exists w'. split; [exact Hrun|]. split; [exact Hlog|exact Hmax].
Defined.

(** *** One playing element *)

Lemma exclusive_alterElement this f w :
  (∀ e, _playing (f e) = true → _playing e = true) →
  exclusive w → exclusive (alterElement this f w).
Proof.
  intros Hf Hw e. cbn [elements alterElement playingPlayer].
  destruct (decide (this = e)) as [->|Hne].
  - rewrite fn_lookup_alter. intros H. by apply Hw, Hf.
  - rewrite fn_lookup_alter_ne by done. apply Hw.
Qed.

Lemma ex_update this f :
  (∀ e, _playing (f e) = true → _playing e = true) →
  keeps exclusive (update this f).
Proof. intros Hf w Hw. rewrite update_run. by apply exclusive_alterElement. Qed.

Lemma ex_onPlayer this method : keeps exclusive (onPlayer this method).
Proof.
  intros w Hw. rewrite onPlayer_run.
  destruct (player (elements w this) ≫= method); [|done].
  by apply exclusive_alterElement.
Qed.

Lemma ex_set_currentTime this value : keeps exclusive (set_currentTime this value).
Proof.
  unfold set_currentTime.
  apply keeps_bind; [by apply ex_update|intros _].
  apply keeps_bind; [apply keeps_widget|intros el].
  apply keeps_bind; [by apply ex_update|intros _].
  apply keeps_bind; [apply keeps_playerIsPlaying|intros [|]].
  - apply ex_onPlayer.
  - apply keeps_pass.
Qed.

Ltac ex_step :=
  lazymatch goal with
  | |- keeps _ (_ ≫= _) => apply keeps_bind; [|intros ?]
  | |- keeps _ (detached _) => apply keeps_detached
  | |- keeps _ (try_catch _ _) => apply keeps_try_catch; [|intros ?]
  | |- keeps _ (catching _ _) => apply keeps_try_catch; [|intros ?]
  | |- keeps _ pass => apply keeps_pass
  | |- keeps _ (mret _) => apply keeps_mret
  | |- keeps _ (throw _) => apply keeps_throw
  | |- keeps _ outOfFuel => apply keeps_outOfFuel
  | |- keeps _ (widget _) => apply keeps_widget
  | |- keeps _ world => apply keeps_world
  | |- keeps _ (readPlayer _ _) => apply keeps_readPlayer
  | |- keeps _ (playerIsPlaying _) => apply keeps_playerIsPlaying
  | |- keeps _ (update _ _) => apply ex_update; by intros ?
  | |- keeps _ (onPlayer _ _) => apply ex_onPlayer
  | |- keeps _ (set_currentTime _ _) => apply ex_set_currentTime
  | |- keeps _ (dispatchEvent _ _) => by intros ??
  | |- keeps _ (setTimeout _) => by intros ??
  | |- keeps _ (modify (putContext _)) => by intros ??
  | |- keeps _ (modify (putPending _)) => by intros ??
  | |- keeps _ (modify (λ w, putPending _ w)) => by intros ??
  | |- keeps _ (if ?c then _ else _) => destruct c
  | |- keeps _ (match ?x with _ => _ end) => destruct x
  end.

Lemma ex_handleStop_body _start this finished :
  (∀ t looped, keeps exclusive (_start t looped)) →
  keeps exclusive (handleStop_body _start this finished).
Proof.
  intros Hstart. unfold handleStop_body.
  repeat first [ ex_step | apply Hstart ].
Qed.

Lemma ex_stop_body _start this :
  (∀ t looped, keeps exclusive (_start t looped)) →
  keeps exclusive (stop_body (handleStop_body _start) this).
Proof.
  intros Hstart. unfold stop_body.
  repeat first [ ex_step | by apply ex_handleStop_body ].
Qed.

(** [stop()] turns no element on, leaves [playingPlayer], and when it
    returns its element is not playing; when it throws it has changed
    nothing. *)
Lemma stop_quiets _start this w :
  match stop_body (handleStop_body _start) this w with
  | Done _ w' =>
      playingPlayer w' = playingPlayer w ∧
      _playing (elements w' this) = false ∧
      ∀ e, _playing (elements w' e) = true → _playing (elements w e) = true
  | Thrown _ w' => w' = w
  | OutOfFuel => True
  end.
Proof.
  assert (∀ w0, playingPlayer w0 = playingPlayer w →
                (∀ e, _playing (elements w0 e) = true →
                      _playing (elements w e) = true) →
            match handleStop_body _start this false w0 with
            | Done _ w' =>
                playingPlayer w' = playingPlayer w ∧
                _playing (elements w' this) = false ∧
                ∀ e, _playing (elements w' e) = true →
                     _playing (elements w e) = true
            | Thrown _ w' => False
            | OutOfFuel => True
            end) as Hhs.
  { intros w0 Hpp Hmono. run.
    destruct (_playing (elements w0 this)) eqn:Hpl; run.
    - split; [done|]. split; [by fields; lookups|].
      intros e. cbn [elements logEvent alterElement].
      destruct (decide (this = e)) as [->|Hne].
      + by rewrite !fn_lookup_alter.
      + rewrite !fn_lookup_alter_ne by done. apply Hmono.
    - split; [done|]. split; [by fields; lookups|].
      intros e. cbn [elements logEvent alterElement].
      destruct (decide (this = e)) as [->|Hne].
      + rewrite !fn_lookup_alter. cbn [_playing classList_add classList_remove
          set_classList]. by rewrite Hpl.
      + rewrite !fn_lookup_alter_ne by done. apply Hmono. }
  unfold stop_body. rewrite bind_run, playerIsPlaying_run.
  destruct (player (elements w this)) as [p|] eqn:Hp.
  2: { cbv beta iota. rewrite bind_run, pass_run. cbv beta iota.
       specialize (Hhs w eq_refl (λ e H, H)).
       by destruct (handleStop_body _start this false w). }
  destruct (SpessaSynthPlayer.seq p) as [s|] eqn:Hs; [|done].
  cbv beta iota. rewrite bind_run.
  destruct (Sequencer.paused s) eqn:Hpaused; cbn [negb].
  - rewrite pass_run. cbv beta iota.
    specialize (Hhs w eq_refl (λ e H, H)).
    by destruct (handleStop_body _start this false w).
  - rewrite onPlayer_run, Hp. unfold SpessaSynthPlayer.pause. simpl.
    rewrite Hs. simpl.
    match goal with
    | |- match handleStop_body _ _ _ ?w0 with _ => _ end =>
        assert (∀ e, _playing (elements w0 e) = true →
                     _playing (elements w e) = true) as Hmono;
        [|specialize (Hhs w0 eq_refl Hmono);
          by destruct (handleStop_body _start this false w0)]
    end.
    intros e. cbn [elements alterElement].
    destruct (decide (this = e)) as [->|Hne].
    + by rewrite fn_lookup_alter.
    + by rewrite fn_lookup_alter_ne.
Qed.

Lemma ex__start_body _start this looped :
  (∀ t l, keeps exclusive (_start t l)) →
  keeps exclusive
    (_start_body (stop_body (handleStop_body _start)) (handleStop_body _start)
       this looped).
Proof.
  intros Hstart. unfold _start_body.
  apply keeps_detached. apply keeps_bind; [apply keeps_widget|intros el].
  destruct (player el); [|apply keeps_pass].
  apply keeps_bind; [apply keeps_readPlayer|intros playing].
  destruct playing; cbn [negb]; [repeat ex_step|].
  intros w Hw. rewrite bind_run, world_run. cbv beta iota. rewrite bind_run.
  match goal with
  | |- match match ?m w with _ => _ end with _ => _ end =>
      assert (match m w with
              | Done _ w1 => ∀ e, _playing (elements w1 e) = true → e = this
              | Thrown _ w1 => exclusive w1
              | OutOfFuel => True
              end) as Hm;
      [|destruct (m w) as [[] w1|err w1|]; [|done..]]
  end.
  { destruct (playingPlayer w) as [other|] eqn:Hpp.
    - destruct (_playing (elements w other)
                && negb (bool_decide (other = this) && looped)) eqn:Hc.
      + pose proof (stop_quiets _start other w) as Hq.
        destruct (stop_body (handleStop_body _start) other w)
          as [[] w1|err w1|]; [|by subst|done].
        destruct Hq as (Hpp' & Hoff & Hmono). intros e He. exfalso.
        pose proof (Hw e (Hmono e He)) as H. rewrite Hpp in H.
        injection H as ->. by rewrite He in Hoff.
      + rewrite pass_run. intros e He. pose proof (Hw e He) as H.
        rewrite Hpp in H. injection H as ->. rewrite He in Hc. simpl in Hc.
        apply negb_false_iff, andb_true_iff in Hc as [Hc _].
        by apply bool_decide_eq_true in Hc.
    - rewrite pass_run. intros e He. apply Hw in He. congruence. }
  cbv beta iota. rewrite bind_run, set_playingPlayer_run. cbv beta iota.
  rewrite bind_run, update_run. cbv beta iota.
  match goal with
  | |- match ?r ?w3 with _ => _ end =>
      assert (keeps exclusive r) as HR;
      [repeat first [ ex_step | by apply ex_handleStop_body ]
      |apply (HR w3)]
  end.
  intros e. cbn [elements alterElement playingPlayer putPlayingPlayer].
  destruct (decide (this = e)) as [->|Hne]; [done|].
  rewrite fn_lookup_alter_ne by done. intros He. by rewrite (Hm e He).
Qed.

Lemma ex__start fuel this looped : keeps exclusive (_start fuel this looped).
Proof.
  revert this looped. induction fuel as [|n IH]; intros this looped.
  - apply keeps_outOfFuel.
  - cbn [_start]. by apply ex__start_body.
Qed.

Lemma ex_handleStop fuel this finished :
  keeps exclusive (handleStop fuel this finished).
Proof. apply ex_handleStop_body. intros. apply ex__start. Qed.

Lemma ex_stop fuel this : keeps exclusive (stop fuel this).
Proof. apply ex_stop_body. intros. apply ex__start. Qed.

Lemma ex_initPlayerNow this initNs : keeps exclusive (initPlayerNow this initNs).
Proof.
  unfold initPlayerNow, initPlayerNow_content, initPlayerNow_ns,
    initPlayerNow_player, player_initPlayer, await_fetch.
  repeat ex_step.
Qed.

Lemma ex_fetchSettles env k : keeps exclusive (fetchSettles env k).
Proof.
  unfold fetchSettles. apply keeps_bind; [apply keeps_world|intros w].
  destruct (pending w !! k) as [[this request url|this ns0 request url]|];
    [| |apply keeps_pass];
    (apply keeps_bind; [by intros ??|intros _]); cbn [resume];
    unfold initPlayerNow_content, initPlayerNow_ns, initPlayerNow_player,
      player_initPlayer, await_fetch;
    repeat first
      [ ex_step
      | match goal with
        | |- keeps _ (fetched ?env ?r ?u) =>
            intros ??; unfold fetched; by destruct (fetch env r u)
        | |- keeps _ (newMIDI ?env ?b) =>
            intros ??; unfold newMIDI; by destruct (decode env b)
        end ].
Qed.

Lemma ex_initPlayer fuel this initNs : keeps exclusive (initPlayer fuel this initNs).
Proof. unfold initPlayer. repeat first [ ex_step | apply ex_stop ]. Qed.

Lemma ex_perform env fuel this t : keeps exclusive (perform env fuel this t).
Proof.
  destruct t; cbn [perform];
    unfold connectedCallback, set_src, set_soundFont, set_loop, reload,
      start, playButton_click, seekBar_input, seekBar_change, noteCallback,
      setOrRemoveAttribute, attributeChangedCallback;
    try match goal with |- keeps _ (timerFires _) =>
          intros w Hw; unfold timerFires; destruct (timers w); [done|];
          case_decide; [|done];
          apply (keeps_bind (widget this)); [apply keeps_widget| |done];
          intros ?; apply ex_initPlayerNow
        end;
    repeat first
      [ ex_step | apply ex_initPlayerNow | apply ex_initPlayer
      | apply ex_fetchSettles
      | apply ex__start | apply ex_stop | apply ex_handleStop
      | match goal with
        | |- keeps _ (update _ (putAttribute ?n _)) =>
            apply ex_update; by destruct n
        end ].
Qed.

Lemma exclusive_performAll env fuel tasks w w' :
  exclusive w → performAll env fuel tasks w = Some w' → exclusive w'.
Proof.
  revert w. induction tasks as [|[this t] tasks IH]; intros w Hw Hrun.
  - by injection Hrun as <-.
  - cbn [performAll] in Hrun.
    pose proof (ex_perform env fuel this t w Hw) as H.
    destruct (perform env fuel this t w) as [? w1|? w1|]; [by eapply IH..|done].
Qed.

(** X14. Whatever happens on a page (loads, reconfigurations, playback
    on any of its elements, the user's actions), at most one element is
    in the playing state, and it is the element that [playingPlayer]
    names. *)
Theorem at_most_one_element_is_playing env n tasks :
  ∃ w, performAll env (S (S n)) tasks newPage = Some w ∧
       ∀ a b, _playing (elements w a) = true →
              _playing (elements w b) = true →
              a = b ∧ playingPlayer w = Some a.
Proof.
  destruct (performAll_ends env n tasks newPage) as [w Hrun].
  exists w. split; [done|]. intros a b Ha Hb.
  assert (exclusive w) as Hw.
  { eapply exclusive_performAll; [|exact Hrun]. by intros e. }
  pose proof (Hw a Ha) as Hpa. pose proof (Hw b Hb) as Hpb.
  split; [congruence|done].
Qed.
End WidgetLaws.

(** ** The visualizers *)

Module VisualizersFacts.
Import Visualizers VisualizersSpec.

Lemma list_find_first {A} (P : A → Prop) `{!∀ x, Decision (P x)} L x R :
  P x → Forall (λ y, ¬ P y) L → list_find P (L ++ x :: R) = Some (length L, x).
Proof.
  intros Hx HL. induction HL as [|y L Hy HL IH]; simpl.
  - by rewrite decide_True.
  - rewrite decide_False by done. by rewrite IH.
Qed.

Lemma list_find_none {A} (P : A → Prop) `{!∀ x, Decision (P x)} L :
  Forall (λ y, ¬ P y) L → list_find P L = None.
Proof. intros HL. apply list_find_None. exact HL. Qed.

Lemma delete_middle {A} (L : list A) x R : delete (length L) (L ++ x :: R) = L ++ R.
Proof. induction L as [|y L IH]; simpl; [done|]. by rewrite IH. Qed.

Lemma removeEventListener_first name cb L R st :
  eventListeners st = L ++ (name, cb) :: R → (name, cb) ∉ L →
  removeEventListener name cb st = set_eventListeners (L ++ R) st.
Proof.
  intros HE Hnin. unfold removeEventListener. rewrite HE.
  rewrite (list_find_first _ L (name, cb) R); [by rewrite delete_middle|done|].
  apply Forall_forall. by intros y Hy ->.
Qed.

Lemma removeEventListener_absent name cb st :
  (name, cb) ∉ eventListeners st → removeEventListener name cb st = st.
Proof.
  intros Hnin. unfold removeEventListener. rewrite list_find_none; [done|].
  apply Forall_forall. by intros y Hy ->.
Qed.

Lemma addEventListener_absent name cb st :
  (name, cb) ∉ eventListeners st →
  addEventListener name cb st =
    set_eventListeners (eventListeners st ++ [(name, cb)]) st.
Proof. intros Hnin. unfold addEventListener. by rewrite decide_False. Qed.

Lemma map_get_unbound v m : v ∉ m.*1 → list_find (λ kv : nat * nat, kv.1 = v) m = None.
Proof.
  intros Hv. apply list_find_None, Forall_forall. intros [k l] Hin Hk.
  simpl in Hk. subst k. apply Hv, list_elem_of_fmap. by exists (v, l).
Qed.

(** What [addVisualizer] does on a well-formed state. *)
Lemma addVisualizer_fresh v st :
  wf st →
  addVisualizer v st =
    mk (eventListeners st ++
          [(onStart, OfVisualizer (objects st) onStart);
           (onStop, OfVisualizer (objects st) onStop);
           (onNote, OfVisualizer (objects st) onNote)])
       (map_set v (objects st) (visualizerListeners st))
       (S (objects st)).
Proof.
  intros (Hfresh & _). unfold addVisualizer, VISUALIZER_EVENTS. cbn [foldl].
  assert (∀ name name', (name, OfVisualizer (objects st) name') ∉ eventListeners st)
    as Hnin.
  { intros name name' Hin. apply Hfresh in Hin. lia. }
  rewrite (addEventListener_absent onStart) by apply Hnin.
  rewrite (addEventListener_absent onStop).
  2: { cbn [eventListeners set_eventListeners objects]. rewrite elem_of_app.
       intros [Hin|Hin]; [by apply Hnin in Hin|].
       apply list_elem_of_singleton in Hin. discriminate Hin. }
  rewrite (addEventListener_absent onNote).
  2: { cbn [eventListeners set_eventListeners objects].
       rewrite !elem_of_app.
       intros [[Hin|Hin]|Hin]; [by apply Hnin in Hin|..];
         apply list_elem_of_singleton in Hin; discriminate Hin. }
  cbn [eventListeners set_eventListeners objects visualizerListeners].
  by rewrite <- !app_assoc.
Qed.

Lemma removeVisualizer_of v listeners E m n :
  list_find (λ kv : nat * nat, kv.1 = v) m = None →
  (∀ l, l ∈ listenersOf listeners → l ∉ E) →
  removeVisualizer v (mk (E ++ listenersOf listeners) (m ++ [(v, listeners)]) n)
    = Some (mk E m n).
Proof.
  intros Hv Hnin. unfold removeVisualizer, map_get.
  cbn [visualizerListeners eventListeners].
  assert (list_find (λ kv : nat * nat, kv.1 = v) (m ++ [(v, listeners)])
          = Some (length m, (v, listeners))) as Hfind.
  { apply list_find_first; [done|]. by apply (list_find_None (λ kv, kv.1 = v)). }
  rewrite Hfind. cbn [fmap option_fmap option_map snd].
  unfold VISUALIZER_EVENTS, listenersOf in *. cbn [foldl fmap list_fmap] in *.
  erewrite (removeEventListener_first onStart _ E); [|reflexivity|].
  2: { apply Hnin. apply list_elem_of_here. }
  erewrite (removeEventListener_first onStop _ E); [|reflexivity|].
  2: { apply Hnin. apply list_elem_of_further, list_elem_of_here. }
  erewrite (removeEventListener_first onNote _ E); [|reflexivity|].
  2: { apply Hnin. do 2 apply list_elem_of_further. apply list_elem_of_here. }
  cbn [eventListeners visualizerListeners objects set_eventListeners].
  unfold map_delete. rewrite Hfind, delete_middle. by rewrite !app_nil_r.
Qed.

Lemma listenersOf_fresh st l :
  wf st → l ∈ listenersOf (objects st) → l ∉ eventListeners st.
Proof.
  intros (Hfresh & _) Hin Hin'. unfold listenersOf in Hin.
  apply list_elem_of_fmap in Hin as (name & -> & _).
  apply Hfresh in Hin'. lia.
Qed.

Lemma map_set_elem_of v l m kv :
  kv ∈ map_set v l m → kv ∈ m ∨ kv = (v, l).
Proof.
  unfold map_set. destruct (list_find _ m) as [[i x]|] eqn:Hfind.
  - intros Hin. apply list_elem_of_lookup in Hin as [j Hj].
    apply list_lookup_insert_Some in Hj as [(-> & <- & _)|(Hne & Hj)];
      [by right|left]. by eapply list_elem_of_lookup_2.
  - rewrite elem_of_app, list_elem_of_singleton. tauto.
Qed.

Lemma map_set_keys v l m :
  NoDup m.*1 → NoDup (map_set v l m).*1.
Proof.
  intros Hnd. unfold map_set.
  destruct (list_find _ m) as [[i x]|] eqn:Hfind.
  - apply list_find_Some in Hfind as (Hi & Hx & _).
    rewrite list_fmap_insert. cbn [fst]. rewrite list_insert_id; [done|].
    by rewrite list_lookup_fmap, Hi, <- Hx.
  - rewrite fmap_app. apply NoDup_app. split; [done|]. split.
    + intros k Hk Hk'. apply list_elem_of_singleton in Hk'. simpl in Hk'.
      subst k. apply list_elem_of_fmap in Hk as ([k l'] & Hk & Hin).
      simpl in Hk. subst k.
      apply (list_find_None (λ kv : nat * nat, kv.1 = v)) in Hfind.
      rewrite Forall_forall in Hfind. by apply (Hfind _ Hin).
    + apply NoDup_singleton.
Qed.

Lemma NoDup_listenersOf l : NoDup (listenersOf l).
Proof.
  unfold listenersOf, VISUALIZER_EVENTS. cbn [fmap list_fmap].
  repeat (apply NoDup_cons; split;
    [rewrite ?elem_of_cons, elem_of_nil; intros H;
     repeat destruct H as [H|H]; done|]).
  apply NoDup_nil_2.
Qed.

Lemma wf_addVisualizer v st : wf st → wf (addVisualizer v st).
Proof.
  intros Hwf. rewrite addVisualizer_fresh by done.
  pose proof Hwf as (Hfresh & Hvals & Hkeys & Hnd).
  split; [|split; [|split]];
    cbn [eventListeners visualizerListeners objects].
  - intros name l name' Hin. apply elem_of_app in Hin as [Hin|Hin].
    + apply Hfresh in Hin. lia.
    + rewrite !elem_of_cons, elem_of_nil in Hin.
      destruct Hin as [[= _ <- _]|[[= _ <- _]|[[= _ <- _]|[]]]]; lia.
  - intros v' l Hin. apply map_set_elem_of in Hin as [Hin|[= _ ->]]; [|lia].
    apply Hvals in Hin. lia.
  - by apply map_set_keys.
  - apply NoDup_app. split; [done|]. split.
    + intros l Hl Hl'. by apply (listenersOf_fresh st l Hwf).
    + apply (NoDup_listenersOf (objects st)).
Qed.

Lemma wf_page_listener : wf (mk [(onStop, Foreign 0)] [] 0).
Proof.
  split; [|split; [|split]]; cbn [eventListeners visualizerListeners objects].
  - intros name l name' Hin. by apply list_elem_of_singleton in Hin.
  - intros v l Hin. by apply elem_of_nil in Hin.
  - apply NoDup_nil_2.
  - apply NoDup_singleton.
Qed.

(** X15. On a well-formed element, for a visualizer that is not bound:
    [addVisualizer] makes [stop] events call its new [stop] listener after
    the listeners that were there, and [removeVisualizer] then puts the
    listener list and the map back as they were; a second
    [removeVisualizer] throws a [TypeError]. *)
Theorem addVisualizer_removeVisualizer_round_trip v st :
  wf st → ¬ bound v st →
  dispatch onStop (addVisualizer v st) =
    dispatch onStop st ++ [OfVisualizer (objects st) onStop] ∧
  ∃ st', removeVisualizer v (addVisualizer v st) = Some st' ∧
         eventListeners st' = eventListeners st ∧
         visualizerListeners st' = visualizerListeners st ∧
         removeVisualizer v st' = None.
Proof.
  intros Hwf Hv. rewrite addVisualizer_fresh by done.
  pose proof (map_get_unbound v _ Hv) as Hfind.
  unfold map_set. rewrite Hfind. split.
  - unfold dispatch. cbn [eventListeners]. by rewrite filter_app, fmap_app.
  - eexists. split.
    + apply (removeVisualizer_of v (objects st)); [done|].
      intros l. by apply listenersOf_fresh.
    + cbn [eventListeners visualizerListeners]. split; [done|]. split; [done|].
      unfold removeVisualizer, map_get. cbn [visualizerListeners].
      by rewrite Hfind.
Qed.

Lemma addVisualizer_removeVisualizer_round_trip_witness :
  dispatch onStop (addVisualizer 7 st_example) =
    [Foreign 0; OfVisualizer 0 onStop; OfVisualizer 1 onStop] ∧
  ∃ st', removeVisualizer 7 (addVisualizer 7 st_example) = Some st' ∧
         eventListeners st' = eventListeners st_example.
Proof.
  destruct (addVisualizer_removeVisualizer_round_trip 7 st_example)
    as (Hd & st' & Hrun & HE & _).
  - apply wf_addVisualizer, wf_page_listener.
  - unfold bound. change ((visualizerListeners st_example).*1) with [5%nat].
    rewrite list_elem_of_singleton. discriminate.
  - split; [exact Hd|]. exists st'. split; [exact Hrun|exact HE].
Defined.

(** X16. [addVisualizer] twice for the same visualizer installs two sets
    of listeners and keeps only the second in the map: [removeVisualizer]
    then removes the second set and the entry, and the first set stays
    on the element, out of reach of [removeVisualizer], which now
    throws. *)
Theorem addVisualizer_twice_leaves_listeners v st :
  wf st → ¬ bound v st →
  ∃ st', removeVisualizer v (addVisualizer v (addVisualizer v st)) = Some st' ∧
         eventListeners st' = eventListeners st ++ listenersOf (objects st) ∧
         visualizerListeners st' = visualizerListeners st ∧
         dispatch onStop st' =
           dispatch onStop st ++ [OfVisualizer (objects st) onStop] ∧
         removeVisualizer v st' = None.
Proof.
  intros Hwf Hv. pose proof (wf_addVisualizer v st Hwf) as Hwf1.
  rewrite (addVisualizer_fresh v (addVisualizer v st)) by done.
  rewrite (addVisualizer_fresh v st) in * by done.
  cbn [eventListeners visualizerListeners objects] in *.
  pose proof (map_get_unbound v _ Hv) as Hfind.
  unfold map_set at 2. rewrite Hfind. unfold map_set.
  rewrite (list_find_first (λ kv : nat * nat, kv.1 = v)
             (visualizerListeners st) (v, objects st) []);
    [|done|by apply (list_find_None (λ kv : nat * nat, kv.1 = v))].
  rewrite insert_app_r_alt, Nat.sub_diag by done. cbn [insert list_insert].
  eexists. split.
  - apply (removeVisualizer_of v (S (objects st))
             (eventListeners st ++ listenersOf (objects st))); [done|].
    intros l Hl.
    apply (listenersOf_fresh
             (mk (eventListeners st ++ listenersOf (objects st))
                (visualizerListeners st ++ [(v, objects st)]) (S (objects st)))
             l); [|done].
    unfold map_set in Hwf1. by rewrite Hfind in Hwf1.
  - cbn [eventListeners visualizerListeners]. split; [done|]. split; [done|].
    split.
    + unfold dispatch. cbn [eventListeners]. by rewrite filter_app, fmap_app.
    + unfold removeVisualizer, map_get. cbn [visualizerListeners].
      by rewrite Hfind.
Qed.

Lemma addVisualizer_twice_leaves_listeners_witness :
  ∃ st', removeVisualizer 7 (addVisualizer 7 (addVisualizer 7 st_example))
           = Some st' ∧
         dispatch onStop st' =
           [Foreign 0; OfVisualizer 0 onStop; OfVisualizer 1 onStop].
Proof.
  destruct (addVisualizer_twice_leaves_listeners 7 st_example)
    as (st' & Hrun & _ & _ & Hd & _).
  - apply wf_addVisualizer, wf_page_listener.
  - unfold bound. change ((visualizerListeners st_example).*1) with [5%nat].
    rewrite list_elem_of_singleton. discriminate.
  - exists st'. split; [exact Hrun|exact Hd].
Defined.

Lemma filter_all {A} (P : A → Prop) `{!∀ x, Decision (P x)} l :
  Forall P l → filter P l = l.
Proof.
  induction 1 as [|x l Hx _ IH]; [done|]. by rewrite filter_cons_True, IH.
Qed.

Lemma delete_filter {A} `{EqDecision A} (E : list A) i x :
  NoDup E → E !! i = Some x → delete i E = filter (λ y, y ≠ x) E.
Proof.
  intros Hnd. revert i. induction Hnd as [|y E Hy Hnd IH]; intros i Hi; [done|].
  destruct i as [|i]; simpl in *.
  - injection Hi as ->. rewrite filter_cons_False by (intros H; by apply H).
    symmetry. apply filter_all.
    apply Forall_forall. by intros z Hz ->.
  - rewrite filter_cons_True.
    + by rewrite (IH i).
    + intros ->. apply Hy. by eapply list_elem_of_lookup_2.
Qed.

Lemma removeEventListener_filter name cb st :
  NoDup (eventListeners st) →
  removeEventListener name cb st =
    set_eventListeners (filter (λ y, y ≠ (name, cb)) (eventListeners st)) st.
Proof.
  intros Hnd. unfold removeEventListener.
  destruct (list_find _ (eventListeners st)) as [[i x]|] eqn:Hfind.
  - apply list_find_Some in Hfind as (Hi & -> & _).
    by rewrite (delete_filter _ i (name, cb)).
  - apply (list_find_None (λ l, l = (name, cb))) in Hfind.
    rewrite filter_all; [by destruct st|done].
Qed.

Lemma remove_all_filter xs st :
  NoDup (eventListeners st) →
  foldl (λ st l, removeEventListener l.1 l.2 st) st xs =
    set_eventListeners (filter (λ y, y ∉ xs) (eventListeners st)) st.
Proof.
  revert st. induction xs as [|[name cb] xs IH]; intros st Hnd.
  - simpl. rewrite filter_all; [by destruct st|].
    apply Forall_forall. intros y _. apply not_elem_of_nil.
  - cbn [foldl fst snd]. rewrite removeEventListener_filter by done.
    rewrite IH by (by apply NoDup_filter).
    cbn [eventListeners set_eventListeners visualizerListeners objects].
    unfold set_eventListeners. cbn [visualizerListeners objects]. f_equal.
    rewrite list_filter_filter. apply list_filter_iff. intros y.
    rewrite not_elem_of_cons. tauto.
Qed.

(** X17. [setVisualizerSelector] empties the map and removes from the
    element exactly the listeners of the [listeners] objects that the map
    held; it installs none (in the source the call of [addVisualizer] is
    commented out).  The listeners of the page stay, and so do listeners
    that [addVisualizer] had left behind. *)
Theorem setVisualizerSelector_unbinds_all st :
  wf st →
  visualizerListeners (setVisualizerSelector st) = [] ∧
  eventListeners (setVisualizerSelector st) =
    filter (λ l, l ∉ boundListeners st) (eventListeners st) ∧
  ∀ id name, (name, Foreign id) ∈ eventListeners st →
             (name, Foreign id) ∈ eventListeners (setVisualizerSelector st).
Proof.
  intros (_ & _ & _ & Hnd).
  assert (eventListeners (setVisualizerSelector st) =
            filter (λ l, l ∉ boundListeners st) (eventListeners st)) as HE.
  { unfold setVisualizerSelector, boundListeners. cbn [eventListeners].
    generalize ((visualizerListeners st).*2). intros vals.
    assert (∀ st0, NoDup (eventListeners st0) →
              foldl (λ st listeners,
                       foldl (λ st name,
                                removeEventListener name
                                  (OfVisualizer listeners name) st)
                         st VISUALIZER_EVENTS) st0 vals =
              foldl (λ st l, removeEventListener l.1 l.2 st) st0
                (vals ≫= listenersOf)) as Hflat.
    { induction vals as [|l vals IH]; intros st0 Hnd0; [done|].
      cbn [foldl mbind list_bind]. rewrite foldl_app.
      unfold listenersOf at 2, VISUALIZER_EVENTS. cbn [foldl fmap list_fmap fst snd].
      apply IH. rewrite remove_all_filter by done.
      cbn [eventListeners set_eventListeners]. by apply NoDup_filter. }
    rewrite Hflat, remove_all_filter by done. done. }
  split; [done|]. split; [done|].
  intros id name Hin. rewrite HE. apply list_elem_of_filter. split; [|done].
  unfold boundListeners. intros Hb. apply list_elem_of_bind in Hb as (l & Hl & _).
  unfold listenersOf in Hl. apply list_elem_of_fmap in Hl as (name' & [=] & _).
Qed.

Lemma setVisualizerSelector_unbinds_all_witness :
  eventListeners (setVisualizerSelector st_example) = [(onStop, Foreign 0)] ∧
  visualizerListeners (setVisualizerSelector st_example) = [].
Proof.
  destruct (setVisualizerSelector_unbinds_all st_example) as (Hm & HE & _).
  - apply wf_addVisualizer, wf_page_listener.
  - split; [|exact Hm]. rewrite HE. vm_compute. reflexivity.
Defined.
End VisualizersFacts.
